(** * Vault curator: filing, undo and learning

    A shallow embedding of the filing engine ([filer.js]), the operation
    ledger ([undo.js]), the learner ([learning.js]), the command handlers
    ([telegram-filer.js]) and the parts of the vault client
    ([vault-client.js]) they call, followed by the properties proved about
    them.

    Conventions of the embedding.
    - A JavaScript string is the list of its UTF-16 code units.
    - A JavaScript number is [NaN], an infinity, or an exact rational: the
      rounding of IEEE doubles is not modelled.
    - [async] functions that are awaited are run to completion in program
      order. A call that the source does not [await] ([trackOperation] in
      [fileNote] and [queueForReview]) is kept in the world as a detached
      call, which has written nothing when its caller returns; [settle]
      runs the detached calls to completion one after another, in the
      order they were started.
    - CouchDB is a finite map from document ids to note documents.  The
      chunk documents that [writeNote] creates and [readNote] joins are
      folded into the note document (split and join cancel); module
      [Chunked] has the store with the chunk documents spelled out. *)

From Stdlib Require Import ZArith NArith QArith Ascii String Lia Bool.
From stdpp Require Import base tactics decidable option list numbers gmap sorting.

Close Scope Q_scope.
Local Open Scope list_scope.

(** ** JavaScript strings *)

Module JsString.

(** A string is a sequence of UTF-16 code units. *)
Abbreviation jsstring := (list N).

(** Code units of an ASCII literal. *)
Definition js (s : string) : jsstring :=
  List.map N_of_ascii (list_ascii_of_string s).

Definition str_eqb (a b : jsstring) : bool := bool_decide (a = b).

(** [String.prototype.startsWith]. *)
Fixpoint startsWith (s p : jsstring) : bool :=
  match p, s with
  | [], _ => true
  | c :: p', d :: s' => (c =? d)%N && startsWith s' p'
  | _ :: _, [] => false
  end.

(** [String.prototype.endsWith]. *)
Definition endsWith (s p : jsstring) : bool :=
  startsWith (rev s) (rev p).

(** [String.prototype.includes]. *)
Fixpoint includes (s p : jsstring) : bool :=
  startsWith s p ||
  match s with
  | [] => false
  | _ :: s' => includes s' p
  end.

(** [String.prototype.toLowerCase] on the letters A-Z.  Code units outside
    that range are left as they are: the Unicode case table is not
    modelled. *)
Definition lower_unit (c : N) : N :=
  if (65 <=? c)%N && (c <=? 90)%N then (c + 32)%N else c.

Definition toLowerCase (s : jsstring) : jsstring := List.map lower_unit s.

(** White space and line terminators: the class [\s] of regular
    expressions, which is also what [trim] and [parseFloat] strip. *)
Definition is_ws (c : N) : bool :=
  ((9 <=? c) && (c <=? 13) || (c =? 32) || (c =? 160) || (c =? 5760)
   || (8192 <=? c) && (c <=? 8202) || (c =? 8232) || (c =? 8233)
   || (c =? 8239) || (c =? 8287) || (c =? 12288) || (c =? 65279))%N.

Fixpoint trimStart (s : jsstring) : jsstring :=
  match s with
  | c :: s' => if is_ws c then trimStart s' else s
  | [] => []
  end.

Definition trimEnd (s : jsstring) : jsstring := rev (trimStart (rev s)).

(** [String.prototype.trim]. *)
Definition trim (s : jsstring) : jsstring := trimEnd (trimStart s).

(** [s.replace(/pat/g, rep)] for a pattern that is a fixed, non-empty
    sequence of code units: every occurrence, left to right, without
    overlap.  [skip] counts the units of a match still to be dropped. *)
Fixpoint replaceAll_from (pat rep : jsstring) (skip : nat) (s : jsstring)
  : jsstring :=
  match s with
  | [] => []
  | c :: s' =>
      match skip with
      | S k => replaceAll_from pat rep k s'
      | O =>
          if startsWith s pat
          then rep ++ replaceAll_from pat rep (length pat - 1) s'
          else c :: replaceAll_from pat rep 0 s'
      end
  end.

Definition replaceAll (pat rep s : jsstring) : jsstring :=
  replaceAll_from pat rep 0 s.

(** [parts.join(sep)]. *)
Fixpoint join (sep : jsstring) (parts : list jsstring) : jsstring :=
  match parts with
  | [] => []
  | [p] => p
  | p :: rest => p ++ sep ++ join sep rest
  end.

(** [s.split(sep)] for a one-unit separator. *)
Fixpoint split_on (sep : N) (s : jsstring) : list jsstring :=
  match s with
  | [] => [[]]
  | c :: s' =>
      if (c =? sep)%N then [] :: split_on sep s'
      else match split_on sep s' with
           | [] => [[c]]
           | w :: ws => (c :: w) :: ws
           end
  end.

(** Decimal digits of a natural number, as [String(n)] prints them. *)
Fixpoint digits_fuel (fuel : nat) (n : N) (acc : jsstring) : jsstring :=
  match fuel with
  | O => acc
  | S f =>
      let acc' := (48 + n mod 10)%N :: acc in
      if (n <? 10)%N then acc' else digits_fuel f (n / 10)%N acc'
  end.

Definition N_to_js (n : N) : jsstring :=
  digits_fuel (S (N.to_nat (N.log2 n))) n [].

End JsString.
Export JsString.

(** ** JavaScript numbers *)

Module JsNum.

Inductive jsnum :=
| NaN
| Inf (negative : bool)
| Fin (q : Q).

Definition Qltb (a b : Q) : bool :=
  (Qnum a * Zpos (Qden b) <? Qnum b * Zpos (Qden a))%Z.

(** [a < b]; every comparison with [NaN] is false. *)
Definition num_ltb (a b : jsnum) : bool :=
  match a, b with
  | NaN, _ | _, NaN => false
  | Inf true, Inf true => false
  | Inf true, _ => true
  | _, Inf true => false
  | Inf false, _ => false
  | Fin _, Inf false => true
  | Fin x, Fin y => Qltb x y
  end.

Definition num_leb (a b : jsnum) : bool :=
  match a, b with
  | NaN, _ | _, NaN => false
  | _, _ => negb (num_ltb b a)
  end.

(** Falsy numbers: [0] and [NaN]. *)
Definition num_truthy (a : jsnum) : bool :=
  match a with
  | NaN => false
  | Inf _ => true
  | Fin q => negb (Qnum q =? 0)%Z
  end.

(** Membership in the closed interval from 0 to 1. *)
Definition in_unit_interval (a : jsnum) : bool :=
  num_leb (Fin 0) a && num_leb a (Fin 1).

Definition is_digit (c : N) : bool := ((48 <=? c) && (c <=? 57))%N.

Fixpoint span_digits (s : jsstring) : jsstring * jsstring :=
  match s with
  | c :: s' =>
      if is_digit c
      then let '(ds, rest) := span_digits s' in (c :: ds, rest)
      else ([], s)
  | [] => ([], [])
  end.

Definition digits_value (ds : jsstring) : Z :=
  fold_left (fun acc d => (10 * acc + (Z.of_N d - 48))%Z) ds 0%Z.

(** The optional sign of a numeric literal. *)
Definition take_sign (s : jsstring) : bool * jsstring :=
  match s with
  | 45%N :: s' => (true, s')
  | 43%N :: s' => (false, s')
  | _ => (false, s)
  end.

(** The exponent part [e], [e+] or [e-] followed by at least one digit,
    and the text after it; exponent 0 when the text has none. *)
Definition exponent_part (s : jsstring) : Z * jsstring :=
  match s with
  | c :: s' =>
      if (c =? 101)%N || (c =? 69)%N then
        let '(neg, s'') := take_sign s' in
        match span_digits s'' with
        | ([], _) => (0%Z, s)
        | (ds, rest) =>
            (if neg then (- digits_value ds)%Z else digits_value ds, rest)
        end
      else (0%Z, s)
  | [] => (0%Z, [])
  end.

(** [m * 10^e / 10^f] in lowest terms. *)
Definition scale10 (m : Z) (f : nat) (e : Z) : Q :=
  let d := (Z.of_nat f - e)%Z in
  if (d <=? 0)%Z then Qred (Qmake (m * 10 ^ (- d))%Z 1)
  else Qred (Qmake m (Z.to_pos (10 ^ d))).

(** The longest prefix of [s] that is a decimal literal (sign, digits
    with an optional fraction, or a fraction alone, optional exponent; or
    a signed [Infinity]): its value and the text after it. *)
Definition decimal_prefix (s : jsstring) : option (jsnum * jsstring) :=
  let '(neg, body) := take_sign s in
  if startsWith body (js "Infinity") then Some (Inf neg, drop 8 body)
  else
    let '(ints, rest) := span_digits body in
    let '(fracs, rest') :=
      match rest with
      | 46%N :: r =>
          match ints, span_digits r with
          | [], ([], _) => ([], rest)
          | _, (fs, r') => (fs, r')
          end
      | _ => ([], rest)
      end in
    match ints, fracs with
    | [], [] => None
    | _, _ =>
        let m := digits_value (ints ++ fracs) in
        let '(e, rest'') := exponent_part rest' in
        let q := scale10 m (length fracs) e in
        Some (Fin (if neg then Qred (Qopp q) else q), rest'')
    end.

(** [parseFloat]: leading white space is skipped and the longest prefix
    that is a decimal literal is converted; [NaN] when there is none. *)
Definition parseFloat (s : jsstring) : jsnum :=
  match decimal_prefix (trimStart s) with
  | Some (v, _) => v
  | None => NaN
  end.

(** [Number(s)] for a string: white space is trimmed, the empty string is
    0, and the rest must be a decimal literal throughout. (Hexadecimal,
    octal and binary literals are not modelled.) *)
Definition stringToNumber (s : jsstring) : jsnum :=
  match trim s with
  | [] => Fin 0
  | t => match decimal_prefix t with
         | Some (v, []) => v
         | _ => NaN
         end
  end.

Definition num_add (a b : jsnum) : jsnum :=
  match a, b with
  | NaN, _ | _, NaN => NaN
  | Inf x, Inf y => if eqb x y then Inf x else NaN
  | Inf x, _ | _, Inf x => Inf x
  | Fin x, Fin y => Fin (Qred (Qplus x y))
  end.

Definition num_neg (a : jsnum) : jsnum :=
  match a with
  | NaN => NaN
  | Inf x => Inf (negb x)
  | Fin x => Fin (Qred (Qopp x))
  end.

Definition num_sub (a b : jsnum) : jsnum := num_add a (num_neg b).

Definition Qnegative (x : Q) : bool := (Qnum x <? 0)%Z.

(** [a / b]. The sign of a zero is not modelled: a finite non-zero
    number divided by zero is taken to be the infinity of its own sign. *)
Definition num_div (a b : jsnum) : jsnum :=
  match a, b with
  | NaN, _ | _, NaN => NaN
  | Inf _, Inf _ => NaN
  | Inf x, Fin y => Inf (xorb x (Qnegative y))
  | Fin _, Inf _ => Fin 0
  | Fin x, Fin y =>
      if (Qnum y =? 0)%Z
      then (if (Qnum x =? 0)%Z then NaN else Inf (Qnegative x))
      else Fin (Qred (Qdiv x y))
  end.

(** [Math.min(a, b)]. *)
Definition num_min (a b : jsnum) : jsnum :=
  match a, b with
  | NaN, _ | _, NaN => NaN
  | _, _ => if num_ltb b a then b else a
  end.

End JsNum.
Export JsNum.

(** ** Values, errors and results *)

Module JsVal.

(** The values a front-matter field can hold ([_parseYamlValue] yields
    strings, booleans, numbers, arrays of strings and nested objects),
    with [undefined] for an absent property and [null]. An object lists
    its own properties in insertion order. *)
#[warnings="-register-all"]
Inductive jsval :=
| VUndef
| VNull
| VBool (b : bool)
| VNum (n : jsnum)
| VStr (s : jsstring)
| VArr (items : list jsstring)
| VObj (fields : list (jsstring * jsval)).

Abbreviation jsobject := (list (jsstring * jsval)).

(** Truthiness, as [if], [||] and [&&] test it. *)
Definition truthy (v : jsval) : bool :=
  match v with
  | VUndef | VNull => false
  | VBool b => b
  | VNum n => num_truthy n
  | VStr s => negb (str_eqb s [])
  | VArr _ | VObj _ => true
  end.

(** An error object: its [message] and, for errors raised by the
    database driver, its [statusCode]. *)
Record jserror := mkError {
  message : jsstring;
  statusCode : option N
}.

Definition Error (msg : jsstring) : jserror := mkError msg None.

(** The outcome of a call: a value, or an exception. *)
Inductive result (A : Type) :=
| Ok (a : A)
| Throw (e : jserror).
Arguments Ok {A} a.
Arguments Throw {A} e.

(** Sequencing: an exception skips the rest. *)
#[global] Instance result_bind : MBind result := fun A B k r =>
  match r with
  | Ok a => k a
  | Throw e => Throw e
  end.

(** Own-property lookup in insertion-ordered fields. *)
Fixpoint field (k : jsstring) (o : jsobject) : option jsval :=
  match o with
  | [] => None
  | (k', v) :: o' => if str_eqb k k' then Some v else field k o'
  end.

(** [o[k] = v]: an existing property keeps its position. *)
Fixpoint set_field (k : jsstring) (v : jsval) (o : jsobject) : jsobject :=
  match o with
  | [] => [(k, v)]
  | (k', v') :: o' =>
      if str_eqb k k' then (k, v) :: o' else (k', v') :: set_field k v o'
  end.

(** [delete o[k]]. *)
Definition delete_field (k : jsstring) (o : jsobject) : jsobject :=
  List.filter (fun kv => negb (str_eqb k (fst kv))) o.

(** [v.k] for the property names the filer reads ([confidence], [folder],
    [tags], [related], [ai_suggestions]): none of them is defined on a
    prototype, so only objects answer with something other than
    [undefined]. *)
Definition prop (v : jsval) (k : jsstring) : jsval :=
  match v with
  | VObj o => default VUndef (field k o)
  | _ => VUndef
  end.

(** Fraction digits of [r / d] by long division, at most [fuel] of them. *)
Fixpoint frac_digits (fuel : nat) (r d : N) : jsstring :=
  match fuel with
  | O => []
  | S f =>
      if (r =? 0)%N then []
      else (48 + (10 * r) / d)%N :: frac_digits f ((10 * r) mod d)%N d
  end.

(** [String(n)]. Exact for integers and for decimals with up to twenty
    fraction digits; the exponent forms that JavaScript switches to from
    1e21 and below 1e-6, and the shortest-digits rounding of doubles, are
    not modelled. *)
Definition numToString (n : jsnum) : jsstring :=
  match n with
  | NaN => js "NaN"
  | Inf false => js "Infinity"
  | Inf true => js "-Infinity"
  | Fin q =>
      let a := Z.to_N (Z.abs (Qnum q)) in
      let d := Npos (Qden q) in
      let fr := frac_digits 20 (a mod d)%N d in
      (if (Qnum q <? 0)%Z then js "-" else [])
        ++ N_to_js (a / d)%N
        ++ (match fr with [] => [] | _ => js "." ++ fr end)
  end.

(** [String(v)], as a template literal converts a value. *)
Definition toString (v : jsval) : jsstring :=
  match v with
  | VUndef => js "undefined"
  | VNull => js "null"
  | VBool true => js "true"
  | VBool false => js "false"
  | VNum n => numToString n
  | VStr s => s
  | VArr items => join (js ",") items
  | VObj _ => js "[object Object]"
  end.

End JsVal.
Export JsVal.

(** ** filer.js: parseConfidence *)

Definition nine_tenths : Q := Qmake 9 10.
Definition six_tenths : Q := Qmake 3 5.
Definition three_tenths : Q := Qmake 3 10.
Definition one_half : Q := Qmake 1 2.

(** [parseConfidence(confidence)]. A truthy value without a [toLowerCase]
    method ([true], an array, an object) makes the call raise a TypeError. *)
Definition parseConfidence (confidence : jsval) : result jsnum :=
  match confidence with
  | VNum n => Ok n
  | _ =>
      match (if truthy confidence then confidence else VStr []) with
      | VStr s =>
          let level := toLowerCase s in
          if str_eqb level (js "high") then Ok (Fin nine_tenths)
          else if str_eqb level (js "medium") then Ok (Fin six_tenths)
          else if str_eqb level (js "low") then Ok (Fin three_tenths)
          else
            match parseFloat (toString confidence) with
            | NaN => Ok (Fin one_half)
            | parsed => Ok parsed
            end
      | _ =>
          Throw (Error (js "(confidence || '').toLowerCase is not a function"))
      end
  end.

(** ** vault-client.js: sanitizeUnicode *)

Definition is_high_surrogate (c : N) : bool := ((0xD800 <=? c) && (c <=? 0xDBFF))%N.
Definition is_low_surrogate (c : N) : bool := ((0xDC00 <=? c) && (c <=? 0xDFFF))%N.

Definition code_point (hi lo : N) : N :=
  (0x10000 + (hi - 0xD800) * 0x400 + (lo - 0xDC00))%N.

(** [.replace(/[\u{1F300}-\u{1F9FF}]/gu, '')]: with the [u] flag a surrogate
    pair is one character. *)
Fixpoint strip_emoji_from (skip : bool) (s : jsstring) : jsstring :=
  match s with
  | [] => []
  | c :: s' =>
      if skip then strip_emoji_from false s'
      else
        match s' with
        | lo :: _ =>
            if is_high_surrogate c && is_low_surrogate lo
               && (0x1F300 <=? code_point c lo)%N
               && (code_point c lo <=? 0x1F9FF)%N
            then strip_emoji_from true s'
            else c :: strip_emoji_from false s'
        | [] => [c]
        end
  end.

Definition strip_emoji : jsstring -> jsstring := strip_emoji_from false.

(** The replacement table of [sanitizeUnicode], in source order. *)
Definition emoji_table : list (jsstring * jsstring) :=
  [ ([0x2705%N], js "[DONE]");
    ([0x274C%N], js "[FAIL]");
    ([0x26A0%N; 0xFE0F%N], js "[WARN]");
    ([0x2192%N], js "->");
    ([0x2713%N], js "[OK]");
    ([0x2717%N], js "[X]");
    ([0xD83D%N; 0xDCDD%N], js "[NOTE]");
    ([0xD83D%N; 0xDD0D%N], js "[SEARCH]");
    ([0xD83D%N; 0xDCA1%N], js "[IDEA]");
    ([0xD83C%N; 0xDFAF%N], js "[TARGET]");
    ([0xD83D%N; 0xDD25%N], js "[HOT]");
    ([0x2B50%N], js "[STAR]") ].

Definition is_ascii_unit (c : N) : bool := (c <=? 0x7F)%N.

Definition sanitizeUnicode (text : jsstring) : jsstring :=
  let replaced :=
    fold_left (fun t pr => replaceAll (fst pr) (snd pr) t) emoji_table text in
  List.filter is_ascii_unit (strip_emoji replaced).

(** ** Node's [path] module (POSIX flavour) *)

Module Path.

Definition slash : N := 47.
Definition dot : N := 46.
Definition is_slash (c : N) : bool := (c =? slash)%N.

Fixpoint drop_slashes (s : jsstring) : jsstring :=
  match s with
  | c :: s' => if is_slash c then drop_slashes s' else s
  | [] => []
  end.

(** The longest prefix without [c], and what follows it. *)
Fixpoint span_until (c : N) (s : jsstring) : jsstring * jsstring :=
  match s with
  | d :: s' =>
      if (d =? c)%N then ([], s)
      else let '(a, b) := span_until c s' in (d :: a, b)
  | [] => ([], [])
  end.

(** [path.basename(p)]: the last component, trailing slashes ignored. *)
Definition basename (p : jsstring) : jsstring :=
  rev (fst (span_until slash (drop_slashes (rev p)))).

Record parsed := mkParsed {
  dir : jsstring;
  name : jsstring;
  ext : jsstring
}.

(** Name and extension of a last component given reversed: the extension
    starts at the last dot, unless there is none, the component starts
    with it, or the component is [..]. *)
Definition split_ext (base_rev : jsstring) : jsstring * jsstring :=
  let base := rev base_rev in
  match span_until dot base_rev with
  | (_, []) => (base, [])
  | (ext_rev, _ :: left_rev) =>
      match left_rev, ext_rev with
      | [], _ => (base, [])
      | [c], [] => if (c =? dot)%N then (base, [])
                   else (rev left_rev, [dot])
      | _, _ => (rev left_rev, dot :: rev ext_rev)
      end
  end.

(** [path.parse(p)], fields [dir], [name] and [ext]. *)
Definition parse (p : jsstring) : parsed :=
  let '(absolute, rel) :=
    match p with
    | c :: p' => if is_slash c then (true, p') else (false, p)
    | [] => (false, [])
    end in
  let root := if absolute then [slash] else [] in
  match drop_slashes (rev rel) with
  | [] => mkParsed root [] []
  | r1 =>
      let '(base_rev, rest_rev) := span_until slash r1 in
      let '(nm, ex) := split_ext base_rev in
      match rest_rev with
      | [] => mkParsed root nm ex
      | _ :: d_rev => mkParsed (root ++ rev d_rev) nm ex
      end
  end.

(** One step of [normalizeString]: empty and [.] segments vanish, [..]
    removes the segment before it when there is one that is not [..]. *)
Definition push_segment (allowAboveRoot : bool) (stack : list jsstring)
           (seg : jsstring) : list jsstring :=
  if str_eqb seg [] || str_eqb seg [dot] then stack
  else if str_eqb seg [dot; dot] then
    match stack with
    | top :: below =>
        if str_eqb top [dot; dot]
        then (if allowAboveRoot then seg :: stack else stack)
        else below
    | [] => if allowAboveRoot then [seg] else []
    end
  else seg :: stack.

Definition normalizeString (p : jsstring) (allowAboveRoot : bool) : jsstring :=
  JsString.join [slash]
    (rev (fold_left (push_segment allowAboveRoot) (split_on slash p) [])).

(** [path.normalize(p)]. *)
Definition normalize (p : jsstring) : jsstring :=
  match p with
  | [] => [dot]
  | c :: _ =>
      let absolute := is_slash c in
      let trailing := match rev p with d :: _ => is_slash d | [] => false end in
      match normalizeString p (negb absolute) with
      | [] => if absolute then [slash]
              else if trailing then [dot; slash] else [dot]
      | q => (if absolute then [slash] else [])
               ++ q ++ (if trailing then [slash] else [])
      end
  end.

(** [path.join(a, b)] on two strings: empty arguments are skipped. *)
Definition join2 (a b : jsstring) : jsstring :=
  match a, b with
  | [], [] => [dot]
  | [], _ => normalize b
  | _, [] => normalize a
  | _, _ => normalize (a ++ [slash] ++ b)
  end.

End Path.

(** ** Objects with computed keys *)

Module JsObject.

(** The property names every ordinary object inherits from
    [Object.prototype]. A lookup [o[k]] with a computed key finds them
    when [o] has no own property [k]. *)
Definition prototype_names : list jsstring :=
  [ js "constructor"; js "__defineGetter__"; js "__defineSetter__";
    js "hasOwnProperty"; js "__lookupGetter__"; js "__lookupSetter__";
    js "isPrototypeOf"; js "propertyIsEnumerable"; js "toString";
    js "valueOf"; js "__proto__"; js "toLocaleString" ].

Definition inherited (k : jsstring) : bool :=
  existsb (str_eqb k) prototype_names.

(** The result of [o[k]] on an ordinary object. *)
Inductive lookup_result (A : Type) :=
| Own (a : A)
| Inherited
| Absent.
Arguments Own {A} a.
Arguments Inherited {A}.
Arguments Absent {A}.

Fixpoint own {A} (k : jsstring) (o : list (jsstring * A)) : option A :=
  match o with
  | [] => None
  | (k', v) :: o' => if str_eqb k k' then Some v else own k o'
  end.

Definition get {A} (k : jsstring) (o : list (jsstring * A)) : lookup_result A :=
  match own k o with
  | Some v => Own v
  | None => if inherited k then Inherited else Absent
  end.

(** [o[k] = v]. The key [__proto__] is an accessor of the prototype:
    assigning a value that is not an object leaves [o] as it is. (An
    object assigned there would replace the prototype, which the model
    leaves out.) *)
Fixpoint put_own {A} (k : jsstring) (v : A) (o : list (jsstring * A))
  : list (jsstring * A) :=
  match o with
  | [] => [(k, v)]
  | (k', v') :: o' =>
      if str_eqb k k' then (k, v) :: o' else (k', v') :: put_own k v o'
  end.

Definition put {A} (k : jsstring) (v : A) (o : list (jsstring * A))
  : list (jsstring * A) :=
  if str_eqb k (js "__proto__") then o else put_own k v o.

(** An array index: a canonical decimal numeral below [2^32 - 1]. *)
Definition array_index (k : jsstring) : option N :=
  match k with
  | [] => None
  | c :: rest =>
      if forallb is_digit k && (negb (c =? 48)%N || str_eqb rest [])
      then let n := Z.to_N (digits_value k) in
           if (n <? 4294967295)%N then Some n else None
      else None
  end.

Fixpoint insert_by_index {A} (n : N) (kv : jsstring * A)
         (l : list (N * (jsstring * A))) : list (N * (jsstring * A)) :=
  match l with
  | [] => [(n, kv)]
  | (m, kv') :: l' =>
      if (n <? m)%N then (n, kv) :: l
      else (m, kv') :: insert_by_index n kv l'
  end.

Definition add_indexed {A} (acc : list (N * (jsstring * A)))
           (kv : jsstring * A) : list (N * (jsstring * A)) :=
  match array_index (fst kv) with
  | Some n => insert_by_index n kv acc
  | None => acc
  end.

(** [Object.entries(o)]: array-index keys first, in ascending numeric
    order, then the other keys in insertion order. *)
Definition entries {A} (o : list (jsstring * A)) : list (jsstring * A) :=
  List.map snd (fold_left add_indexed o [])
    ++ List.filter (fun kv => negb (bool_decide (is_Some (array_index (fst kv))))) o.

End JsObject.
Export JsObject.

(** ** The environment of a call *)

(** What a call reads from outside the stores: the clock ([Date.now()] and
    its ISO rendering), the random bytes of [generateSessionId], the inbox
    path of the configuration file, and the message text the database
    driver gives its not-found error. *)
Record env := mkEnv {
  now : Z;
  now_iso : jsstring;
  random_hex : jsstring;
  config_inbox_path : jsstring;
  not_found_message : jsstring
}.

(** ** vault-client.js: front-matter codec *)

Module Yaml.

Definition is_line_terminator (c : N) : bool :=
  ((c =? 10) || (c =? 13) || (c =? 8232) || (c =? 8233))%N.

(** [\w], [_] and [-]. *)
Definition is_key_unit (c : N) : bool :=
  (is_digit c || (65 <=? c) && (c <=? 90) || (97 <=? c) && (c <=? 122)
   || (c =? 95) || (c =? 45))%N.

Fixpoint span_while (f : N -> bool) (s : jsstring) : jsstring * jsstring :=
  match s with
  | c :: s' =>
      if f c then let '(a, b) := span_while f s' in (c :: a, b)
      else ([], s)
  | [] => ([], [])
  end.

(** [_getIndentLevel]: the number of leading white-space units. *)
Definition getIndentLevel (line : jsstring) : nat :=
  length (fst (span_while is_ws line)).

(** The field pattern of [_parseYamlBlock]: leading white space, a key of
    word units and dashes, a colon, white space, and a value that runs to
    the end of the line. Returns the key and the value. *)
Definition match_field (line : jsstring) : option (jsstring * jsstring) :=
  let '(_, after_ws) := span_while is_ws line in
  match span_while is_key_unit after_ws with
  | ([], _) => None
  | (key, 58%N :: rest) =>
      let value := snd (span_while is_ws rest) in
      if existsb is_line_terminator value then None else Some (key, value)
  | _ => None
  end.

(** [s.slice(1, -1)]. *)
Definition slice_inner (s : jsstring) : jsstring := removelast (tl s).

Definition quoted (q : N) (s : jsstring) : bool :=
  startsWith s [q] && endsWith s [q].

Definition unquote_item (item : jsstring) : jsstring :=
  let item := trim item in
  if quoted 34 item || quoted 39 item then slice_inner item else item.

(** [/^-?\d+$/] and [/^-?\d+\.\d+$/]. *)
Definition is_integer_text (s : jsstring) : bool :=
  let body := match s with 45%N :: r => r | _ => s end in
  negb (str_eqb body []) && forallb is_digit body.

Definition is_decimal_text (s : jsstring) : bool :=
  let body := match s with 45%N :: r => r | _ => s end in
  match span_digits body with
  | (_ :: _, 46%N :: frac) => negb (str_eqb frac []) && forallb is_digit frac
  | _ => false
  end.

(** [_parseYamlValue(value)]. The last test of the source reads
    [item.endsWith] where no [item] is in scope: a value that starts with
    a single quote (and is not double-quoted) raises a ReferenceError. *)
Definition parseYamlValue (value : jsstring) : result jsval :=
  let value := trim value in
  if str_eqb value [] then Ok (VStr [])
  else if str_eqb value (js "true") then Ok (VBool true)
  else if str_eqb value (js "false") then Ok (VBool false)
  else if is_integer_text value || is_decimal_text value
  then Ok (VNum (parseFloat value))
  else if startsWith value (js "[") && endsWith value (js "]") then
    let inner := slice_inner value in
    if str_eqb (trim inner) [] then Ok (VArr [])
    else Ok (VArr (List.map unquote_item (split_on 44 inner)))
  else if quoted 34 value then Ok (VStr (slice_inner value))
  else if startsWith value [39%N]
  then Throw (Error (js "item is not defined"))
  else Ok (VStr value).

(** [_parseYamlBlock(lines, startIndex, baseIndent)], on the lines from
    [startIndex] on; returns the object and the lines left unread. Each
    round reads at least one line, so [fuel] = number of lines suffices. *)
Fixpoint parseYamlBlock (fuel : nat) (lines : list jsstring) (baseIndent : nat)
         (acc : jsobject) : result (jsobject * list jsstring) :=
  match fuel with
  | O => Ok (acc, lines)
  | S fuel' =>
      match lines with
      | [] => Ok (acc, [])
      | line :: rest =>
          let blank := str_eqb (trim line) [] in
          if (getIndentLevel line <? baseIndent)%nat && negb blank
          then Ok (acc, lines)
          else if blank || startsWith (trim line) (js "#")
          then parseYamlBlock fuel' rest baseIndent acc
          else
            match match_field line with
            | None => parseYamlBlock fuel' rest baseIndent acc
            | Some (key, value) =>
                let nested :=
                  match rest with
                  | next :: _ =>
                      if str_eqb next [] then None
                      else if str_eqb value []
                              && (getIndentLevel line <? getIndentLevel next)%nat
                      then Some (getIndentLevel next)
                      else None
                  | [] => None
                  end in
                match nested with
                | Some nextIndent =>
                    '(obj, rest') ← parseYamlBlock fuel' rest nextIndent [];
                    parseYamlBlock fuel' rest' baseIndent (put key (VObj obj) acc)
                | None =>
                    v ← parseYamlValue value;
                    parseYamlBlock fuel' rest baseIndent (put key v acc)
                end
            end
      end
  end.

(** A closing delimiter: [---] followed by white space only. *)
Definition is_closing (line : jsstring) : bool :=
  startsWith line (js "---") && forallb is_ws (drop 3 line).

Fixpoint split_at_closing (lines : list jsstring)
  : option (list jsstring * list jsstring) :=
  match lines with
  | [] => None
  | l :: rest =>
      if is_closing l then Some ([], rest)
      else '(a, b) ← split_at_closing rest; Some (l :: a, b)
  end.

(** [parseFrontmatter(content)]. *)
Definition parseFrontmatter (content : jsstring) : result (jsobject * jsstring) :=
  match split_on 10 content with
  | first :: others =>
      if str_eqb first (js "---") then
        match split_at_closing others with
        | None => Ok ([], content)
        | Some (yamlLines, bodyLines) =>
            '(fm, _) ← parseYamlBlock (length yamlLines) yamlLines 0 [];
            Ok (fm, JsString.join [10%N] bodyLines)
        end
      else Ok ([], content)
  | [] => Ok ([], content)
  end.

Fixpoint depth (v : jsval) : nat :=
  match v with
  | VObj fields => S (list_max (List.map (fun kv => depth (snd kv)) fields))
  | _ => 0
  end.

Definition indentStr (indent : nat) : jsstring := concat (repeat (js "  ") indent).

(** [_addYamlField(lines, key, value, indent)]: the lines it appends. *)
Fixpoint addYamlField (fuel : nat) (key : jsstring) (value : jsval)
         (indent : nat) : list jsstring :=
  match value with
  | VArr items =>
      [indentStr indent ++ key ++ js ": [" ++ JsString.join (js ", ") items ++ js "]"]
  | VObj fields =>
      (indentStr indent ++ key ++ js ":")
        :: match fuel with
           | O => []
           | S fuel' =>
               flat_map (fun kv => addYamlField fuel' (fst kv) (snd kv) (S indent))
                        (entries fields)
           end
  | _ => [indentStr indent ++ key ++ js ": " ++ toString value]
  end.

(** [buildNote(frontmatter, body)]. *)
Definition buildNote (frontmatter : jsobject) (body : jsstring) : jsstring :=
  match frontmatter with
  | [] => body
  | _ =>
      let fields :=
        flat_map (fun kv => addYamlField (depth (snd kv)) (fst kv) (snd kv) 0)
                 (entries frontmatter) in
      JsString.join [10%N] ([js "---"] ++ fields ++ [js "---"]) ++ [10%N] ++ body
  end.

End Yaml.
Export Yaml.

Definition nl : jsstring := [10%N].

Definition sample_note : jsstring :=
  JsString.join nl
    [ js "---"; js "created: 2026-02-10"; js "processed: true";
      js "ai_suggestions:"; js "  folder: projects/ai";
      js "  tags: [machine-learning, testing]";
      js "  related: [projects/ai/neural-nets.md]";
      js "  summary: Test note for filing"; js "  confidence: high";
      js "---"; js ""; js "# Test Filing Note"; js "" ].

(** ** vault-client.js: the note store *)

Module Vault.

(** A note document of the database: its [path], the content its chunks
    join to, and the [deleted] and [e_] (encrypted) marks. Revision,
    times and size play no part in what follows and are left out. *)
Record doc := mkDoc {
  doc_path : jsstring;
  doc_content : jsstring;
  doc_deleted : bool;
  doc_encrypted : bool
}.

#[global] Instance doc_eq_dec : EqDecision doc.
Proof. solve_decision. Defined.

Abbreviation database := (gmap jsstring doc).

(** What [readNote] returns. *)
Record note_file := mkNoteFile {
  file_path : jsstring;
  file_content : jsstring
}.

(** [_pathToId(path)]. *)
Definition pathToId (path : jsstring) : jsstring :=
  let id := toLowerCase path in
  if startsWith id (js "_") then js "/" ++ id else id.

Definition not_found (e : env) : jserror :=
  mkError (not_found_message e) (Some 404%N).

(** [readNote(path)]: [null] for a missing document, an exception for an
    encrypted one. *)
Definition readNote (db : database) (path : jsstring)
  : result (option note_file) :=
  match db !! pathToId path with
  | None => Ok None
  | Some d =>
      if doc_encrypted d
      then Throw (Error (js "Note is encrypted - E2EE must be disabled"))
      else Ok (Some (mkNoteFile (doc_path d) (doc_content d)))
  end.

(** [writeNote(path, content)]: the content is sanitized; a document
    already there is replaced, marks included. *)
Definition writeNote (db : database) (path content : jsstring) : database :=
  <[pathToId path := mkDoc path (sanitizeUnicode content) false false]> db.

(** [deleteNote(path)]: a soft delete. The document stays, marked
    [deleted] and emptied; a missing document is the driver's 404. *)
Definition deleteNote (e : env) (db : database) (path : jsstring)
  : result database :=
  match db !! pathToId path with
  | None => Throw (not_found e)
  | Some d =>
      Ok (<[pathToId path := mkDoc (doc_path d) [] true (doc_encrypted d)]> db)
  end.

(** [listNotes()]: the paths of the rows that are neither chunks nor
    system documents, in the order the database lists them. *)
Definition is_note_row (id : jsstring) : bool :=
  negb (startsWith id (js "h:")) && negb (startsWith id (js "_"))
  && negb (str_eqb id (js "obsydian_livesync_version")).

Definition listNotes (db : database) : list jsstring :=
  List.map (fun row => doc_path (snd row))
           (List.filter (fun row => is_note_row (fst row)) (map_to_list db)).

End Vault.
Export Vault.

(** ** Files on disk *)

(** A JSON file the program keeps next to its code: absent ([ENOENT]),
    unreadable (any other read or parse error), or holding a value. *)
Inductive file (A : Type) :=
| Missing
| Unreadable (e : jserror)
| Stored (a : A).
Arguments Missing {A}.
Arguments Unreadable {A} e.
Arguments Stored {A} a.

(** ** learning.js *)

Module Learning.

(** A folder pattern: the hit [count] and the keyword frequencies. A
    frequency is a number, or the text that [updateFolderPatterns] stores
    for a keyword that names an inherited property. *)
Record pattern := mkPattern {
  count : jsnum;
  keywords : list (jsstring * jsval)
}.

(** The [folderPatterns] object of the learning data. The corrections
    log, which no function modelled here reads, is left out. *)
Abbreviation patterns := (list (jsstring * pattern)).

(** [loadLearningData()]. *)
Definition loadLearningData (f : file patterns) : result patterns :=
  match f with
  | Missing => Ok []
  | Unreadable e => Throw e
  | Stored d => Ok d
  end.

Definition stop_words : list jsstring :=
  [ js "this"; js "that"; js "with"; js "from"; js "have"; js "will";
    js "been"; js "were"; js "their"; js "what"; js "which"; js "when";
    js "where"; js "there"; js "about"; js "would"; js "could";
    js "should"; js "these"; js "those" ].

(** [isStopWord(word)]. *)
Definition isStopWord (word : jsstring) : bool :=
  existsb (str_eqb word) stop_words.

(** The first occurrence of [pat] in [s]: what precedes and what follows. *)
Fixpoint find_seq (pat s : jsstring) : option (jsstring * jsstring) :=
  if startsWith s pat then Some ([], drop (length pat) s)
  else match s with
       | [] => None
       | c :: s' => '(a, b) ← find_seq pat s'; Some (c :: a, b)
       end.

(** The first replacement of [extractKeywords]: the text from the first
    [---] to the next one that starts after it is removed, once. *)
Definition remove_frontmatter (s : jsstring) : jsstring :=
  match find_seq (js "---") s with
  | Some (before, inside) =>
      match find_seq (js "---") inside with
      | Some (_, after) => before ++ after
      | None => s
      end
  | None => s
  end.

(** The markdown symbols the second replacement turns into spaces. *)
Definition is_markdown_symbol (c : N) : bool :=
  existsb (N.eqb c) (js "#*`[]()").

Definition blank_symbols (s : jsstring) : jsstring :=
  List.map (fun c => if is_markdown_symbol c then 32%N else c) s.

(** [s.split(/\s+/)]: the pieces between runs of white space, an empty
    piece at either end when the text starts or ends with white space. *)
Fixpoint split_ws_from (in_ws : bool) (s : jsstring) : list jsstring :=
  match s with
  | [] => [[]]
  | c :: s' =>
      if is_ws c then
        if in_ws then split_ws_from true s' else [] :: split_ws_from true s'
      else
        match split_ws_from false s' with
        | w :: ws => (c :: w) :: ws
        | [] => [[c]]
        end
  end.

Definition split_ws : jsstring -> list jsstring := split_ws_from false.

(** What the prototype holds under an inherited name, as text: the
    prototype itself under [__proto__], a native function otherwise. *)
Definition inherited_text (k : jsstring) : jsstring :=
  if str_eqb k (js "__proto__") then js "[object Object]"
  else js "function "
       ++ (if str_eqb k (js "constructor") then js "Object" else k)
       ++ js "() { [native code] }".

Definition one : jsnum := Fin (Qmake 1 1).

(** [x + y]: numbers add, and a string on either side concatenates. *)
Definition js_plus (x y : jsval) : jsval :=
  match x, y with
  | VNum a, VNum b => VNum (num_add a b)
  | _, _ => VStr (toString x ++ toString y)
  end.

(** [(freq[word] || 0) + 1]. *)
Definition next_count (freq : list (jsstring * jsval)) (word : jsstring) : jsval :=
  match get word freq with
  | Own v => js_plus (if truthy v then v else VNum (Fin 0)) (VNum one)
  | Inherited => VStr (inherited_text word ++ js "1")
  | Absent => VNum one
  end.

Definition count_words (words : list jsstring) : list (jsstring * jsval) :=
  fold_left (fun freq word => put word (next_count freq word) freq) words [].

(** [Number(v)]. *)
Definition toNumber (v : jsval) : jsnum :=
  match v with
  | VNum n => n
  | VStr s => stringToNumber s
  | VBool true => one
  | VBool false | VNull => Fin 0
  | VArr items => stringToNumber (JsString.join (js ",") items)
  | VUndef | VObj _ => NaN
  end.

(** The comparator [(a, b) => b[1] - a[1]]. *)
Definition by_count_desc (a b : jsstring * jsval) : jsnum :=
  num_sub (toNumber (snd b)) (toNumber (snd a)).

(** [Array.prototype.sort(cmp)]: a stable sort, written as an insertion
    sort. An element moves behind another only when the comparator is
    positive; 0 and [NaN] keep the order. For a comparator that orders
    the elements consistently this is the order every stable sort gives. *)
Fixpoint insert_sorted {A} (cmp : A -> A -> jsnum) (x : A) (l : list A) : list A :=
  match l with
  | [] => [x]
  | y :: l' =>
      if num_ltb (Fin 0) (cmp x y) then y :: insert_sorted cmp x l'
      else x :: l
  end.

Definition sort {A} (cmp : A -> A -> jsnum) (l : list A) : list A :=
  foldr (insert_sorted cmp) [] l.

(** The words of [extractKeywords] before they are counted. *)
Definition clean_words (content : jsstring) : list jsstring :=
  let cleaned := toLowerCase (blank_symbols (remove_frontmatter content)) in
  List.filter (fun w => negb (isStopWord w))
    (List.filter (fun w => (3 <? length w)%nat) (split_ws cleaned)).

(** [extractKeywords(content)]. *)
Definition extractKeywords (content : jsstring) : list jsstring :=
  let freq := count_words (clean_words content) in
  take 20 (List.map fst (sort by_count_desc (entries freq))).

Record hints := mkHints {
  suggestedFolder : option jsstring;
  confidence : jsnum;
  scores : list (jsstring * jsnum)
}.

(** The score of one folder: the frequencies of the keywords it knows,
    summed, over its hit count. *)
Definition folder_score (kws : list jsstring) (p : pattern) : jsnum :=
  let score :=
    fold_left (fun score keyword =>
                 match get keyword (keywords p) with
                 | Own v => if truthy v then js_plus score v else score
                 | Inherited => js_plus score (VStr (inherited_text keyword))
                 | Absent => score
                 end) kws (VNum (Fin 0)) in
  num_div (toNumber score) (if num_truthy (count p) then count p else one).

(** [getFolderHints(noteContent)]. *)
Definition getFolderHints (f : file patterns) (noteContent : jsstring)
  : result hints :=
  data ← loadLearningData f;
  match data with
  | [] => Ok (mkHints None (Fin 0) [])
  | _ =>
      let kws := extractKeywords noteContent in
      let scores :=
        fold_left (fun acc fp => put (fst fp) (folder_score kws (snd fp)) acc)
                  (entries data) [] in
      let '(bestFolder, bestScore) :=
        fold_left (fun best fs =>
                     if num_ltb (snd best) (snd fs)
                     then (Some (fst fs), snd fs) else best)
                  (entries scores) (None, Fin 0) in
      Ok (mkHints bestFolder
                  (num_min (num_div bestScore (Fin (Qmake 10 1))) one)
                  scores)
  end.

End Learning.
Export Learning.

(** ** undo.js: the operation ledger *)

Module Ledger.

Record operation := mkOperation {
  action : jsstring;
  originalPath : jsstring;
  targetPath : jsstring;
  timestamp : Z;
  originalContent : jsstring;
  newContent : jsstring
}.

Record session := mkSession {
  startTime : Z;
  operations : list operation;
  undone : bool;
  undoneAt : option Z
}.

(** The [sessions] object of the history file, keyed by session id. (A
    history file always carries it: [saveHistory] and [clearHistory]
    write it.) *)
Abbreviation sessions := (list (jsstring * session)).

(** The stores a call works on, and the calls of [trackOperation] that
    were started without being awaited and have not completed: the session
    id and the operation of each, oldest first. *)
Record world := mkWorld {
  vault : database;
  history : file sessions;
  learning : file patterns;
  detached : list (jsstring * operation)
}.

Definition with_vault (w : world) (db : database) : world :=
  mkWorld db (history w) (learning w) (detached w).

(** [loadHistory()]. *)
Definition loadHistory (f : file sessions) : result sessions :=
  match f with
  | Missing => Ok []
  | Unreadable e => Throw e
  | Stored h => Ok h
  end.

(** The comparator [(a, b) => b[1].startTime - a[1].startTime]. *)
Definition most_recent_first (a b : jsstring * session) : jsnum :=
  Fin (inject_Z (startTime (snd b) - startTime (snd a))).

(** [saveHistory(history)]: beyond 100 sessions only the 100 most recent
    by [startTime] are written. *)
Definition saveHistory (h : sessions) : sessions :=
  if (100 <? length h)%nat
  then take 100 (sort most_recent_first (entries h))
  else h.

(** [trackOperation(sessionId, operation)]. A session id that names an
    inherited property finds the prototype's value, which has no
    [operations]: the call fails. *)
Definition trackOperation (e : env) (f : file sessions)
           (sessionId : jsstring) (op : operation) : result sessions :=
  h ← loadHistory f;
  match get sessionId h with
  | Inherited =>
      Throw (Error (js "Cannot read properties of undefined (reading 'push')"))
  | Absent =>
      Ok (saveHistory (put sessionId (mkSession (now e) [op] false None) h))
  | Own s =>
      Ok (saveHistory
            (put_own sessionId
                 (mkSession (startTime s) (operations s ++ [op]) (undone s) (undoneAt s))
                 h))
  end.

(** [trackOperation] as [fileNote] and [queueForReview] call it, without
    [await]: the call is started and the caller goes on. The call begins
    by reading the history file and yields there, so that nothing of it has
    reached the file when the caller returns. *)
Definition trackOperation_detached (w : world) (sessionId : jsstring)
           (op : operation) : world :=
  mkWorld (vault w) (history w) (learning w) (detached w ++ [(sessionId, op)]).

(** One detached call runs to its end: the history file it leaves and the
    errors raised so far. An error of such a call is a rejection that no
    caller handles. *)
Definition complete (e : env) (st : file sessions * list jserror)
           (call : jsstring * operation) : file sessions * list jserror :=
  match trackOperation e (fst st) (fst call) (snd call) with
  | Ok h => (Stored h, snd st)
  | Throw err => (fst st, snd st ++ [err])
  end.

(** The detached calls run to their end one after another, in the order
    they were started, at the time of [e]: the stores they leave and the
    errors they raised. A detached call can also complete while the batch
    that started it is still running; the batch never reads the history
    file, so the stores it leaves are the same. Calls that overlap, where
    one overwrites what another has saved, are not modelled. *)
Definition settle (e : env) (w : world) : world * list jserror :=
  let st := fold_left (complete e) (detached w) (history w, []) in
  (mkWorld (vault w) (fst st) (learning w) [], snd st).

(** [undoOperation(vaultClient, operation)]: the database after the call
    and whether it returned. The write comes first and stays when the
    delete fails; a delete error whose message includes [404] is
    swallowed. *)
Definition undoOperation (e : env) (db : database) (op : operation)
  : database * result unit :=
  if str_eqb (action op) (js "file") || str_eqb (action op) (js "queue") then
    let db1 := writeNote db (originalPath op) (originalContent op) in
    match deleteNote e db1 (targetPath op) with
    | Ok db2 => (db2, Ok tt)
    | Throw err =>
        if includes (message err) (js "404") then (db1, Ok tt)
        else (db1, Throw err)
    end
  else (db, Throw (Error (js "Unknown operation type: " ++ action op))).

Inductive undo_status := Undone | UndoFailed.

Record undo_detail := mkUndoDetail {
  ud_action : jsstring;
  ud_path : jsstring;
  ud_status : undo_status;
  ud_error : option jsstring
}.

Record undo_results := mkUndoResults {
  ur_sessionId : jsstring;
  ur_undone : nat;
  ur_failed : nat;
  ur_details : list undo_detail
}.

(** The loop of [undoLastFiling] over the reversed operations. *)
Fixpoint undo_each (e : env) (db : database) (ops : list operation)
         (r : undo_results) : database * undo_results :=
  match ops with
  | [] => (db, r)
  | op :: rest =>
      let '(db', outcome) := undoOperation e db op in
      let r' :=
        match outcome with
        | Ok _ =>
            mkUndoResults (ur_sessionId r) (S (ur_undone r)) (ur_failed r)
              (ur_details r ++ [mkUndoDetail (action op) (originalPath op) Undone None])
        | Throw err =>
            mkUndoResults (ur_sessionId r) (ur_undone r) (S (ur_failed r))
              (ur_details r
                 ++ [mkUndoDetail (action op) (originalPath op) UndoFailed
                                  (Some (message err))])
        end in
      undo_each e db' rest r'
  end.

(** [undoLastFiling(sessionId)]. *)
Definition undoLastFiling (e : env) (w : world) (sessionId : jsstring)
  : world * result undo_results :=
  match loadHistory (history w) with
  | Throw err => (w, Throw err)
  | Ok h =>
      match get sessionId h with
      | Absent =>
          (w, Throw (Error (js "Session " ++ sessionId ++ js " not found")))
      | Inherited =>
          (w, Throw (Error (js "session.operations is not iterable")))
      | Own s =>
          let '(db, r) :=
            undo_each e (vault w) (rev (operations s))
                      (mkUndoResults sessionId 0 0 []) in
          let s' := mkSession (startTime s) (operations s) true (Some (now e)) in
          (mkWorld db (Stored (saveHistory (put_own sessionId s' h)))
                   (learning w) (detached w),
           Ok r)
      end
  end.

(** An entry of the list [getRecentSessions] returns. *)
Record recent_session := mkRecent {
  rs_sessionId : jsstring;
  rs_startTime : Z;
  rs_operationCount : nat;
  rs_actions : list jsstring
}.

(** [getRecentSessions(limit)], for a limit that is a natural number: the
    sessions not yet undone, most recent first. *)
Definition getRecentSessions (f : file sessions) (limit : nat)
  : result (list recent_session) :=
  h ← loadHistory f;
  Ok (List.map
        (fun kv => mkRecent (fst kv) (startTime (snd kv))
                            (length (operations (snd kv)))
                            (List.map action (operations (snd kv))))
        (take limit
           (sort most_recent_first
              (List.filter (fun kv => negb (undone (snd kv))) (entries h))))).

(** [getSession(sessionId)]: [null] when the history has nothing under the
    id. An id that names an inherited property finds the prototype's
    value, which spreads to nothing: the answer then holds the id alone. *)
Definition getSession (f : file sessions) (sessionId : jsstring)
  : result (option (jsstring * option session)) :=
  h ← loadHistory f;
  Ok (match get sessionId h with
      | Own s => Some (sessionId, Some s)
      | Inherited => Some (sessionId, None)
      | Absent => None
      end).

(** [clearHistory()]: the history file is overwritten with an empty one. *)
Definition clearHistory (f : file sessions) : file sessions := Stored [].

End Ledger.
Export Ledger.

(** ** filer.js *)

Module Filer.

(** An inbox note as [getProcessedInboxNotes] hands it over. *)
Record note := mkNote {
  path : jsstring;
  frontmatter : jsobject;
  body : jsstring;
  content : jsstring
}.

Inductive outcome := Filed | Queued | Skipped | Failed.

#[global] Instance outcome_eq_dec : EqDecision outcome.
Proof. solve_decision. Defined.

(** An entry of [results.details]. *)
Record detail := mkDetail {
  d_path : jsstring;
  d_action : outcome;
  d_targetPath : option jsstring;
  d_tags : jsval;
  d_confidence : jsval;
  d_reason : option jsstring;
  d_preview : bool;
  d_error : option jsstring
}.

Record file_options := mkFileOptions {
  minConfidence : jsnum;
  dryRun : bool;
  sessionId : jsstring
}.

Definition TypeError := Error.

(** [v.k]: reading a property of [undefined] or [null] is a TypeError. *)
Definition get_prop (v : jsval) (k : jsstring) : result jsval :=
  match v with
  | VUndef | VNull =>
      Throw (TypeError (js "Cannot read properties of undefined (reading '"
                        ++ k ++ js "')"))
  | _ => Ok (prop v k)
  end.

(** [v && v.length > 0]. *)
Definition non_empty (v : jsval) : bool :=
  match v with
  | VStr s => negb (str_eqb s [])
  | VArr items => negb (bool_decide (items = []))
  | VObj o =>
      truthy (VObj o) && num_ltb (Fin 0) (toNumber (prop v (js "length")))
  | _ => false
  end.

(** [notePath.replace(/\.md$/, '')]. *)
Definition strip_md (p : jsstring) : jsstring :=
  if endsWith p (js ".md") then take (length p - 3) p else p.

(** [buildUpdatedNote(note, suggestions)]. A [related] that is a
    non-empty string has no [map]: a TypeError. *)
Definition buildUpdatedNote (e : env) (n : note) (suggestions : jsval)
  : result jsstring :=
  let tags := prop suggestions (js "tags") in
  let fm := if non_empty tags then set_field (js "tags") tags (frontmatter n)
            else frontmatter n in
  let fm := set_field (js "filed_at") (VStr (now_iso e)) fm in
  let fm := set_field (js "filed_by") (VStr (js "vault-curator")) fm in
  let fm := delete_field (js "ai_suggestions") fm in
  let related := prop suggestions (js "related") in
  body' ←
    (if non_empty related then
       match related with
       | VArr items =>
           let backlinks :=
             JsString.join (js " ")
               (List.map (fun p => js "[[" ++ strip_md p ++ js "]]") items) in
           Ok (body n ++ nl ++ nl ++ js "## Related Notes" ++ nl ++ backlinks)
       | _ => Throw (TypeError (js "suggestions.related.map is not a function"))
       end
     else Ok (body n));
  Ok (buildNote fm body').

(** The path [resolveCollision] tries in round [counter]. *)
Definition suffixed (targetPath : jsstring) (counter : N) : jsstring :=
  let parsed := Path.parse targetPath in
  Path.join2 (Path.dir parsed)
             (Path.name parsed ++ js "-" ++ N_to_js counter ++ Path.ext parsed).

(** The [while] loop of [resolveCollision]: [finalPath] is read; when a
    note is there the next suffix is taken, and the call gives up once
    the counter has passed 100. *)
Fixpoint resolve_loop (fuel : nat) (db : database) (targetPath : jsstring)
         (counter : N) (finalPath : jsstring) : result jsstring :=
  existing ← readNote db finalPath;
  match existing with
  | None => Ok finalPath
  | Some _ =>
      match fuel with
      | O => Throw (Error (js "Too many collisions for " ++ targetPath))
      | S fuel' =>
          if (100 <? counter + 1)%N
          then Throw (Error (js "Too many collisions for " ++ targetPath))
          else resolve_loop fuel' db targetPath (counter + 1)%N
                            (suffixed targetPath counter)
      end
  end.

(** [resolveCollision(vaultClient, targetPath, dryRun)]. *)
Definition resolveCollision (db : database) (targetPath : jsstring)
           (dryRun : bool) : result jsstring :=
  if dryRun then
    existing ← readNote db targetPath;
    match existing with
    | Some _ => Ok (suffixed targetPath 1)
    | None => Ok targetPath
    end
  else resolve_loop 100 db targetPath 1 targetPath.

Definition review_queue : jsstring := js "inbox/review-queue/".

(** [queueForReview(vaultClient, note, dryRun, sessionId)]. *)
Definition queueForReview (e : env) (w : world) (n : note)
           (dryRun : bool) (sessionId : jsstring) : world * result detail :=
  let queuePath := review_queue ++ Path.basename (path n) in
  let fm := set_field (js "review_needed") (VBool true) (frontmatter n) in
  let fm := set_field (js "queued_at") (VStr (now_iso e)) fm in
  let updatedContent := buildNote fm (body n) in
  if dryRun then
    (w, Ok (mkDetail (path n) Queued (Some queuePath) VUndef VUndef
                     (Some (js "Low confidence")) true None))
  else
    let db1 := writeNote (vault w) queuePath updatedContent in
    match deleteNote e db1 (path n) with
    | Throw err => (with_vault w db1, Throw err)
    | Ok db2 =>
        let w2 :=
          trackOperation_detached (with_vault w db2) sessionId
            (mkOperation (js "queue") (path n) queuePath (now e)
                         (content n) updatedContent) in
        (w2, Ok (mkDetail (path n) Queued (Some queuePath) VUndef
                   (prop (default VUndef (field (js "ai_suggestions") (frontmatter n)))
                         (js "confidence"))
                   (Some (js "Low confidence")) false None))
    end.

(** [suggestions.tags || []]. *)
Definition tags_or_empty (suggestions : jsval) : jsval :=
  let tags := prop suggestions (js "tags") in
  if truthy tags then tags else VArr [].

(** [fileNote(vaultClient, note, options)]. *)
Definition fileNote (e : env) (w : world) (n : note) (o : file_options)
  : world * result detail :=
  let suggestions := default VUndef (field (js "ai_suggestions") (frontmatter n)) in
  match
    (c ← get_prop suggestions (js "confidence");
     parseConfidence c)
  with
  | Throw err => (w, Throw err)
  | Ok confidence =>
      if num_ltb confidence (minConfidence o)
      then queueForReview e w n (dryRun o) (sessionId o)
      else
        match
          (h ← getFolderHints (learning w) (body n);
           let targetFolder :=
             match suggestedFolder h with
             | Some f => if str_eqb f [] then prop suggestions (js "folder")
                         else VStr f
             | None => prop suggestions (js "folder")
             end in
           targetPath ←
             match targetFolder with
             | VStr f => Ok (Path.join2 f (Path.basename (path n)))
             | _ => Throw (TypeError
                      (js "The path argument must be of type string"))
             end;
           finalPath ← resolveCollision (vault w) targetPath (dryRun o);
           updatedNote ← buildUpdatedNote e n suggestions;
           Ok (finalPath, updatedNote))
        with
        | Throw err => (w, Throw err)
        | Ok (finalPath, updatedNote) =>
            let report preview :=
              mkDetail (path n) Filed (Some finalPath)
                       (tags_or_empty suggestions)
                       (prop suggestions (js "confidence")) None preview None in
            if dryRun o then (w, Ok (report true))
            else
              let db1 := writeNote (vault w) finalPath updatedNote in
              match deleteNote e db1 (path n) with
              | Throw err => (with_vault w db1, Throw err)
              | Ok db2 =>
                  (trackOperation_detached (with_vault w db2) (sessionId o)
                     (mkOperation (js "file") (path n) finalPath (now e)
                                  (content n) updatedNote),
                   Ok (report false))
              end
        end
  end.

End Filer.
Export Filer.

Module Batch.

(** The options object of [fileNotes]; [None] is an absent property. *)
Record options := mkOptions {
  opt_limit : option jsnum;
  opt_minConfidence : option jsnum;
  opt_dryRun : option bool;
  opt_sessionId : option jsstring
}.

Record results := mkResults {
  r_sessionId : jsstring;
  processed : nat;
  filed : nat;
  queued : nat;
  skipped : nat;
  failed : nat;
  details : list detail;
  r_dryRun : bool;
  r_message : option jsstring
}.

(** [x || d] on an optional number. *)
Definition num_or (x : option jsnum) (d : jsnum) : jsnum :=
  match x with
  | Some n => if num_truthy n then n else d
  | None => d
  end.

Definition default_limit : jsnum := Fin (Qmake 10 1).
Definition default_minConfidence : jsnum := Fin (Qmake 7 10).

Definition effective_limit (o : options) : jsnum :=
  num_or (opt_limit o) default_limit.

Definition effective_minConfidence (o : options) : jsnum :=
  num_or (opt_minConfidence o) default_minConfidence.

Definition Z_to_js (z : Z) : jsstring :=
  (if (z <? 0)%Z then js "-" else []) ++ N_to_js (Z.abs_N z).

(** [generateSessionId()]. *)
Definition generateSessionId (e : env) : jsstring :=
  js "filer-" ++ Z_to_js (now e) ++ js "-" ++ random_hex e.

Definition effective_sessionId (e : env) (o : options) : jsstring :=
  match opt_sessionId o with
  | Some s => if str_eqb s [] then generateSessionId e else s
  | None => generateSessionId e
  end.

(** [l.slice(0, limit)]: the limit is truncated to an integer, and a
    negative one counts from the end. *)
Definition slice_to {A} (l : list A) (limit : jsnum) : list A :=
  match limit with
  | NaN => []
  | Inf negative => if negative then [] else l
  | Fin q =>
      let k := Z.quot (Qnum q) (Zpos (Qden q)) in
      if (k <? 0)%Z then take (Z.to_nat (Z.of_nat (length l) + k)) l
      else take (Z.to_nat k) l
  end.

(** [config.inbox.path || 'inbox/']. *)
Definition inboxPath (e : env) : jsstring :=
  if str_eqb (config_inbox_path e) [] then js "inbox/" else config_inbox_path e.

(** The loop of [getProcessedInboxNotes] over the listed inbox paths. *)
Fixpoint read_processed (db : database) (paths : list jsstring)
  : result (list note) :=
  match paths with
  | [] => Ok []
  | p :: rest =>
      found ← readNote db p;
      match found with
      | None => read_processed db rest
      | Some f =>
          '(fm, body) ← parseFrontmatter (file_content f);
          others ← read_processed db rest;
          Ok (if truthy (default VUndef (field (js "ai_suggestions") fm))
              then mkNote (file_path f) fm body (file_content f) :: others
              else others)
      end
  end.

(** [getProcessedInboxNotes(vaultClient)]. *)
Definition getProcessedInboxNotes (e : env) (db : database)
  : result (list note) :=
  read_processed db
    (List.filter (fun p => startsWith p (inboxPath e)) (listNotes db)).

Definition failure (n : note) (err : jserror) : detail :=
  mkDetail (path n) Failed None VUndef VUndef None false (Some (message err)).

(** One round of the [for] loop of [fileNotes]. *)
Definition file_step (e : env) (o : file_options) (st : world * results)
           (n : note) : world * results :=
  let '(w, r) := st in
  let '(w', res) := fileNote e w n o in
  let r' :=
    match res with
    | Ok d =>
        mkResults (r_sessionId r) (S (processed r))
          (if bool_decide (d_action d = Filed) then S (filed r) else filed r)
          (if bool_decide (d_action d = Queued) then S (queued r) else queued r)
          (if bool_decide (d_action d = Skipped) then S (skipped r) else skipped r)
          (failed r) (details r ++ [d]) (r_dryRun r) (r_message r)
    | Throw err =>
        mkResults (r_sessionId r) (S (processed r)) (filed r) (queued r)
          (skipped r) (S (failed r)) (details r ++ [failure n err])
          (r_dryRun r) (r_message r)
    end in
  (w', r').

Definition file_options_of (e : env) (o : options) : file_options :=
  mkFileOptions (effective_minConfidence o)
                (default false (opt_dryRun o))
                (effective_sessionId e o).

Definition empty_results (e : env) (o : options) : results :=
  mkResults (effective_sessionId e o) 0 0 0 0 0 []
            (default false (opt_dryRun o)) None.

(** [fileNotes(options)]. *)
Definition fileNotes (e : env) (w : world) (o : options)
  : world * result results :=
  match getProcessedInboxNotes e (vault w) with
  | Throw err => (w, Throw (Error (js "Filing failed: " ++ message err)))
  | Ok [] =>
      let r := empty_results e o in
      (w, Ok (mkResults (r_sessionId r) 0 0 0 0 0 [] (r_dryRun r)
                        (Some (js "No processed notes found in inbox"))))
  | Ok inboxNotes =>
      let '(w', r) :=
        fold_left (file_step e (file_options_of e o))
                  (slice_to inboxNotes (effective_limit o))
                  (w, empty_results e o) in
      (w', Ok r)
  end.

End Batch.
Export Batch.

(** ** vault-client.js: notes as chunk documents *)

(** The note store one level below [Vault]: a note is a metadata document
    that lists the ids of its chunk documents, and a chunk is stored under
    an id derived from a hash of its data. *)
Module Chunked.

(** The default [chunkSize]. *)
Definition default_chunk_size : nat := 50 * 1000.

(** The loop of [_createChunks]: one slice of [chunkSize] units per round,
    for a positive [chunkSize]. The text left gets shorter in every round,
    so [fuel] = its length suffices. *)
Fixpoint slices (fuel chunkSize : nat) (content : jsstring) : list jsstring :=
  match fuel with
  | O => []
  | S fuel' =>
      match content with
      | [] => []
      | _ => take chunkSize content
               :: slices fuel' chunkSize (drop chunkSize content)
      end
  end.

(** [_createChunks(content, chunkSize)]. *)
Definition createChunks (content : jsstring) (chunkSize : nat) : list jsstring :=
  match slices (length content) chunkSize content with
  | [] => [[]]
  | chunks => chunks
  end.

(** A document of the database: a chunk ([type: 'leaf']) or the metadata
    of a note. *)
Inductive document :=
| Leaf (data : jsstring)
| Meta (children : list jsstring) (doc_path : jsstring)
       (deleted encrypted : bool).

Section Hashed.

(** The first twelve hexadecimal digits of the SHA-256 digest. *)
Variable digest : jsstring -> jsstring.

(** [_createChunkId(data)]. *)
Definition createChunkId (data : jsstring) : jsstring :=
  js "h:" ++ digest data.

(** The chunk loop of [writeNote]: a chunk is inserted only when no
    document has its id. *)
Definition store_chunk (db : gmap jsstring document) (data : jsstring)
  : gmap jsstring document :=
  match db !! createChunkId data with
  | None => <[createChunkId data := Leaf data]> db
  | Some _ => db
  end.

(** [writeNote(path, content)] on chunk documents. *)
Definition writeNote (db : gmap jsstring document) (path content : jsstring)
  : gmap jsstring document :=
  let safeContent := sanitizeUnicode content in
  let chunks := createChunks safeContent default_chunk_size in
  let db1 := fold_left store_chunk chunks db in
  <[pathToId path := Meta (List.map createChunkId chunks) path false false]> db1.

(** [chunk.data || ''] for the document found under a chunk id. *)
Definition chunk_data (d : document) : jsstring :=
  match d with
  | Leaf data => data
  | Meta _ _ _ _ => []
  end.

(** The documents under the ids of [children], or [None] when one of
    them is missing. *)
Fixpoint fetch (db : gmap jsstring document) (children : list jsstring)
  : option (list document) :=
  match children with
  | [] => Some []
  | id :: rest =>
      d ← db !! id; ds ← fetch db rest; Some (d :: ds)
  end.

(** [readNote(path)] on chunk documents. A missing chunk is a 404 of the
    driver like a missing note, and gives [null] as well; a chunk document
    under the id of the path has no [children] to map over. *)
Definition readNote (db : gmap jsstring document) (path : jsstring)
  : result (option note_file) :=
  match db !! pathToId path with
  | None => Ok None
  | Some (Leaf _) =>
      Throw (Error (js "Cannot read properties of undefined (reading 'map')"))
  | Some (Meta children p _ encrypted) =>
      if encrypted
      then Throw (Error (js "Note is encrypted - E2EE must be disabled"))
      else match fetch db children with
           | None => Ok None
           | Some chunks =>
               Ok (Some (mkNoteFile p (concat (List.map chunk_data chunks))))
           end
  end.

End Hashed.

End Chunked.

(** ** telegram-filer.js *)

Module Telegram.

(** The value of a digit in a radix up to 16, as [parseInt] reads it. *)
Definition digit_value (radix : Z) (c : N) : option Z :=
  let v :=
    if is_digit c then Some (Z.of_N c - 48)%Z
    else if (97 <=? c)%N && (c <=? 102)%N then Some (Z.of_N c - 87)%Z
    else if (65 <=? c)%N && (c <=? 70)%N then Some (Z.of_N c - 55)%Z
    else None in
  match v with
  | Some d => if (d <? radix)%Z then Some d else None
  | None => None
  end.

(** The values of the longest prefix of digits. *)
Fixpoint span_radix (radix : Z) (s : jsstring) : list Z :=
  match s with
  | c :: s' =>
      match digit_value radix c with
      | Some d => d :: span_radix radix s'
      | None => []
      end
  | [] => []
  end.

(** [parseInt(s)] without a radix: leading white space and a sign are
    skipped, the prefix [0x] selects radix 16, and the longest prefix of
    digits is converted; [NaN] when there is none. *)
Definition parseInt (s : jsstring) : jsnum :=
  let '(negative, body) := take_sign (trimStart s) in
  let '(radix, digits) :=
    if startsWith body (js "0x") || startsWith body (js "0X")
    then (16%Z, drop 2 body) else (10%Z, body) in
  match span_radix radix digits with
  | [] => NaN
  | ds =>
      let m := fold_left (fun acc d => (radix * acc + d)%Z) ds 0%Z in
      Fin (inject_Z (if negative then (- m)%Z else m))
  end.

(** [parseArgs(argsString)]: the words of the string, each a flag or a
    [key=value] pair; keys are put in lower case, and of a word with
    several [=] the text after the second one is dropped. *)
Definition parseArgs (argsString : jsstring) : jsobject :=
  fold_left
    (fun args part =>
       if str_eqb part [] then args
       else if includes part (js "=") then
         match split_on 61 part with
         | key :: value :: _ => put (toLowerCase key) (VStr value) args
         | _ => args
         end
       else put (toLowerCase part) (VBool true) args)
    (split_ws (trim argsString)) [].

(** [args.k] for the names the handler reads, none of which an object
    inherits. *)
Definition arg (args : jsobject) (k : jsstring) : jsval :=
  default VUndef (own k args).

(** [parseInt(args.limit) || 10]. *)
Definition requested_limit (args : jsobject) : jsnum :=
  let n := parseInt (toString (arg args (js "limit"))) in
  if num_truthy n then n else Fin (Qmake 10 1).

(** [args.confidence ? parseFloat(args.confidence) : 0.7]. *)
Definition requested_confidence (args : jsobject) : jsnum :=
  if truthy (arg args (js "confidence"))
  then parseFloat (toString (arg args (js "confidence")))
  else Fin (Qmake 7 10).

(** [args.dryrun === true || args.dryrun === 'true']. *)
Definition requested_dryRun (args : jsobject) : bool :=
  match arg args (js "dryrun") with
  | VBool b => b
  | VStr s => str_eqb s (js "true")
  | _ => false
  end.

(** The symbols of the replies, as UTF-16 code units. *)
Definition magnifier : jsstring := [0xD83D%N; 0xDD0D%N].
Definition chart : jsstring := [0xD83D%N; 0xDCCA%N].
Definition check_mark : jsstring := [0x2705%N].
Definition clipboard : jsstring := [0xD83D%N; 0xDCCB%N].
Definition next_track : jsstring := [0x23ED%N; 0xFE0F%N].
Definition cross_mark : jsstring := [0x274C%N].
Definition arrow : jsstring := [0x2192%N].
Definition bulb : jsstring := [0xD83D%N; 0xDCA1%N].
Definition back_arrow : jsstring := [0x21A9%N; 0xFE0F%N].

(** A counter as a template literal prints it. *)
Definition show_nat (n : nat) : jsstring := N_to_js (N.of_nat n).

(** An optional string as a template literal prints it. *)
Definition show_option (o : option jsstring) : jsstring :=
  match o with
  | Some s => s
  | None => js "undefined"
  end.

(** The line of [formatFilingResults] for one detail. *)
Definition detail_line (d : detail) : jsstring :=
  match d_action d with
  | Filed =>
      check_mark ++ js " " ++ d_path d ++ js " " ++ arrow ++ js " "
        ++ show_option (d_targetPath d)
  | Queued =>
      clipboard ++ js " " ++ d_path d ++ js " " ++ arrow
        ++ js " review queue (" ++ show_option (d_reason d) ++ js ")"
  | Skipped =>
      next_track ++ js " " ++ d_path d ++ js " ("
        ++ match d_reason d with
           | Some r => if str_eqb r [] then js "no changes" else r
           | None => js "no changes"
           end
        ++ js ")"
  | Failed =>
      cross_mark ++ js " " ++ d_path d ++ js ": " ++ show_option (d_error d)
  end.

(** [formatFilingResults(results)]. *)
Definition formatFilingResults (r : results) : jsstring :=
  JsString.join nl
    ((if r_dryRun r
      then [magnifier ++ js " **DRY RUN - Preview Mode**" ++ nl] else [])
     ++ [ chart ++ js " **Filing Results**";
          js "Session: `" ++ r_sessionId r ++ js "`";
          [];
          check_mark ++ js " Filed: " ++ show_nat (filed r);
          clipboard ++ js " Queued: " ++ show_nat (queued r);
          next_track ++ js " Skipped: " ++ show_nat (skipped r);
          cross_mark ++ js " Failed: " ++ show_nat (failed r) ]
     ++ match details r with
        | [] => []
        | ds =>
            [nl ++ js "**Details:**"]
              ++ List.map detail_line (take 10 ds)
              ++ (if (10 <? length ds)%nat
                  then [js "... and " ++ show_nat (length ds - 10) ++ js " more"]
                  else [])
        end
     ++ (if negb (r_dryRun r) && (0 <? filed r)%nat
         then [nl ++ bulb ++ js " To undo: `/undo " ++ r_sessionId r ++ js "`"]
         else [])).

Definition invalid_limit : jsstring :=
  cross_mark ++ js " Invalid limit. Must be between 1 and 100.".

Definition invalid_confidence : jsstring :=
  cross_mark ++ js " Invalid confidence. Must be between 0.0 and 1.0.".

(** [handleFileCommand(argsString)]: the stores after the call and the
    reply. *)
Definition handleFileCommand (e : env) (w : world) (argsString : jsstring)
  : world * jsstring :=
  let args := parseArgs argsString in
  let limit := requested_limit args in
  let minConfidence := requested_confidence args in
  let dryRun := requested_dryRun args in
  if num_ltb limit (Fin (Qmake 1 1)) || num_ltb (Fin (Qmake 100 1)) limit
  then (w, invalid_limit)
  else if num_ltb minConfidence (Fin (Qmake 0 1))
          || num_ltb (Fin (Qmake 1 1)) minConfidence
  then (w, invalid_confidence)
  else
    match fileNotes e w (mkOptions (Some limit) (Some minConfidence)
                                   (Some dryRun) None) with
    | (w', Ok results) => (w', formatFilingResults results)
    | (w', Throw err) =>
        (w', cross_mark ++ js " Filing failed: " ++ message err)
    end.

(** The line of [formatUndoResults] for one detail. *)
Definition undo_line (d : undo_detail) : jsstring :=
  match ud_status d with
  | Undone => check_mark ++ js " Restored: " ++ ud_path d
  | UndoFailed =>
      cross_mark ++ js " " ++ ud_path d ++ js ": " ++ show_option (ud_error d)
  end.

(** [formatUndoResults(results)]. *)
Definition formatUndoResults (r : undo_results) : jsstring :=
  JsString.join nl
    ([ back_arrow ++ js " **Undo Results**";
       js "Session: `" ++ ur_sessionId r ++ js "`";
       [];
       check_mark ++ js " Undone: " ++ show_nat (ur_undone r);
       cross_mark ++ js " Failed: " ++ show_nat (ur_failed r) ]
     ++ match ur_details r with
        | [] => []
        | ds =>
            [nl ++ js "**Details:**"]
              ++ List.map undo_line (take 10 ds)
              ++ (if (10 <? length ds)%nat
                  then [js "... and " ++ show_nat (length ds - 10) ++ js " more"]
                  else [])
        end).

Definition no_sessions : jsstring :=
  cross_mark ++ js " No filing sessions found to undo.".

(** The end of [handleUndoCommand], once the session id is known. *)
Definition undo_reply (e : env) (w : world) (sessionId : jsstring)
  : world * jsstring :=
  match undoLastFiling e w sessionId with
  | (w', Ok results) => (w', formatUndoResults results)
  | (w', Throw err) => (w', cross_mark ++ js " Undo failed: " ++ message err)
  end.

(** [handleUndoCommand(argsString)]: the stores after the call and the
    reply. Without an argument the most recent session that is not undone
    is taken. *)
Definition handleUndoCommand (e : env) (w : world) (argsString : jsstring)
  : world * jsstring :=
  match trim argsString with
  | [] =>
      match getRecentSessions (history w) 1 with
      | Throw err => (w, cross_mark ++ js " Undo failed: " ++ message err)
      | Ok [] => (w, no_sessions)
      | Ok (recent :: _) => undo_reply e w (rs_sessionId recent)
      end
  | sessionId => undo_reply e w sessionId
  end.

End Telegram.
Export Telegram.

(** ** learning.js: corrections *)

Module Correction.

(** [path.dirname(p)]: the path up to the slash before the last
    component, trailing slashes ignored; [.] or the root when there is no
    such slash. The first unit of the path is never taken for that
    slash. *)
Definition dirname (p : jsstring) : jsstring :=
  match p with
  | [] => [Path.dot]
  | c :: rest =>
      let top := if Path.is_slash c then [Path.slash] else [Path.dot] in
      match Path.span_until Path.slash (Path.drop_slashes (rev rest)) with
      | (_, []) => top
      | (_, _ :: []) => if Path.is_slash c then [Path.slash; Path.slash] else [c]
      | (_, _ :: before) => c :: rev before
      end
  end.

(** An entry of the corrections log. *)
Record correction := mkCorrection {
  c_timestamp : Z;
  c_originalFolder : jsstring;
  c_correctedFolder : jsstring;
  c_keywords : list jsstring;
  c_noteBasename : jsstring
}.

(** The learning data: the corrections log and the folder patterns. A
    file that lacks one of the two is read as if it were empty there. *)
Record learning_data := mkLearning {
  corrections : list correction;
  folderPatterns : patterns
}.

(** [loadLearningData()], corrections included. *)
Definition loadData (f : file learning_data) : result learning_data :=
  match f with
  | Missing => Ok (mkLearning [] [])
  | Unreadable e => Throw e
  | Stored d => Ok d
  end.

(** The learning file as [getFolderHints] reads it. *)
Definition patterns_of (f : file learning_data) : file patterns :=
  match f with
  | Missing => Missing
  | Unreadable e => Unreadable e
  | Stored d => Stored (folderPatterns d)
  end.

(** [pattern.count++] and the keyword loop of [updateFolderPatterns]. *)
Definition bump (p : pattern) (kws : list jsstring) : pattern :=
  mkPattern (num_add (count p) one)
            (fold_left (fun freq keyword => put keyword (next_count freq keyword) freq)
                       kws (keywords p)).

(** [updateFolderPatterns(data, folder, keywords)]. A folder whose name
    is that of an inherited property finds the prototype's value in place
    of a pattern: it has no [keywords], so the first keyword raises a
    TypeError. (The count the call leaves on that shared value is outside
    the learning data and is not modelled.) *)
Definition updateFolderPatterns (ps : patterns) (folder : jsstring)
           (kws : list jsstring) : result patterns :=
  match get folder ps with
  | Own p => Ok (put_own folder (bump p kws) ps)
  | Absent => Ok (put_own folder (bump (mkPattern (Fin 0) []) kws) ps)
  | Inherited =>
      match kws with
      | [] => Ok ps
      | keyword :: _ =>
          Throw (TypeError (js "Cannot read properties of undefined (reading '"
                            ++ keyword ++ js "')"))
      end
  end.

(** A number as [JSON.stringify] writes it and [JSON.parse] reads it
    back: what is no finite number becomes [null]. *)
Definition json_number (n : jsnum) : jsval :=
  match n with
  | Fin q => VNum (Fin q)
  | _ => VNull
  end.

(** [sanitizeObject] on a keyword table, followed by the round trip
    through the file: string values are sanitized, keys are not, and the
    table is rebuilt key by key. (The values of a table are the numbers
    and strings that [updateFolderPatterns] stores; a nested object, which
    only a file edited by hand can hold, is passed through.) *)
Definition sanitize_keywords (kws : list (jsstring * jsval))
  : list (jsstring * jsval) :=
  fold_left (fun acc kv =>
               put (fst kv)
                   (match snd kv with
                    | VStr s => VStr (sanitizeUnicode s)
                    | VArr items => VArr (List.map sanitizeUnicode items)
                    | VNum n => json_number n
                    | v => v
                    end) acc)
            (entries kws) [].

(** The same on the folder patterns. A count that is no finite number is
    written as [null], which counts as 0 wherever a count is read. *)
Definition sanitize_patterns (ps : patterns) : patterns :=
  fold_left (fun acc fp =>
               put (fst fp)
                   (mkPattern (match count (snd fp) with
                               | Fin q => Fin q
                               | _ => Fin 0
                               end)
                              (sanitize_keywords (keywords (snd fp)))) acc)
            (entries ps) [].

Definition sanitize_correction (c : correction) : correction :=
  mkCorrection (c_timestamp c)
               (sanitizeUnicode (c_originalFolder c))
               (sanitizeUnicode (c_correctedFolder c))
               (List.map sanitizeUnicode (c_keywords c))
               (sanitizeUnicode (c_noteBasename c)).

(** [saveLearningData(data)]: what the file holds afterwards. *)
Definition saveLearningData (d : learning_data) : file learning_data :=
  Stored (mkLearning (List.map sanitize_correction (corrections d))
                     (sanitize_patterns (folderPatterns d))).

(** [data.corrections.slice(-1000)] when the log has grown beyond 1000
    entries. *)
Definition cap (log : list correction) : list correction :=
  if (1000 <? length log)%nat then drop (length log - 1000) log else log.

(** [trackCorrection(originalPath, correctedPath, content)]: the learning
    file after the call. A move within one folder is not recorded. *)
Definition trackCorrection (e : env) (f : file learning_data)
           (originalPath correctedPath content : jsstring)
  : result (file learning_data) :=
  data ← loadData f;
  let originalFolder := dirname originalPath in
  let correctedFolder := dirname correctedPath in
  if str_eqb originalFolder correctedFolder then Ok f
  else
    let kws := extractKeywords content in
    let log :=
      corrections data
        ++ [mkCorrection (now e) originalFolder correctedFolder (take 10 kws)
                         (Path.basename correctedPath)] in
    ps ← updateFolderPatterns (folderPatterns data) correctedFolder kws;
    Ok (saveLearningData (mkLearning (cap log) ps)).

End Correction.

(** * Vocabulary of the properties *)

(** The [details] of a batch result, or the exception of the call. *)
Definition reported_details (r : result results) : result (list detail) :=
  match r with
  | Ok res => Ok (details res)
  | Throw err => Throw err
  end.

(** Two batch results that agree on everything but the session id. *)
Definition same_tallies (r r' : results) : Prop :=
  processed r = processed r' /\ filed r = filed r' /\ queued r = queued r'
  /\ skipped r = skipped r' /\ failed r = failed r'
  /\ details r = details r' /\ r_dryRun r = r_dryRun r'
  /\ r_message r = r_message r'.

(** The path a queued note is moved to. *)
Definition queue_path (n : note) : jsstring :=
  review_queue ++ Path.basename (path n).

(** The number of times [w] occurs among [ws]. *)
Definition occurrences (w : jsstring) (ws : list jsstring) : nat :=
  length (List.filter (str_eqb w) ws).

(** A note document is at the id of [p]. *)
Definition present (db : database) (p : jsstring) : Prop :=
  is_Some (db !! pathToId p).

(** The document a soft delete leaves behind. *)
Definition tombstone (d : doc) : doc :=
  mkDoc (doc_path d) [] true (doc_encrypted d).

(** The paths [resolveCollision] tries, in order: the target itself, then
    the target with suffix 1, 2, ... *)
Definition candidate (targetPath : jsstring) (k : N) : jsstring :=
  if (k =? 0)%N then targetPath else suffixed targetPath k.

(** A note can be read at [p]. *)
Definition occupied (db : database) (p : jsstring) : Prop :=
  exists f, readNote db p = Ok (Some f).

Definition too_many (targetPath : jsstring) : jserror :=
  Error (js "Too many collisions for " ++ targetPath).

(** What [fileNote] and [queueForReview] do once the target is known: write
    the new note, soft-delete the original, hand the operation to a
    detached call of [trackOperation]. The exception, if any, is the one of
    the delete. *)
Definition relocate (e : env) (w : world) (n : note) (sid act target upd : jsstring)
  : world * option jserror :=
  let db1 := writeNote (vault w) target upd in
  match deleteNote e db1 (path n) with
  | Throw err => (with_vault w db1, Some err)
  | Ok db2 =>
      (trackOperation_detached (with_vault w db2) sid
         (mkOperation act (path n) target (now e) (content n) upd), None)
  end.

(** [parseConfidence(suggestions.confidence)] for the suggestions of [n]. *)
Definition effectiveConfidence (n : note) : result jsnum :=
  v ← get_prop (default VUndef (field (js "ai_suggestions") (frontmatter n)))
               (js "confidence");
  parseConfidence v.

(** The confidence of [n] is a number below the threshold. *)
Definition low_confidence (n : note) (threshold : jsnum) : Prop :=
  exists c, effectiveConfidence n = Ok c /\ num_ltb c threshold = true.

(** The ways a call of [fileNote] can go: without effect (an exception
    before anything is written, or a dry run), or with the effect of
    [relocate] towards the review queue or towards a free target path. *)
Inductive file_effect (e : env) (w : world) (n : note) (o : file_options)
  : world -> result detail -> Prop :=
| effect_none (res : result detail) :
    (forall d, res = Ok d ->
               dryRun o = true /\ d_path d = path n
               /\ (low_confidence n (minConfidence o) /\ d_action d = Queued
                   /\ d_targetPath d = Some (queue_path n)
                   \/ ~ low_confidence n (minConfidence o) /\ d_action d = Filed)) ->
    (forall err, res = Throw err -> ~ low_confidence n (minConfidence o)) ->
    file_effect e w n o w res
| effect_queue (upd : jsstring) (w' : world) (res : result detail) :
    dryRun o = false ->
    low_confidence n (minConfidence o) ->
    fst (relocate e w n (sessionId o) (js "queue") (queue_path n) upd) = w' ->
    match res with
    | Ok d => snd (relocate e w n (sessionId o) (js "queue") (queue_path n) upd) = None
              /\ d_path d = path n /\ d_action d = Queued
              /\ d_targetPath d = Some (queue_path n)
    | Throw err =>
        snd (relocate e w n (sessionId o) (js "queue") (queue_path n) upd) = Some err
    end ->
    file_effect e w n o w' res
| effect_file (target upd : jsstring) (w' : world) (res : result detail) :
    dryRun o = false ->
    ~ low_confidence n (minConfidence o) ->
    vault w !! pathToId target = None ->
    fst (relocate e w n (sessionId o) (js "file") target upd) = w' ->
    match res with
    | Ok d => snd (relocate e w n (sessionId o) (js "file") target upd) = None
              /\ d_path d = path n /\ d_action d = Filed
              /\ d_targetPath d = Some target
    | Throw err =>
        snd (relocate e w n (sessionId o) (js "file") target upd) = Some err
    end ->
    file_effect e w n o w' res.

(** The number of details with action [a]. *)
Definition count_action (a : outcome) (ds : list detail) : nat :=
  length (List.filter (fun d => bool_decide (d_action d = a)) ds).

(** The counters of a batch result count its details. *)
Definition tallied (r : results) : Prop :=
  processed r = length (details r)
  /\ filed r = count_action Filed (details r)
  /\ queued r = count_action Queued (details r)
  /\ skipped r = count_action Skipped (details r)
  /\ failed r = count_action Failed (details r).

(** Every document sits at the id of its own path. *)
Definition vault_consistent (db : database) : Prop :=
  map_Forall (fun id d => pathToId (doc_path d) = id) db.

(** The store only grows: every document of [db] is still in [db']. *)
Definition grows (db db' : database) : Prop :=
  forall id, is_Some (db !! id) -> is_Some (db' !! id).

(** The suggestions of a note. *)
Definition suggestions_of (n : note) : jsval :=
  default VUndef (field (js "ai_suggestions") (frontmatter n)).

(** [hints.suggestedFolder || suggestions.folder] for the note [n]. *)
Definition target_folder (w : world) (n : note) : result jsval :=
  h ← getFolderHints (learning w) (body n);
  Ok (match suggestedFolder h with
      | Some f => if str_eqb f [] then prop (suggestions_of n) (js "folder")
                  else VStr f
      | None => prop (suggestions_of n) (js "folder")
      end).

Definition filed_detail (n : note) (fp : jsstring) : detail :=
  mkDetail (path n) Filed (Some fp) (tags_or_empty (suggestions_of n))
           (prop (suggestions_of n) (js "confidence")) None false None.

Definition ascii_text (s : jsstring) : Prop :=
  Forall (fun c => is_ascii_unit c = true) s.

(** The operations of the detached calls, oldest first. *)
Definition pending_ops (w : world) : list operation :=
  List.map snd (detached w).

(** Every detached call is for the session [sid]. *)
Definition pending_for (sid : jsstring) (w : world) : Prop :=
  Forall (fun call => fst call = sid) (detached w).

(** Fewer than a hundred sessions of [h] started at the time [t] or
    later: a session that starts at [t] is then among the hundred most
    recent ones. *)
Definition room_since (t : Z) (h : sessions) : Prop :=
  (length (List.filter (fun kv => (t <=? startTime (snd kv))%Z) h) < 100)%nat.

(** An operation whose two paths are in the store and away from the id [O]. *)
Definition op_clear (db : database) (O : jsstring) (op : operation) : Prop :=
  present db (originalPath op) /\ present db (targetPath op)
  /\ pathToId (originalPath op) <> O /\ pathToId (targetPath op) <> O.

(** The state of a batch before it reaches the note at id [O]: the store
    has grown from [db0], the detached calls are for the session [sid],
    and none of their operations touches [O]. *)
Definition before_note (sid O : jsstring) (db0 : database) (w : world) : Prop :=
  grows db0 (vault w) /\ pending_for sid w
  /\ Forall (op_clear (vault w) O) (pending_ops w).

(** The state of a batch after an operation was handed to a detached
    call: the operations of the detached calls still start with [base]. *)
Definition after_note (sid : jsstring) (base : list operation) (db : database)
           (w : world) : Prop :=
  grows db (vault w) /\ pending_for sid w
  /\ exists more, pending_ops w = base ++ more.

(** The two stores list the same notes. *)
Definition same_listing (db db' : database) : Prop :=
  forall q, q ∈ listNotes db' <-> q ∈ listNotes db.

(** The number of undo details with the status [s]. *)
Definition count_status (s : undo_status) (ds : list undo_detail) : nat :=
  length (List.filter (fun d => match ud_status d, s with
                                | Undone, Undone | UndoFailed, UndoFailed => true
                                | _, _ => false
                                end) ds).

(** An object holds one value per key. *)
Definition one_value_per_key {A} (o : list (jsstring * A)) : Prop :=
  NoDup (List.map fst o).

(** What [getRecentSessions] reports of a session. *)
Definition summary (kv : jsstring * session) : recent_session :=
  mkRecent (fst kv) (startTime (snd kv)) (length (operations (snd kv)))
           (List.map action (operations (snd kv))).

(** The frequency [k] as [extractKeywords] holds it. *)
Definition count_of (k : nat) : jsval := VNum (Fin (inject_Z (Z.of_nat k))).

(** The frequency an entry holds when it is a number, 0 otherwise. *)
Definition frequency (kv : jsstring * jsval) : Z :=
  match snd kv with
  | VNum (Fin q) => Qnum q
  | _ => 0%Z
  end.

(** The sessions of a history that are not marked as undone. *)
Definition open_sessions (h : sessions) : sessions :=
  List.filter (fun kv => negb (undone (snd kv))) (entries h).

(** A front-matter key that is written and read back as it is: word
    units and dashes, neither an array index (which an object lists
    first) nor [__proto__] (which an assignment does not store). *)
Definition plain_key (k : jsstring) : bool :=
  negb (str_eqb k []) && forallb is_key_unit k
  && negb (str_eqb k (js "__proto__"))
  && negb (bool_decide (is_Some (array_index k))).

(** Text that [_parseYamlValue] reads as the string it is: trimmed, on one
    line, and neither a boolean, a number, an array nor quoted. *)
Definition plain_text (s : jsstring) : bool :=
  str_eqb (trim s) s && negb (existsb is_line_terminator s)
  && negb (str_eqb s (js "true")) && negb (str_eqb s (js "false"))
  && negb (is_integer_text s) && negb (is_decimal_text s)
  && negb (startsWith s (js "[") && endsWith s (js "]"))
  && negb (quoted 34 s) && negb (startsWith s [39%N]).

(** A boolean or a plain string. *)
Definition scalar (v : jsval) : bool :=
  match v with
  | VBool _ => true
  | VStr s => plain_text s
  | _ => false
  end.

(** The line [buildNote] writes for a top-level scalar field. *)
Definition field_line (kv : jsstring * jsval) : jsstring :=
  fst kv ++ js ": " ++ toString (snd kv).

(** One of the two texts is a prefix of the other. *)
Definition overlap (x p : jsstring) : bool := startsWith x p || startsWith p x.

(** No occurrence of [p] can begin inside [x], whatever follows [x]. *)
Definition no_overlap (x p : jsstring) : bool :=
  forallb (fun i => negb (overlap (drop i x) p)) (seq 0 (length x)).

(** * Sample data *)

Definition five : jsnum := Fin (Qmake 5 1).

Definition zero : jsnum := Fin (Qmake 0 1).

Definition sample_env : env :=
  mkEnv 1770000000000 (js "2026-02-02T02:40:00.000Z") (js "a1b2c3d4")
        (js "inbox/") (js "missing").

Definition later_env : env :=
  mkEnv 1770000600000 (js "2026-02-02T02:50:00.000Z") (js "0f0f0f0f")
        (js "inbox/") (js "missing").

(** A configuration whose inbox is [captures/]. *)
Definition captures_env : env :=
  mkEnv 1770000000000 (js "2026-02-02T02:40:00.000Z") (js "a1b2c3d4")
        (js "captures/") (js "missing").

(** The low-confidence note of the test suite. *)
Definition low_note : jsstring :=
  JsString.join nl
    [ js "---"; js "ai_suggestions:"; js "  folder: uncertain-folder";
      js "  confidence: low"; js "---"; js ""; js "# Low Confidence Note"; js "" ].

(** A note for [folder] with confidence [high]. *)
Definition high_note (folder text : jsstring) : jsstring :=
  JsString.join nl
    [ js "---"; js "ai_suggestions:"; js "  folder: " ++ folder;
      js "  confidence: high"; js "---"; js ""; text; js "" ].

Definition store_of (notes : list (jsstring * jsstring)) : database :=
  fold_left (fun db pc => writeNote db (fst pc) (snd pc)) notes ∅.

Definition world_of (notes : list (jsstring * jsstring)) : world :=
  mkWorld (store_of notes) Missing Missing [].

Definition no_options : options := mkOptions None None None None.
Definition dry_options : options := mkOptions None None (Some true) None.

Definition inbox_world : world :=
  world_of [ (js "inbox/Test-Note.md", sample_note);
             (js "inbox/low-confidence-test.md", low_note) ].

Definition captures_world : world :=
  world_of [ (js "captures/idea.md", low_note) ].

Definition first_session : jsstring := js "filer-1770000000000-a1b2c3d4".

(** The sample inbox after one filing run, once the ledger writes that the
    run started have completed. *)
Definition filed_world : world :=
  fst (settle sample_env (fst (fileNotes sample_env inbox_world no_options))).

(** The same after the undo of that run. *)
Definition undone_world : world :=
  fst (undoLastFiling later_env filed_world first_session).

(** The same, after the restored note has been edited by hand. *)
Definition edited_world : world :=
  with_vault undone_world
    (writeNote (vault undone_world) (js "inbox/Test-Note.md")
               (js "rewritten by hand")).

(** The note as [getProcessedInboxNotes] reads it from [text] at [p]. *)
Definition note_of (p text : jsstring) : note :=
  match parseFrontmatter text with
  | Ok (fm, body) => mkNote p fm body text
  | Throw _ => mkNote p [] text text
  end.

Definition test_note : note := note_of (js "inbox/Test-Note.md") sample_note.

(** A note with an accented letter, as the editor stores it. *)
Definition accented_note : jsstring :=
  high_note (js "projects") (js "Caf" ++ [233%N] ++ js " notes").

Definition accented_world : world :=
  mkWorld (<[js "inbox/cafe.md" := mkDoc (js "inbox/cafe.md") accented_note false false]> ∅)
          Missing Missing [].

Definition low_parsed : note :=
  note_of (js "inbox/low-confidence-test.md") low_note.

Definition first_name : note :=
  note_of (js "inbox/a/name.md") (high_note (js "projects") (js "first")).
Definition second_name : note :=
  note_of (js "inbox/b/name.md") (high_note (js "projects") (js "second")).

Definition names_world : world :=
  world_of [ (js "inbox/a/name.md", high_note (js "projects") (js "first"));
             (js "inbox/b/name.md", high_note (js "projects") (js "second")) ].

(** A store where a name and the name with suffix 1 are taken. *)
Definition taken_store : database :=
  store_of [ (js "projects/name.md", js "first");
             (js "projects/name-1.md", js "second") ].

(** An operation whose target is not in the store. *)
Definition stale_operation : operation :=
  mkOperation (js "file") (js "inbox/a.md") (js "projects/a.md") 0
              (js "original") (js "filed").

(** An inbox with an encrypted note. *)
Definition encrypted_world : world :=
  mkWorld (<[js "inbox/secret.md" := mkDoc (js "inbox/secret.md") (js "x") false true]> ∅)
          Missing Missing [].

(** A note with a value in single quotes. *)
Definition quoted_note : jsstring :=
  JsString.join nl
    [ js "---"; js "title: 'Meeting notes'"; js "ai_suggestions:";
      js "  folder: projects"; js "  confidence: high"; js "---"; js "text" ].

Definition quoted_world : world :=
  world_of [ (js "inbox/Test-Note.md", sample_note);
             (js "inbox/quoted.md", quoted_note) ].

(** The correction of the test suite. *)
Definition corrected_text : jsstring :=
  js "This is a note about machine learning and artificial intelligence.".

(** Learning data with one folder. *)
Definition one_folder : file patterns :=
  Stored [ (js "projects/ai",
            mkPattern one [ (js "machine", VNum one); (js "learning", VNum one) ]) ].

(** The front matter that queueing adds. *)
Definition review_marks : jsobject :=
  [ (js "review_needed", VBool true);
    (js "queued_at", VStr (js "2026-02-02T02:40:00.000Z")) ].

(** A history of a hundred sessions, all started after the time of
    [sample_env]. *)
Definition later_sessions : sessions :=
  List.map (fun i => (js "later-" ++ N_to_js (N.of_nat i),
                      mkSession (now sample_env + 1 + Z.of_nat i) [] false None))
           (seq 0 100).

(** The sample inbox beside that history. *)
Definition crowded_world : world :=
  mkWorld (vault inbox_world) (Stored later_sessions) Missing [].

(** A note with high confidence whose suggestions name no folder. *)
Definition folderless_note : jsstring :=
  JsString.join nl
    [ js "---"; js "ai_suggestions:"; js "  confidence: high"; js "---";
      js ""; js "# No folder"; js "" ].

(** An inbox where that note comes before one that can be filed. *)
Definition folderless_world : world :=
  world_of [ (js "inbox/a-folderless.md", folderless_note);
             (js "inbox/b-plain.md", high_note (js "projects") (js "plain")) ].

Definition folderless : note :=
  note_of (js "inbox/a-folderless.md") folderless_note.

(** * Properties *)

(** ** Checks of the model on small inputs *)

Example parseFloat_075 : parseFloat (js "0.75") = Fin (Qmake 3 4).
Proof. reflexivity. Qed.

Example parseFloat_exp : parseFloat (js "  -12.5e-1xyz") = Fin (Qmake (-5) 4).
Proof. reflexivity. Qed.

Example parseFloat_banana : parseFloat (js "banana") = NaN.
Proof. reflexivity. Qed.

Example parseFloat_dot : parseFloat (js ".") = NaN.
Proof. reflexivity. Qed.

Example parseFloat_1e : parseFloat (js "1e") = Fin (Qmake 1 1).
Proof. reflexivity. Qed.

Example parseConfidence_high : parseConfidence (VStr (js "high")) = Ok (Fin nine_tenths).
Proof. reflexivity. Qed.
Example parseConfidence_num_string :
  parseConfidence (VStr (js "0.75")) = Ok (Fin (Qmake 3 4)).
Proof. reflexivity. Qed.
Example parseConfidence_banana :
  parseConfidence (VStr (js "banana")) = Ok (Fin one_half).
Proof. reflexivity. Qed.
Example numToString_ex : numToString (Fin (Qmake (-5) 4)) = js "-1.25".
Proof. reflexivity. Qed.
Example numToString_int : numToString (Fin (Qmake 1200 1)) = js "1200".
Proof. reflexivity. Qed.

Example sanitize_done :
  sanitizeUnicode (js "ok " ++ [0x2705%N] ++ js " " ++ [0xD83C%N; 0xDFAF%N; 0xE9%N])
  = js "ok [DONE] [TARGET]".
Proof. reflexivity. Qed.

Example basename_ex : Path.basename (js "inbox/sub/note.md") = js "note.md".
Proof. reflexivity. Qed.
Example join_ex : Path.join2 (js "projects/ai/") (js "note.md") = js "projects/ai/note.md".
Proof. reflexivity. Qed.
Example join_dots : Path.join2 (js "a/../../b/./c") (js "n.md") = js "../b/c/n.md".
Proof. reflexivity. Qed.
Example parse_ex :
  Path.parse (js "projects/ai/note.tar.md")
  = Path.mkParsed (js "projects/ai") (js "note.tar") (js ".md").
Proof. reflexivity. Qed.
Example parse_hidden : Path.parse (js "/.bashrc") = Path.mkParsed (js "/") (js ".bashrc") [].
Proof. reflexivity. Qed.
Example parse_dotdot : Path.parse (js "a/..") = Path.mkParsed (js "a") (js "..") [].
Proof. reflexivity. Qed.

Example entries_order :
  List.map fst (entries [(js "beta", 1); (js "20", 2); (js "alpha", 3); (js "7", 4); (js "07", 5)])
  = [js "7"; js "20"; js "beta"; js "alpha"; js "07"].
Proof. reflexivity. Qed.

Example parse_sample :
  parseFrontmatter sample_note
  = Ok ([ (js "created", VStr (js "2026-02-10"));
          (js "processed", VBool true);
          (js "ai_suggestions",
            VObj [ (js "folder", VStr (js "projects/ai"));
                   (js "tags", VArr [js "machine-learning"; js "testing"]);
                   (js "related", VArr [js "projects/ai/neural-nets.md"]);
                   (js "summary", VStr (js "Test note for filing"));
                   (js "confidence", VStr (js "high")) ]) ],
        JsString.join nl [js ""; js "# Test Filing Note"; js ""]).
Proof. vm_compute. reflexivity. Qed.

Example build_parse_sample :
  (r ← parseFrontmatter sample_note; Ok (buildNote (fst r) (snd r))) = Ok sample_note.
Proof. vm_compute. reflexivity. Qed.

Example keywords_ex :
  extractKeywords (js "This is a note about Machine learning and machine Vision (vision) of machine")
  = [js "machine"; js "vision"; js "note"; js "learning"].
Proof. vm_compute. reflexivity. Qed.

Example keywords_frontmatter :
  extractKeywords (js "--- tags: alpha ---" ++ nl ++ js "# Gamma *gamma* beta")
  = [js "gamma"; js "beta"].
Proof. vm_compute. reflexivity. Qed.

(** ** Strings *)

Lemma str_eqb_eq (a b : jsstring) : str_eqb a b = true <-> a = b.
Proof. unfold str_eqb. apply bool_decide_eq_true. Qed.

Lemma str_eqb_refl (a : jsstring) : str_eqb a a = true.
Proof. by apply str_eqb_eq. Qed.

Lemma str_eqb_neq (a b : jsstring) : str_eqb a b = false <-> a <> b.
Proof. unfold str_eqb. apply bool_decide_eq_false. Qed.

(** ** parseConfidence *)

Section ParseConfidence.

Let label (s : jsstring) : Prop :=
  toLowerCase s = js "high" \/ toLowerCase s = js "medium"
  \/ toLowerCase s = js "low".

Lemma parseConfidence_string (s : jsstring) :
  parseConfidence (VStr s) =
    let level := toLowerCase s in
    if str_eqb level (js "high") then Ok (Fin nine_tenths)
    else if str_eqb level (js "medium") then Ok (Fin six_tenths)
    else if str_eqb level (js "low") then Ok (Fin three_tenths)
    else match parseFloat s with
         | NaN => Ok (Fin one_half)
         | parsed => Ok parsed
         end.
Proof. destruct s; reflexivity. Qed.

Lemma parseConfidence_label (s : jsstring) :
  (toLowerCase s = js "high" -> parseConfidence (VStr s) = Ok (Fin nine_tenths))
  /\ (toLowerCase s = js "medium" -> parseConfidence (VStr s) = Ok (Fin six_tenths))
  /\ (toLowerCase s = js "low" -> parseConfidence (VStr s) = Ok (Fin three_tenths)).
Proof.
  rewrite parseConfidence_string. cbv zeta.
  repeat split; intros ->; reflexivity.
Qed.

Lemma parseConfidence_other_string (s : jsstring) :
  ~ label s ->
  parseConfidence (VStr s)
  = Ok (match parseFloat s with NaN => Fin one_half | parsed => parsed end).
Proof.
  intros Hl. rewrite parseConfidence_string. cbv zeta.
  destruct (str_eqb _ (js "high")) eqn:E1.
  { exfalso. apply Hl. left. by apply str_eqb_eq. }
  destruct (str_eqb _ (js "medium")) eqn:E2.
  { exfalso. apply Hl. right. left. by apply str_eqb_eq. }
  destruct (str_eqb _ (js "low")) eqn:E3.
  { exfalso. apply Hl. right. right. by apply str_eqb_eq. }
  by destruct (parseFloat s).
Qed.

Lemma parseConfidence_string_range (s : jsstring) (n : jsnum) :
  parseConfidence (VStr s) = Ok n ->
  parseFloat s = NaN \/ in_unit_interval (parseFloat s) = true ->
  in_unit_interval n = true.
Proof.
  rewrite parseConfidence_string. cbv zeta.
  repeat (case_match; [intros [= <-] _; reflexivity |]).
  intros Hn [Hp | Hp].
  - rewrite Hp in Hn. by injection Hn as <-.
  - destruct (parseFloat s) eqn:E; injection Hn as <-; done.
Qed.

(** C2 (as amended). [parseConfidence] returns 0.9, 0.6 and 0.3 for a
    string that reads high, medium or low in any letter case; returns a
    number as it is; returns for any other string the number [parseFloat]
    reads from it, and 0.5 when it reads none; and returns 0.5 for
    [undefined], [null], [false] and the empty string. The result lies
    between 0 and 1 whenever a number passed in does and a number read
    from a string does. *)
Theorem parseConfidence_mapping :
  (forall s, toLowerCase s = js "high" ->
             parseConfidence (VStr s) = Ok (Fin nine_tenths))
  /\ (forall s, toLowerCase s = js "medium" ->
                parseConfidence (VStr s) = Ok (Fin six_tenths))
  /\ (forall s, toLowerCase s = js "low" ->
                parseConfidence (VStr s) = Ok (Fin three_tenths))
  /\ (forall n, parseConfidence (VNum n) = Ok n)
  /\ (forall s, ~ label s ->
                parseConfidence (VStr s)
                = Ok (match parseFloat s with
                      | NaN => Fin one_half
                      | parsed => parsed
                      end))
  /\ parseConfidence VUndef = Ok (Fin one_half)
  /\ parseConfidence VNull = Ok (Fin one_half)
  /\ parseConfidence (VBool false) = Ok (Fin one_half)
  /\ (forall v n,
         parseConfidence v = Ok n ->
         (forall m, v = VNum m -> in_unit_interval m = true) ->
         (forall s, v = VStr s ->
                    parseFloat s = NaN \/ in_unit_interval (parseFloat s) = true) ->
         in_unit_interval n = true).
Proof.
  split; [intros s; apply (parseConfidence_label s)|].
  split; [intros s; apply (parseConfidence_label s)|].
  split; [intros s; apply (parseConfidence_label s)|].
  split; [reflexivity|].
  split; [apply parseConfidence_other_string|].
  do 3 (split; [reflexivity|]).
  intros v n Hv Hnum Hstr. destruct v as [| |b|m|s|items|fields].
  - by injection Hv as <-.
  - by injection Hv as <-.
  - destruct b; [discriminate|]. by injection Hv as <-.
  - injection Hv as <-. by apply Hnum.
  - eapply parseConfidence_string_range; eauto.
  - discriminate.
  - discriminate.
Qed.

End ParseConfidence.

(** The statement of C2 fails on the number 5 (a front-matter line
    [confidence: 5]): it is passed through and lies outside the unit
    interval. A value [true] makes the call raise. *)
Lemma parseConfidence_not_always_in_unit_interval :
  parseConfidence (VNum five) = Ok five
  /\ in_unit_interval five = false
  /\ parseConfidence (VStr (js "85")) = Ok (Fin (Qmake 85 1))
  /\ in_unit_interval (Fin (Qmake 85 1)) = false
  /\ parseConfidence (VBool true)
     = Throw (Error (js "(confidence || '').toLowerCase is not a function")).
Proof. repeat split. Qed.

Lemma parseConfidence_mapping_witness :
  parseConfidence (VStr (js "High")) = Ok (Fin nine_tenths)
  /\ parseConfidence (VStr (js "MEDIUM")) = Ok (Fin six_tenths)
  /\ parseConfidence (VStr (js "low")) = Ok (Fin three_tenths)
  /\ parseConfidence (VStr (js "banana")) = Ok (Fin one_half)
  /\ in_unit_interval (Fin (Qmake 3 4)) = true.
Proof.
  destruct parseConfidence_mapping as (Hh & Hm & Hl & _ & Ho & _ & _ & _ & Hr).
  split; [apply Hh; reflexivity|].
  split; [apply Hm; reflexivity|].
  split; [apply Hl; reflexivity|].
  split.
  - rewrite (Ho (js "banana")); [reflexivity|].
    intros [H | [H | H]]; discriminate H.
  - apply (Hr (VStr (js "0.75"))).
    + reflexivity.
    + intros m H; discriminate H.
    + intros s [= <-]. right. reflexivity.
Defined.

(** ** fileNotes: defaults of the options *)

Lemma num_or_truthy (x : option jsnum) (d : jsnum) :
  num_truthy d = true -> num_truthy (num_or x d) = true.
Proof.
  intros Hd. destruct x as [n|]; simpl; [|done].
  by destruct (num_truthy n) eqn:E.
Qed.

(** C10. At [fileNotes] an explicit zero is the same as an absent option:
    [minConfidence = 0] gives the threshold 0.7 and [limit = 0] gives the
    limit 10, the whole call behaving as if the option were not there; and
    whatever the options, the threshold and the limit in force are never
    zero. *)
Theorem fileNotes_zero_option_is_default
        (e : env) (w : world) (l mc : option jsnum) (dr : option bool)
        (sid : option jsstring) :
  effective_minConfidence (mkOptions l (Some zero) dr sid) = Fin (Qmake 7 10)
  /\ effective_limit (mkOptions (Some zero) mc dr sid) = Fin (Qmake 10 1)
  /\ fileNotes e w (mkOptions l (Some zero) dr sid)
     = fileNotes e w (mkOptions l None dr sid)
  /\ fileNotes e w (mkOptions (Some zero) mc dr sid)
     = fileNotes e w (mkOptions None mc dr sid)
  /\ num_truthy (effective_minConfidence (mkOptions l mc dr sid)) = true
  /\ num_truthy (effective_limit (mkOptions l mc dr sid)) = true.
Proof.
  repeat split; by apply num_or_truthy.
Qed.

(** ** Dry runs *)

Lemma buildUpdatedNote_outcome (e e' : env) (n : note) (sg : jsval) :
  match buildUpdatedNote e n sg, buildUpdatedNote e' n sg with
  | Ok _, Ok _ => True
  | Throw a, Throw b => a = b
  | _, _ => False
  end.
Proof.
  unfold buildUpdatedNote.
  destruct (non_empty (prop sg (js "related"))); [|done].
  by destruct (prop sg (js "related")).
Qed.

Lemma queueForReview_dry (e : env) (w : world) (n : note) (sid : jsstring) :
  queueForReview e w n true sid
  = (w, Ok (mkDetail (path n) Queued
                     (Some (review_queue ++ Path.basename (path n)))
                     VUndef VUndef (Some (js "Low confidence")) true None)).
Proof. reflexivity. Qed.

Lemma fileNote_dry_world (e : env) (w : world) (n : note) (o : file_options) :
  dryRun o = true -> fst (fileNote e w n o) = w.
Proof.
  intros Hd. unfold fileNote. rewrite Hd.
  repeat (case_match; simpl; try done).
Qed.

Lemma fileNote_dry_report (e e' : env) (w : world) (n : note)
      (o o' : file_options) :
  dryRun o = true -> dryRun o' = true ->
  minConfidence o = minConfidence o' ->
  snd (fileNote e w n o) = snd (fileNote e' w n o').
Proof.
  intros Hd Hd' Hm. unfold fileNote. rewrite Hd, Hd', <- Hm.
  destruct (c ← get_prop _ _; parseConfidence c) as [c|err]; [|done].
  destruct (num_ltb c (minConfidence o)); [by rewrite !queueForReview_dry|].
  unfold mbind, result_bind.
  destruct (getFolderHints _ _) as [h|err]; [|done].
  match goal with |- context [match ?t with VStr f => _ | _ => _ end] =>
    destruct t end; try done.
  destruct (resolveCollision _ _ _) as [fp|err]; [|done].
  pose proof (buildUpdatedNote_outcome e e' n
    (default VUndef (field (js "ai_suggestions") (frontmatter n)))) as Hb.
  destruct (buildUpdatedNote e n _), (buildUpdatedNote e' n _);
    simpl; try done. by subst.
Qed.

Lemma file_step_dry (e e' : env) (o o' : file_options) (w : world)
      (r r' : results) (n : note) :
  dryRun o = true -> dryRun o' = true ->
  minConfidence o = minConfidence o' ->
  same_tallies r r' ->
  exists r1 r1',
    file_step e o (w, r) n = (w, r1)
    /\ file_step e' o' (w, r') n = (w, r1')
    /\ same_tallies r1 r1'.
Proof.
  intros Hd Hd' Hm (H1 & H2 & H3 & H4 & H5 & H6 & H7 & H8).
  pose proof (fileNote_dry_world e w n o Hd) as Hw.
  pose proof (fileNote_dry_world e' w n o' Hd') as Hw'.
  pose proof (fileNote_dry_report e e' w n o o' Hd Hd' Hm) as Hr.
  unfold file_step.
  destruct (fileNote e w n o) as [w1 res], (fileNote e' w n o') as [w1' res'].
  simpl in *. subst w1 w1' res'.
  destruct res as [d|err]; eexists _, _; (split; [reflexivity|]);
    (split; [reflexivity|]); unfold same_tallies; simpl;
    rewrite H1, H2, H3, H4, H5, H6, H7, H8; done.
Qed.

Lemma fold_file_step_dry (e e' : env) (o o' : file_options)
      (notes : list note) (w : world) (r r' : results) :
  dryRun o = true -> dryRun o' = true ->
  minConfidence o = minConfidence o' ->
  same_tallies r r' ->
  exists r1 r1',
    fold_left (file_step e o) notes (w, r) = (w, r1)
    /\ fold_left (file_step e' o') notes (w, r') = (w, r1')
    /\ same_tallies r1 r1'.
Proof.
  intros Hd Hd' Hm. revert r r'.
  induction notes as [|n notes IH]; intros r r' Hs.
  - by exists r, r'.
  - destruct (file_step_dry e e' o o' w r r' n Hd Hd' Hm Hs)
      as (r1 & r1' & E1 & E1' & Hs1).
    cbn [fold_left]. rewrite E1, E1'. by apply IH.
Qed.

(** C4. A [fileNotes] call with [dryRun: true] leaves the note store, the
    ledger and the learning data as they were, and a second dry run of the
    same batch (at another time, with another generated session id) reports
    the same [details]. *)
Theorem fileNotes_dry_run_idempotent (e e' : env) (w : world) (o : options) :
  opt_dryRun o = Some true ->
  config_inbox_path e' = config_inbox_path e ->
  let first := fileNotes e w o in
  let second := fileNotes e' (fst first) o in
  fst first = w
  /\ fst second = w
  /\ reported_details (snd second) = reported_details (snd first).
Proof.
  intros Hd Hc. cbv zeta.
  assert (Hi : getProcessedInboxNotes e' (vault w)
               = getProcessedInboxNotes e (vault w)).
  { unfold getProcessedInboxNotes, inboxPath. by rewrite Hc. }
  assert (H1 : exists res res',
             fileNotes e w o = (w, res) /\ fileNotes e' w o = (w, res')
             /\ reported_details res' = reported_details res).
  { unfold fileNotes. rewrite Hi.
    destruct (getProcessedInboxNotes e (vault w)) as [notes|err].
    - destruct notes as [|n notes]; [by eexists _, _|].
      destruct (fold_file_step_dry e e' (file_options_of e o)
                  (file_options_of e' o)
                  (slice_to (n :: notes) (effective_limit o)) w
                  (empty_results e o) (empty_results e' o))
        as (r1 & r1' & E1 & E1' & Hs).
      + unfold file_options_of; simpl. by rewrite Hd.
      + unfold file_options_of; simpl. by rewrite Hd.
      + reflexivity.
      + by repeat split.
      + rewrite E1, E1'. eexists _, _. repeat split.
        simpl. destruct Hs as (_ & _ & _ & _ & _ & -> & _). done.
    - by eexists _, _. }
  destruct H1 as (res & res' & E & E' & Hr).
  rewrite E. simpl. rewrite E'. simpl. done.
Qed.

(** ** Front-matter fields *)

Lemma field_set_field_eq (k : jsstring) (v : jsval) (o : jsobject) :
  field k (set_field k v o) = Some v.
Proof.
  induction o as [|[k' v'] o IH]; simpl.
  - by rewrite str_eqb_refl.
  - destruct (str_eqb k k') eqn:E; simpl; [by rewrite str_eqb_refl|].
    by rewrite E.
Qed.

Lemma field_set_field_ne (k k' : jsstring) (v : jsval) (o : jsobject) :
  k <> k' -> field k' (set_field k v o) = field k' o.
Proof.
  intros Hne. induction o as [|[k0 v0] o IH]; simpl.
  - destruct (str_eqb k' k) eqn:E; [|done].
    apply str_eqb_eq in E. congruence.
  - destruct (str_eqb k k0) eqn:E; simpl.
    + apply str_eqb_eq in E. subst k0.
      destruct (str_eqb k' k) eqn:E'; [|done].
      apply str_eqb_eq in E'. congruence.
    + by rewrite IH.
Qed.

(** ** The ledger leaves the note store alone *)

Lemma vault_trackOperation_detached (w : world) (sid : jsstring)
      (op : operation) :
  vault (trackOperation_detached w sid op) = vault w.
Proof. reflexivity. Qed.

Lemma learning_trackOperation_detached (w : world) (sid : jsstring)
      (op : operation) :
  learning (trackOperation_detached w sid op) = learning w.
Proof. reflexivity. Qed.

Lemma history_trackOperation_detached (w : world) (sid : jsstring)
      (op : operation) :
  history (trackOperation_detached w sid op) = history w.
Proof. reflexivity. Qed.

(** ** What a batch reports *)

(** A property of every detail that [fileNote] returns, and of every
    failure record, holds of all the details of a batch. *)
Lemma fold_file_step_details (P : detail -> Prop) (e : env) (o : file_options) :
  (forall w n d, snd (fileNote e w n o) = Ok d -> P d) ->
  (forall n err, P (failure n err)) ->
  forall notes w r,
    Forall P (details r) ->
    Forall P (details (snd (fold_left (file_step e o) notes (w, r)))).
Proof.
  intros Hok Hfail notes.
  induction notes as [|n notes IH]; intros w r Hr; [done|].
  cbn [fold_left]. unfold file_step at 2.
  destruct (fileNote e w n o) as [w1 res] eqn:E.
  apply IH. destruct res as [d|err]; simpl.
  - apply Forall_app. split; [done|]. constructor; [|done].
    apply (Hok w n). by rewrite E.
  - apply Forall_app. split; [done|]. by constructor.
Qed.

Lemma fileNotes_details (P : detail -> Prop) (e : env) (w : world) (o : options) :
  (forall w n d, snd (fileNote e w n (file_options_of e o)) = Ok d -> P d) ->
  (forall n err, P (failure n err)) ->
  forall w' r, fileNotes e w o = (w', Ok r) -> Forall P (details r).
Proof.
  intros Hok Hfail w' r. unfold fileNotes.
  destruct (getProcessedInboxNotes e (vault w)) as [notes|err]; [|done].
  destruct notes as [|n notes]; [by intros [= <- <-]|].
  pose proof (fold_file_step_details P e (file_options_of e o) Hok Hfail
                (slice_to (n :: notes) (effective_limit o)) w
                (empty_results e o)) as H.
  destruct (fold_left _ _ _) as [w1 r1]. intros [= <- <-].
  apply H. constructor.
Qed.

(** ** Queuing for review *)

Lemma fileNote_queued (e : env) (w w' : world) (n : note) (o : file_options)
      (d : detail) :
  fileNote e w n o = (w', Ok d) -> d_action d = Queued ->
  queueForReview e w n (dryRun o) (sessionId o) = (w', Ok d).
Proof.
  unfold fileNote.
  destruct (c ← get_prop _ _; parseConfidence c) as [c|err]; [|done].
  destruct (num_ltb c (minConfidence o)); [done|].
  destruct (_ ← getFolderHints _ _; _) as [[fp up]|err]; [|done].
  destruct (dryRun o); [by intros [= <- <-]|].
  destruct (deleteNote _ _ _); [|done]. by intros [= <- <-].
Qed.

Lemma queueForReview_report (e : env) (w w' : world) (n : note) (dry : bool)
      (sid : jsstring) (d : detail) :
  queueForReview e w n dry sid = (w', Ok d) ->
  d_path d = path n /\ d_action d = Queued
  /\ d_targetPath d = Some (queue_path n)
  /\ d_reason d = Some (js "Low confidence").
Proof.
  unfold queueForReview. destruct dry; [by intros [= <- <-]|].
  destruct (deleteNote _ _ _); [|done]. by intros [= <- <-].
Qed.

Lemma fileNote_path (e : env) (w w' : world) (n : note) (o : file_options)
      (d : detail) :
  fileNote e w n o = (w', Ok d) -> d_path d = path n.
Proof.
  unfold fileNote.
  destruct (c ← get_prop _ _; parseConfidence c) as [c|err]; [|done].
  destruct (num_ltb c (minConfidence o)).
  { intros H. by apply queueForReview_report in H as (? & _). }
  destruct (_ ← getFolderHints _ _; _) as [[fp up]|err]; [|done].
  destruct (dryRun o); [by intros [= <- <-]|].
  destruct (deleteNote _ _ _); [|done]. by intros [= <- <-].
Qed.

(** C8 (as amended). Every note that [fileNotes] queues for review goes to
    the fixed path [inbox/review-queue/] followed by the base name of its
    original path, whatever inbox path the configuration names, and its
    detail carries the reason [Low confidence]. When the run is not a dry
    run and the note is not itself at that path, the note written there is
    built from the original body and the original front-matter with
    [review_needed] set to [true] and [queued_at] set to the time of the
    call. *)
Theorem queued_note_goes_to_review_queue (e : env) (w : world) (o : options) :
  (forall w' r,
      fileNotes e w o = (w', Ok r) ->
      Forall (fun d =>
                d_action d = Queued ->
                d_targetPath d
                = Some (js "inbox/review-queue/" ++ Path.basename (d_path d))
                /\ d_reason d = Some (js "Low confidence"))
             (details r))
  /\ (forall w0 n w' d,
         fileNote e w0 n (file_options_of e o) = (w', Ok d) ->
         d_action d = Queued ->
         dryRun (file_options_of e o) = false ->
         pathToId (path n) <> pathToId (queue_path n) ->
         exists fm,
           vault w' !! pathToId (queue_path n)
           = Some (mkDoc (queue_path n)
                         (sanitizeUnicode (buildNote fm (body n))) false false)
           /\ field (js "review_needed") fm = Some (VBool true)
           /\ field (js "queued_at") fm = Some (VStr (now_iso e))
           /\ forall k, k <> js "review_needed" -> k <> js "queued_at" ->
                        field k fm = field k (frontmatter n)).
Proof.
  split.
  - intros w' r. apply fileNotes_details.
    + intros w0 n d Hd Hq.
      destruct (fileNote e w0 n (file_options_of e o)) as [w1 res] eqn:E.
      simpl in Hd. subst res.
      pose proof (fileNote_queued _ _ _ _ _ _ E Hq) as Hqr.
      apply queueForReview_report in Hqr as (Hp & _ & Ht & Hr).
      by rewrite Hp.
    + intros n err. discriminate.
  - intros w0 n w' d Hf Hq Hdry Hne.
    pose proof (fileNote_queued _ _ _ _ _ _ Hf Hq) as Hqr.
    rewrite Hdry in Hqr. unfold queueForReview in Hqr.
    fold (queue_path n) in Hqr.
    destruct (deleteNote _ _ _) as [db2|err] eqn:Edel; [|done].
    injection Hqr as <- _.
    rewrite ?vault_trackOperation_detached. simpl.
    unfold deleteNote in Edel.
    destruct (_ !! pathToId (path n)) as [d0|]; [|done].
    injection Edel as <-.
    rewrite lookup_insert_ne by done.
    unfold writeNote. rewrite lookup_insert_eq.
    eexists. split; [reflexivity|]. split; [|split].
    + rewrite field_set_field_ne by discriminate.
      apply field_set_field_eq.
    + apply field_set_field_eq.
    + intros k H1 H2. by rewrite !field_set_field_ne.
Qed.

(** ** Checks on the sample data *)

Lemma fileNotes_dry_run_idempotent_witness :
  fst (fileNotes sample_env inbox_world dry_options) = inbox_world
  /\ fst (fileNotes later_env
            (fst (fileNotes sample_env inbox_world dry_options)) dry_options)
     = inbox_world
  /\ reported_details
       (snd (fileNotes later_env
               (fst (fileNotes sample_env inbox_world dry_options)) dry_options))
     = reported_details (snd (fileNotes sample_env inbox_world dry_options)).
Proof.
  apply (fileNotes_dry_run_idempotent sample_env later_env inbox_world dry_options);
    reflexivity.
Defined.

(** The statement of C8 fails when the configured inbox is [captures/]: the
    queued note goes to [inbox/review-queue/], not to
    [captures/review-queue/]. *)
Lemma queue_path_ignores_configured_inbox :
  inboxPath captures_env = js "captures/"
  /\ exists w' r d,
      fileNotes captures_env captures_world no_options = (w', Ok r)
      /\ details r = [d]
      /\ d_path d = js "captures/idea.md"
      /\ d_action d = Queued
      /\ d_targetPath d = Some (js "inbox/review-queue/idea.md")
      /\ d_targetPath d
         <> Some (inboxPath captures_env ++ js "review-queue/"
                  ++ Path.basename (d_path d)).
Proof.
  split; [reflexivity|].
  destruct (fileNotes captures_env captures_world no_options) as [w' res] eqn:E.
  vm_compute in E. injection E as <- <-.
  eexists _, _, _. split; [reflexivity|]. split; [reflexivity|].
  repeat split. vm_compute. discriminate.
Qed.

Lemma queued_note_goes_to_review_queue_witness :
  exists fm,
    vault (fst (fileNote sample_env inbox_world low_parsed
                  (file_options_of sample_env no_options)))
      !! js "inbox/review-queue/low-confidence-test.md"
    = Some (mkDoc (js "inbox/review-queue/low-confidence-test.md")
                  (sanitizeUnicode (buildNote fm (body low_parsed)))
                  false false)
    /\ field (js "review_needed") fm = Some (VBool true)
    /\ field (js "queued_at") fm = Some (VStr (now_iso sample_env)).
Proof.
  destruct (fileNote sample_env inbox_world low_parsed
              (file_options_of sample_env no_options)) as [w' res] eqn:E.
  assert (exists d, res = Ok d /\ d_action d = Queued) as (d & -> & Hq).
  { vm_compute in E. injection E as _ <-. by eexists. }
  destruct (proj2 (queued_note_goes_to_review_queue sample_env inbox_world
                     no_options) inbox_world low_parsed w' d E Hq)
    as (fm & H1 & H2 & H3 & _).
  - reflexivity.
  - vm_compute. discriminate.
  - exists fm. simpl. done.
Defined.

(** ** Keyword extraction *)

Lemma In_insert_sorted {A} (cmp : A -> A -> jsnum) (x y : A) (l : list A) :
  In y (insert_sorted cmp x l) <-> y = x \/ In y l.
Proof.
  induction l as [|z l IH]; cbn [insert_sorted]; [simpl; intuition congruence|].
  destruct (num_ltb (Fin 0) (cmp x z)); simpl; rewrite ?IH; intuition congruence.
Qed.

Lemma In_sort {A} (cmp : A -> A -> jsnum) (y : A) (l : list A) :
  In y (sort cmp l) <-> In y l.
Proof.
  induction l as [|x l IH]; simpl; [done|].
  rewrite In_insert_sorted, IH. intuition congruence.
Qed.

Lemma In_insert_by_index {A} (n : N) (kv : jsstring * A) (p : N * (jsstring * A))
      (l : list (N * (jsstring * A))) :
  In p (insert_by_index n kv l) <-> p = (n, kv) \/ In p l.
Proof.
  induction l as [|[m kv'] l IH]; simpl; [intuition congruence|].
  destruct (n <? m)%N; simpl; rewrite ?IH; intuition congruence.
Qed.

Lemma In_fold_add_indexed {A} (p : N * (jsstring * A)) (o : list (jsstring * A))
      (acc : list (N * (jsstring * A))) :
  In p (fold_left add_indexed o acc) -> In p acc \/ In (snd p) o.
Proof.
  revert acc. induction o as [|x o IH]; intros acc; simpl; [tauto|].
  intros Hin. apply IH in Hin as [Hin | Hin]; [|tauto].
  unfold add_indexed in Hin. destruct (array_index (fst x)); [|tauto].
  apply In_insert_by_index in Hin as [-> | Hin]; simpl; tauto.
Qed.

Lemma In_entries {A} (kv : jsstring * A) (o : list (jsstring * A)) :
  In kv (entries o) -> In kv o.
Proof.
  unfold entries. rewrite in_app_iff, filter_In, in_map_iff.
  intros [(p & <- & Hin) | [? _]]; [|done].
  apply In_fold_add_indexed in Hin as [[] | Hin]. done.
Qed.

Lemma length_insert_by_index {A} (n : N) (kv : jsstring * A)
      (l : list (N * (jsstring * A))) :
  length (insert_by_index n kv l) = S (length l).
Proof.
  induction l as [|[m kv'] l IH]; simpl; [done|].
  destruct (n <? m)%N; simpl; by rewrite ?IH.
Qed.

Lemma own_put_own_keys {A} (k : jsstring) (v : A) (o : list (jsstring * A)) (kv : jsstring * A) :
  In kv (put_own k v o) -> fst kv = k \/ In kv o.
Proof.
  induction o as [|[k' v'] o IH]; simpl; [intuition (subst; auto)|].
  destruct (str_eqb k k'); simpl; intuition (subst; auto).
Qed.

Lemma count_words_keys (words : list jsstring) (kv : jsstring * jsval) :
  In kv (count_words words) -> In (fst kv) words.
Proof.
  unfold count_words.
  assert (forall acc, In kv (fold_left (fun freq word => put word (next_count freq word) freq) words acc)
                      -> In kv acc \/ In (fst kv) words) as H.
  { induction words as [|w words IH]; intros acc; simpl; [tauto|].
    intros Hin. apply IH in Hin as [Hin | Hin]; [|tauto].
    unfold put in Hin. destruct (str_eqb w (js "__proto__")); [tauto|].
    apply own_put_own_keys in Hin. intuition. }
  intros Hin. apply H in Hin as [[] | Hin]. done.
Qed.

Lemma extractKeywords_words (content w : jsstring) :
  In w (extractKeywords content) -> In w (clean_words content).
Proof.
  unfold extractKeywords. intros Hin.
  apply list_elem_of_In, elem_of_take in Hin as (i & Hin & _).
  apply list_elem_of_lookup_2, list_elem_of_In, in_map_iff in Hin as (kv & <- & Hin).
  apply In_sort, In_entries in Hin. by apply count_words_keys.
Qed.

Lemma clean_words_spec (content w : jsstring) :
  In w (clean_words content) -> (3 < length w)%nat /\ isStopWord w = false.
Proof.
  unfold clean_words. rewrite !filter_In. intros [[_ Hlen] Hstop].
  split.
  - by apply Nat.ltb_lt.
  - by destruct (isStopWord w).
Qed.

(** Keyword extraction returns at most 20 tokens, each longer than three
    code units and none of them a stop word. *)
Lemma extractKeywords_bounds (content : jsstring) :
  (length (extractKeywords content) <= 20)%nat
  /\ Forall (fun w => (3 < length w)%nat /\ isStopWord w = false
                      /\ ~ In w stop_words)
            (extractKeywords content).
Proof.
  split.
  - unfold extractKeywords. rewrite length_take. lia.
  - apply Forall_forall. intros w Hin%list_elem_of_In.
    apply extractKeywords_words, clean_words_spec in Hin as [Hlen Hstop].
    repeat split; [done..|].
    intros Hmem. unfold isStopWord in Hstop.
    assert (existsb (str_eqb w) stop_words = true) as Ht; [|congruence].
    apply existsb_exists. exists w. by rewrite str_eqb_refl.
Qed.

(** C9, at the input [constructor alpha alpha]. The word [constructor]
    names a property every object inherits, so its count starts from the
    inherited function instead of 0 and is no number; the comparator then
    yields [NaN] and the sort leaves it in front of [alpha], which occurs
    twice as often. *)
Theorem extractKeywords_constructor_first :
  clean_words (js "constructor alpha alpha")
  = [js "constructor"; js "alpha"; js "alpha"]
  /\ count_words [js "constructor"; js "alpha"; js "alpha"]
     = [ (js "constructor", VStr (js "function Object() { [native code] }1"));
         (js "alpha", VNum (Fin (Qmake 2 1))) ]
  /\ extractKeywords (js "constructor alpha alpha")
     = [js "constructor"; js "alpha"]
  /\ (occurrences (js "constructor") (clean_words (js "constructor alpha alpha"))
      < occurrences (js "alpha") (clean_words (js "constructor alpha alpha")))%nat.
Proof. vm_compute. repeat split; lia. Qed.

(** ** Undoing a session twice *)

(** [undoLastFiling] never reads the [undone] mark of the session. *)
Lemma undoLastFiling_ignores_undone_mark (e : env) (w : world)
      (sid : jsstring) (h : sessions) (s : session) (b : bool) (t : option Z) :
  history w = Stored h -> get sid h = Own s ->
  forall h', get sid h' = Own (mkSession (startTime s) (operations s) b t) ->
  snd (undoLastFiling e (mkWorld (vault w) (Stored h') (learning w)
                                  (detached w)) sid)
  = snd (undoLastFiling e w sid)
  /\ vault (fst (undoLastFiling e (mkWorld (vault w) (Stored h') (learning w)
                                           (detached w)) sid))
     = vault (fst (undoLastFiling e w sid)).
Proof.
  intros Hh Hs h' Hs'. unfold undoLastFiling. rewrite Hh. simpl.
  rewrite Hs, Hs'. simpl.
  by destruct (undo_each _ _ _ _).
Qed.

(** C5, at a session that is undone a second time. The session of the
    sample run is marked [undone], and the note it had moved has since been
    rewritten; undoing the session again is accepted, counts both
    operations as undone, and puts the old content back over the rewritten
    note. *)
Theorem undo_twice_restores_again :
  (exists s, (h ← loadHistory (history edited_world); Ok (get first_session h))
             = Ok (Own s) /\ undone s = true)
  /\ vault edited_world !! js "inbox/test-note.md"
     = Some (mkDoc (js "inbox/Test-Note.md") (js "rewritten by hand") false false)
  /\ exists w' r,
      undoLastFiling later_env edited_world first_session = (w', Ok r)
      /\ ur_undone r = 2%nat /\ ur_failed r = 0%nat
      /\ vault w' !! js "inbox/test-note.md"
         = Some (mkDoc (js "inbox/Test-Note.md") sample_note false false).
Proof.
  split; [|split].
  - vm_compute. eexists. split; reflexivity.
  - vm_compute. reflexivity.
  - destruct (undoLastFiling later_env edited_world first_session)
      as [w' res] eqn:E.
    vm_compute in E. injection E as <- <-.
    eexists _, _. split; [reflexivity|]. vm_compute. done.
Qed.

(** ** The note store *)

Lemma writeNote_lookup (db : database) (p c : jsstring) :
  writeNote db p c !! pathToId p = Some (mkDoc p (sanitizeUnicode c) false false).
Proof. unfold writeNote. apply lookup_insert_eq. Qed.

Lemma writeNote_lookup_ne (db : database) (p c id : jsstring) :
  id <> pathToId p -> writeNote db p c !! id = db !! id.
Proof. intros H. unfold writeNote. by rewrite lookup_insert_ne. Qed.

Lemma writeNote_is_Some (db : database) (p c id : jsstring) :
  is_Some (db !! id) -> is_Some (writeNote db p c !! id).
Proof.
  intros H. destruct (decide (id = pathToId p)) as [->|Hne].
  - rewrite writeNote_lookup. by eexists.
  - by rewrite writeNote_lookup_ne.
Qed.

Lemma deleteNote_Ok (e : env) (db db' : database) (p : jsstring) :
  deleteNote e db p = Ok db' ->
  exists d, db !! pathToId p = Some d /\ db' = <[pathToId p := tombstone d]> db.
Proof.
  unfold deleteNote. destruct (db !! pathToId p) as [d|]; [|done].
  intros [= <-]. by exists d.
Qed.

Lemma deleteNote_present (e : env) (db : database) (p : jsstring) (d : doc) :
  db !! pathToId p = Some d ->
  deleteNote e db p = Ok (<[pathToId p := tombstone d]> db).
Proof. intros H. unfold deleteNote. by rewrite H. Qed.

Lemma deleteNote_Throw (e : env) (db : database) (p : jsstring) (err : jserror) :
  deleteNote e db p = Throw err -> db !! pathToId p = None /\ err = not_found e.
Proof.
  unfold deleteNote. destruct (db !! pathToId p) as [d|]; [done|].
  by intros [= <-].
Qed.

Lemma deleteNote_is_Some (e : env) (db db' : database) (p id : jsstring) :
  deleteNote e db p = Ok db' -> is_Some (db !! id) -> is_Some (db' !! id).
Proof.
  intros (d & Hd & ->)%deleteNote_Ok H.
  destruct (decide (id = pathToId p)) as [->|Hne].
  - rewrite lookup_insert_eq. by eexists.
  - by rewrite lookup_insert_ne.
Qed.

Lemma deleteNote_lookup_ne (e : env) (db db' : database) (p id : jsstring) :
  deleteNote e db p = Ok db' -> id <> pathToId p -> db' !! id = db !! id.
Proof.
  intros (d & Hd & ->)%deleteNote_Ok H. by rewrite lookup_insert_ne.
Qed.

Lemma readNote_None (db : database) (p : jsstring) :
  readNote db p = Ok None <-> db !! pathToId p = None.
Proof.
  unfold readNote. destruct (db !! pathToId p) as [d|]; [|done].
  destruct (doc_encrypted d); split; intros; discriminate.
Qed.

(** ** Collision resolution *)

Lemma resolve_loop_free (db : database) (t : jsstring) (m : nat) :
  forall (fuel : nat) (c : N),
    (m <= fuel)%nat -> (1 <= c)%N -> (c + N.of_nat m <= 100)%N ->
    (forall j, (c - 1 <= j)%N -> (j < c - 1 + N.of_nat m)%N ->
               occupied db (candidate t j)) ->
    readNote db (candidate t (c - 1 + N.of_nat m)) = Ok None ->
    resolve_loop fuel db t c (candidate t (c - 1))
    = Ok (candidate t (c - 1 + N.of_nat m)).
Proof.
  induction m as [|m IH]; intros fuel c Hfuel Hc Hbound Hocc Hfree.
  - replace (c - 1 + N.of_nat 0)%N with (c - 1)%N in * by lia.
    destruct fuel; simpl; by rewrite Hfree.
  - destruct fuel as [|fuel]; [lia|].
    destruct (Hocc (c - 1)%N) as [f Hf]; [lia..|].
    cbn [resolve_loop]. rewrite Hf. simpl.
    destruct (100 <? c + 1)%N eqn:E; [apply N.ltb_lt in E; lia|].
    replace (suffixed t c) with (candidate t (c + 1 - 1)).
    2:{ unfold candidate. replace (c + 1 - 1)%N with c by lia.
        destruct (c =? 0)%N eqn:E0; [apply N.eqb_eq in E0; lia|done]. }
    replace (c - 1 + N.of_nat (S m))%N with (c + 1 - 1 + N.of_nat m)%N in * by lia.
    apply IH; [lia..| |done].
    intros j Hj1 Hj2. apply Hocc; lia.
Qed.

Lemma resolve_loop_exhausted (db : database) (t : jsstring) (m : nat) :
  forall (fuel : nat) (c : N),
    (1 <= c)%N -> (c + N.of_nat m = 100)%N ->
    (forall j, (c - 1 <= j)%N -> (j <= 99)%N -> occupied db (candidate t j)) ->
    resolve_loop fuel db t c (candidate t (c - 1)) = Throw (too_many t).
Proof.
  induction m as [|m IH]; intros fuel c Hc Hbound Hocc.
  - destruct (Hocc (c - 1)%N) as [f Hf]; [lia..|].
    destruct fuel; simpl; rewrite Hf; simpl; [done|].
    destruct (100 <? c + 1)%N eqn:E; [done|]. apply N.ltb_ge in E. lia.
  - destruct (Hocc (c - 1)%N) as [f Hf]; [lia..|].
    destruct fuel as [|fuel]; cbn [resolve_loop]; rewrite Hf; simpl; [done|].
    destruct (100 <? c + 1)%N eqn:E; [done|].
    replace (suffixed t c) with (candidate t (c + 1 - 1)).
    2:{ unfold candidate. replace (c + 1 - 1)%N with c by lia.
        destruct (c =? 0)%N eqn:E0; [apply N.eqb_eq in E0; lia|done]. }
    apply IH; [lia..|]. intros j Hj1 Hj2. apply Hocc; lia.
Qed.

Lemma resolve_loop_result (db : database) (t : jsstring) (fuel : nat) :
  forall (c : N) (p q : jsstring),
    resolve_loop fuel db t c p = Ok q -> db !! pathToId q = None.
Proof.
  induction fuel as [|fuel IH]; intros c p q; cbn [resolve_loop];
    destruct (readNote db p) as [[f|]|err] eqn:E; simpl; try done.
  - intros [= <-]. by apply readNote_None.
  - destruct (100 <? c + 1)%N; [done|]. apply IH.
  - intros [= <-]. by apply readNote_None.
Qed.

Lemma resolveCollision_fresh (db : database) (t q : jsstring) :
  resolveCollision db t false = Ok q -> db !! pathToId q = None.
Proof. apply resolve_loop_result. Qed.
(** ** The effect of filing one note *)

Lemma fileNote_effect (e : env) (w : world) (n : note) (o : file_options) :
  file_effect e w n o (fst (fileNote e w n o)) (snd (fileNote e w n o)).
Proof.
  unfold fileNote. fold (effectiveConfidence n).
  destruct (effectiveConfidence n) as [c|err] eqn:Ec.
  2:{ apply effect_none; [done|]. intros ? _ (c & Hc & _).
      rewrite Ec in Hc. discriminate. }
  destruct (num_ltb c (minConfidence o)) eqn:Elt.
  - assert (low_confidence n (minConfidence o)) as Hlow.
    { exists c. by rewrite Ec. }
    unfold queueForReview. cbv zeta. fold (queue_path n).
    destruct (dryRun o) eqn:Ed.
    { apply effect_none; [|done]. intros d [= <-]. auto 10. }
    match goal with |- context [writeNote (vault w) (queue_path n) ?u] =>
      set (upd := u) end.
    destruct (deleteNote e (writeNote (vault w) (queue_path n) upd) (path n))
      as [db2|err] eqn:Edel; simpl;
      eapply (effect_queue _ _ _ _ upd); try done;
      unfold relocate; rewrite Edel; done.
  - assert (~ low_confidence n (minConfidence o)) as Hhigh.
    { intros (c' & Hc' & Hlt). rewrite Ec in Hc'. injection Hc' as <-.
      congruence. }
    destruct (_ ← getFolderHints _ _; _) as [[fp up]|err] eqn:Eh;
      [|by apply effect_none].
    destruct (dryRun o) eqn:Ed.
    { apply effect_none; [|done]. intros d [= <-]. auto 10. }
    assert (vault w !! pathToId fp = None) as Hfresh.
    { unfold mbind, result_bind in Eh.
      destruct (getFolderHints _ _); [|done].
      match type of Eh with context [match ?t with VStr f => _ | _ => _ end] =>
        destruct t end; try done.
      destruct (resolveCollision _ _ _) as [q|] eqn:Er; [|done].
      destruct (buildUpdatedNote _ _ _); [|done].
      injection Eh as <- <-. by apply resolveCollision_fresh in Er. }
    destruct (deleteNote e (writeNote (vault w) fp up) (path n))
      as [db2|err] eqn:Edel; simpl;
      eapply (effect_file _ _ _ _ fp up); try done;
      unfold relocate; rewrite Edel; done.
Qed.

Lemma effect_report (e : env) (w w' : world) (n : note) (o : file_options)
      (d : detail) :
  file_effect e w n o w' (Ok d) ->
  d_path d = path n
  /\ (low_confidence n (minConfidence o) /\ d_action d = Queued
      \/ ~ low_confidence n (minConfidence o) /\ d_action d = Filed).
Proof.
  inversion 1 as [res H0 H1|upd w1 res Hd Hc Hw Hr|t upd w1 res Hd Hc Hf Hw Hr];
    subst.
  - destruct (H0 d eq_refl) as (_ & ? & [(? & ? & _)|?]); auto.
  - destruct Hr as (_ & ? & ? & _). auto.
  - destruct Hr as (_ & ? & ? & _). auto.
Qed.

(** ** The batch loop *)

Lemma count_action_snoc (a : outcome) (ds : list detail) (d : detail) :
  count_action a (ds ++ [d])
  = (count_action a ds + if bool_decide (d_action d = a) then 1 else 0)%nat.
Proof.
  unfold count_action. rewrite List.filter_app, length_app. simpl.
  by destruct (bool_decide _).
Qed.

Lemma count_action_total (ds : list detail) :
  length ds
  = (count_action Filed ds + count_action Queued ds
     + count_action Skipped ds + count_action Failed ds)%nat.
Proof.
  unfold count_action. induction ds as [|d ds IH]; [done|].
  simpl. destruct (d_action d); simpl; lia.
Qed.

Lemma file_step_tallied (e : env) (o : file_options) (w : world) (r : results)
      (n : note) :
  tallied r -> tallied (snd (file_step e o (w, r) n)).
Proof.
  intros (H1 & H2 & H3 & H4 & H5). unfold file_step.
  pose proof (fileNote_effect e w n o) as Heff.
  destruct (fileNote e w n o) as [w' [d|err]]; unfold tallied; simpl in *;
    rewrite !count_action_snoc, length_app, H1, H2, H3, H4, H5; simpl.
  - apply effect_report in Heff as (_ & [[_ Ha]|[_ Ha]]); rewrite Ha;
      repeat case_bool_decide; try congruence; repeat split; lia.
  - repeat case_bool_decide; try congruence; repeat split; lia.
Qed.

Lemma file_step_throw (e : env) (o : file_options) (w : world) (r : results)
      (n : note) (err : jserror) :
  snd (fileNote e w n o) = Throw err ->
  snd (file_step e o (w, r) n)
  = mkResults (r_sessionId r) (S (processed r)) (filed r) (queued r)
      (skipped r) (S (failed r))
      (details r ++ [mkDetail (path n) Failed None VUndef VUndef None false
                              (Some (message err))])
      (r_dryRun r) (r_message r).
Proof.
  unfold file_step. destruct (fileNote e w n o) as [w' res]. simpl.
  by intros ->.
Qed.

(** An invariant [I] of the stores and a relation [R] between a note and
    its detail, both kept by every round, hold along the whole loop. *)
Lemma fold_file_step_Forall2 (I : world -> Prop) (Q : note -> Prop)
      (R : note -> detail -> Prop) (e : env) (o : file_options) :
  (forall w n, I w -> Q n ->
               I (fst (fileNote e w n o))
               /\ match snd (fileNote e w n o) with
                  | Ok d => R n d
                  | Throw err => R n (failure n err)
                  end) ->
  forall notes w r,
    I w -> Forall Q notes -> tallied r ->
    let st := fold_left (file_step e o) notes (w, r) in
    I (fst st) /\ tallied (snd st)
    /\ exists ds, details (snd st) = details r ++ ds /\ Forall2 R notes ds.
Proof.
  intros Hstep notes. induction notes as [|n notes IH]; intros w r Hw Hq Ht.
  - simpl. split; [done|]. split; [done|]. exists [].
    by rewrite List.app_nil_r.
  - inversion Hq as [|? ? Hn Hq']; subst. cbn [fold_left].
    destruct (Hstep w n Hw Hn) as [Hw1 Hr1].
    pose proof (file_step_tallied e o w r n Ht) as Ht1.
    assert (exists d, details (snd (file_step e o (w, r) n)) = details r ++ [d]
                      /\ R n d /\ fst (file_step e o (w, r) n) = fst (fileNote e w n o))
      as (d & Hd & HR & Hfst).
    { unfold file_step. destruct (fileNote e w n o) as [w1 [d|err]]; simpl in *;
        eexists; repeat split; done. }
    destruct (file_step e o (w, r) n) as [w1 r1]. simpl in *. subst w1.
    destruct (IH _ r1 Hw1 Hq' Ht1) as (HI & HT & ds & Hds & HF).
    split; [done|]. split; [done|].
    exists (d :: ds). rewrite Hds, Hd, <- app_assoc. split; [done|].
    by constructor.
Qed.

Lemma slice_to_nil {A} (limit : jsnum) : slice_to (@nil A) limit = [].
Proof.
  destruct limit as [|[]|q]; simpl; try done.
  destruct (_ <? 0)%Z; by rewrite take_nil.
Qed.

Lemma tallied_empty (e : env) (o : options) (m : option jsstring) :
  tallied (mkResults (effective_sessionId e o) 0 0 0 0 0 []
                     (default false (opt_dryRun o)) m).
Proof. by repeat split. Qed.

(** What [fileNotes] returns when the inbox can be read, by an invariant
    and a relation kept by every round. *)
Lemma fileNotes_Forall2 (I : world -> Prop) (Q : note -> Prop)
      (R : note -> detail -> Prop) (e : env) (w : world) (o : options)
      (notes : list note) :
  (forall w n, I w -> Q n ->
               I (fst (fileNote e w n (file_options_of e o)))
               /\ match snd (fileNote e w n (file_options_of e o)) with
                  | Ok d => R n d
                  | Throw err => R n (failure n err)
                  end) ->
  getProcessedInboxNotes e (vault w) = Ok notes ->
  I w -> Forall Q (slice_to notes (effective_limit o)) ->
  exists w' r,
    fileNotes e w o = (w', Ok r) /\ I w' /\ tallied r
    /\ Forall2 R (slice_to notes (effective_limit o)) (details r).
Proof.
  intros Hstep Hnotes Hw Hq. unfold fileNotes. rewrite Hnotes.
  destruct notes as [|n notes].
  - eexists _, _. split; [reflexivity|]. split; [done|].
    split; [apply tallied_empty|]. rewrite slice_to_nil. constructor.
  - destruct (fold_file_step_Forall2 I Q R e (file_options_of e o) Hstep
                (slice_to (n :: notes) (effective_limit o)) w
                (empty_results e o) Hw Hq (tallied_empty e o None))
      as (HI & HT & ds & Hds & HF).
    destruct (fold_left _ _ _) as [w1 r1]. simpl in *.
    eexists _, _. split; [reflexivity|]. by subst.
Qed.

(** C7. An exception raised while one note is filed is caught: the round
    counts the note as processed and failed and records a detail with the
    note's path and the error message, and the loop goes on, so that the
    batch has one detail per note taken from the inbox, in order. The call
    as a whole raises exactly when listing the processed inbox notes
    does. *)
Theorem fileNotes_contains_note_failures (e : env) (w : world) (o : options) :
  (forall err,
      snd (fileNotes e w o) = Throw err <->
      exists err', getProcessedInboxNotes e (vault w) = Throw err'
                   /\ err = Error (js "Filing failed: " ++ message err'))
  /\ (forall notes,
         getProcessedInboxNotes e (vault w) = Ok notes ->
         exists w' r,
           fileNotes e w o = (w', Ok r)
           /\ List.map d_path (details r)
              = List.map path (slice_to notes (effective_limit o))
           /\ processed r = length (slice_to notes (effective_limit o))
           /\ failed r = count_action Failed (details r)
           /\ processed r = (filed r + queued r + failed r)%nat)
  /\ (forall w0 r0 n err,
         snd (fileNote e w0 n (file_options_of e o)) = Throw err ->
         snd (file_step e (file_options_of e o) (w0, r0) n)
         = mkResults (r_sessionId r0) (S (processed r0)) (filed r0) (queued r0)
             (skipped r0) (S (failed r0))
             (details r0 ++ [mkDetail (path n) Failed None VUndef VUndef None
                                      false (Some (message err))])
             (r_dryRun r0) (r_message r0)).
Proof.
  split; [|split].
  - intros err. unfold fileNotes.
    destruct (getProcessedInboxNotes e (vault w)) as [[|n notes]|err0]; simpl.
    + split; [done|]. by intros (? & ? & _).
    + destruct (fold_left _ _ _). split; [done|]. by intros (? & ? & _).
    + split.
      * intros [= <-]. by exists err0.
      * by intros (? & [= <-] & ->).
  - intros notes Hnotes.
    destruct (fileNotes_Forall2 (fun _ => True) (fun _ => True)
                (fun n d => d_path d = path n /\ d_action d <> Skipped)
                e w o notes) as (w' & r & Hf & _ & Ht & HF); try done.
    { intros w0 n _ _. split; [done|].
      pose proof (fileNote_effect e w0 n (file_options_of e o)) as Heff.
      destruct (snd (fileNote e w0 n (file_options_of e o))) as [d|err0];
        [|done].
      apply effect_report in Heff as (Hp & [[_ Ha]|[_ Ha]]);
        rewrite Ha; done. }
    { by apply Forall_forall. }
    exists w', r. split; [done|].
    destruct Ht as (H1 & H2 & H3 & H4 & H5).
    assert (List.map d_path (details r)
            = List.map path (slice_to notes (effective_limit o))) as Hpaths.
    { clear -HF. induction HF as [|n d ns ds [Hp _] _ IH]; [done|].
      simpl. by rewrite Hp, IH. }
    assert (count_action Skipped (details r) = 0%nat) as Hskip.
    { clear -HF. unfold count_action.
      induction HF as [|n d ns ds [_ Ha] _ IH]; [done|].
      simpl. by rewrite bool_decide_eq_false_2. }
    repeat split; try done.
    + rewrite H1. rewrite <- (length_map d_path), Hpaths. apply length_map.
    + rewrite H1, H2, H3, H5, (count_action_total (details r)). lia.
  - intros w0 r0 n err. apply file_step_throw.
Qed.

(** ** Notes of the inbox are in the store *)

Lemma grows_refl (db : database) : grows db db.
Proof. by intros id. Qed.

Lemma grows_trans (a b c : database) : grows a b -> grows b c -> grows a c.
Proof. intros H1 H2 id H. by apply H2, H1. Qed.

Lemma relocate_grows (e : env) (w : world) (n : note) (sid act t upd : jsstring) :
  grows (vault w) (vault (fst (relocate e w n sid act t upd))).
Proof.
  intros id H. unfold relocate.
  destruct (deleteNote _ _ _) as [db2|err] eqn:E; simpl.
  - rewrite ?vault_trackOperation_detached. simpl.
    eapply deleteNote_is_Some; [done|]. by apply writeNote_is_Some.
  - by apply writeNote_is_Some.
Qed.

Lemma relocate_succeeds (e : env) (w : world) (n : note) (sid act t upd : jsstring) :
  present (vault w) (path n) ->
  snd (relocate e w n sid act t upd) = None.
Proof.
  intros H. unfold relocate.
  destruct (deleteNote _ _ _) as [db2|err] eqn:E; [done|].
  apply deleteNote_Throw in E as [E _].
  apply (writeNote_is_Some _ t upd) in H. rewrite E in H. by destruct H.
Qed.

Lemma fileNote_grows (e : env) (w : world) (n : note) (o : file_options) :
  grows (vault w) (vault (fst (fileNote e w n o))).
Proof.
  destruct (fileNote_effect e w n o)
    as [res H0 H1|upd w1 res Hd Hc Hw Hr|t upd w1 res Hd Hc Hf Hw Hr].
  - apply grows_refl.
  - subst w1. apply relocate_grows.
  - subst w1. apply relocate_grows.
Qed.

Lemma read_processed_present (db : database) (paths : list jsstring)
      (notes : list note) :
  vault_consistent db ->
  read_processed db paths = Ok notes ->
  Forall (fun n => present db (path n)) notes.
Proof.
  intros Hc. revert notes.
  induction paths as [|p paths IH]; intros notes; simpl.
  { intros [= <-]. constructor. }
  unfold mbind, result_bind.
  destruct (readNote db p) as [[f|]|err] eqn:Er; [|by apply IH|done].
  destruct (parseFrontmatter (file_content f)) as [[fm body]|err]; [|done].
  destruct (read_processed db paths) as [others|err]; [|done].
  specialize (IH others eq_refl).
  destruct (truthy _); intros [= <-]; [|done].
  constructor; [|done]. simpl.
  unfold readNote in Er. destruct (db !! pathToId p) as [d|] eqn:Ed; [|done].
  destruct (doc_encrypted d); [done|]. injection Er as <-. simpl.
  unfold present. rewrite (Hc _ _ Ed). by rewrite Ed.
Qed.

Lemma In_slice_to {A} (l : list A) (limit : jsnum) (x : A) :
  In x (slice_to l limit) -> In x l.
Proof.
  destruct limit as [|[]|q]; simpl; try done.
  destruct (_ <? 0)%Z; intros H%list_elem_of_In%elem_of_take;
    destruct H as (i & H & _); by eapply list_elem_of_In, list_elem_of_lookup_2.
Qed.

Lemma inbox_notes_present (e : env) (db : database) (notes : list note)
      (limit : jsnum) :
  vault_consistent db ->
  getProcessedInboxNotes e db = Ok notes ->
  Forall (fun n => present db (path n)) (slice_to notes limit).
Proof.
  intros Hc Hn. apply read_processed_present in Hn; [|done].
  apply Forall_forall. intros n Hin%list_elem_of_In%In_slice_to.
  rewrite Forall_forall in Hn. by apply Hn, list_elem_of_In.
Qed.

Lemma Forall2_and_impl {A B} (C : Prop) (R1 R2 : A -> B -> Prop)
      (l : list A) (k : list B) :
  Forall2 R1 l k -> (C -> Forall2 R2 l k) ->
  Forall2 (fun a b => R1 a b /\ (C -> R2 a b)) l k.
Proof.
  intros H1. induction H1 as [|a b l k Hab _ IH]; intros H2; constructor.
  - split; [done|]. intros HC. specialize (H2 HC). by inversion H2.
  - apply IH. intros HC. specialize (H2 HC). by inversion H2.
Qed.

(** ** Notes below the threshold *)

(** C3. Every note that [fileNotes] processes and whose effective
    confidence is below the threshold in force is never reported as filed:
    it is reported as queued in a dry run, and as queued in a real run as
    well when every document of the store sits at the id of its path (so
    that the delete of the original cannot miss). Without that, the only
    other outcome is a failure of the note. *)
Theorem low_confidence_notes_are_queued (e : env) (w w' : world) (o : options)
        (notes : list note) (r : results) :
  getProcessedInboxNotes e (vault w) = Ok notes ->
  fileNotes e w o = (w', Ok r) ->
  Forall2 (fun n d =>
             d_path d = path n
             /\ (low_confidence n (effective_minConfidence o) ->
                 d_action d <> Filed
                 /\ (d_action d = Queued \/ d_action d = Failed)
                 /\ (opt_dryRun o = Some true -> d_action d = Queued)
                 /\ (vault_consistent (vault w) -> d_action d = Queued)))
          (slice_to notes (effective_limit o)) (details r).
Proof.
  intros Hnotes Hrun.
  set (todo := slice_to notes (effective_limit o)).
  set (low n := low_confidence n (effective_minConfidence o)).
  assert (Forall2 (fun n d =>
                     d_path d = path n
                     /\ (low n -> (d_action d = Queued \/ d_action d = Failed)
                                  /\ (opt_dryRun o = Some true -> d_action d = Queued)))
                  todo (details r)) as H1.
  { destruct (fileNotes_Forall2 (fun _ => True) (fun _ => True)
                (fun n d =>
                   d_path d = path n
                   /\ (low n -> (d_action d = Queued \/ d_action d = Failed)
                                /\ (opt_dryRun o = Some true -> d_action d = Queued)))
                e w o notes) as (w1 & r1 & Hf & _ & _ & HF); try done.
    - intros w0 n _ _. split; [done|].
      pose proof (fileNote_effect e w0 n (file_options_of e o)) as Heff.
      destruct (snd (fileNote e w0 n (file_options_of e o))) as [d|err].
      + apply effect_report in Heff as (Hp & [[_ Ha]|[Hh _]]).
        * rewrite Ha. auto.
        * split; [done|]. intros Hl. by destruct Hh.
      + split; [done|]. intros Hl. split; [auto|]. intros Hd.
        inversion Heff as [res H0 Hthrow|upd w2 res Hdry _ _ _
                          |t upd w2 res Hdry _ _ _ _]; subst.
        * by destruct (Hthrow err eq_refl).
        * unfold file_options_of in Hdry. simpl in Hdry.
          rewrite Hd in Hdry. discriminate.
        * unfold file_options_of in Hdry. simpl in Hdry.
          rewrite Hd in Hdry. discriminate.
    - by apply Forall_forall.
    - rewrite Hrun in Hf. by injection Hf as <- <-. }
  assert (vault_consistent (vault w) ->
          Forall2 (fun n d => low n -> d_action d = Queued) todo (details r))
    as H2.
  { intros Hc.
    destruct (fileNotes_Forall2 (fun w0 => grows (vault w) (vault w0))
                (fun n => present (vault w) (path n))
                (fun n d => low n -> d_action d = Queued)
                e w o notes) as (w1 & r1 & Hf & _ & _ & HF); try done.
    - intros w0 n Hg Hn. split.
      { eapply grows_trans; [done|]. apply fileNote_grows. }
      pose proof (fileNote_effect e w0 n (file_options_of e o)) as Heff.
      destruct (snd (fileNote e w0 n (file_options_of e o))) as [d|err].
      + apply effect_report in Heff as (Hp & [[_ Ha]|[Hh _]]); [done|].
        intros Hl. by destruct Hh.
      + intros Hl. exfalso.
        inversion Heff as [res H0 Hthrow|upd w2 res Hdry _ _ Hr
                          |t upd w2 res Hdry Hh _ _ _]; subst.
        * by destruct (Hthrow err eq_refl).
        * rewrite relocate_succeeds in Hr; [done|]. by apply Hg.
        * by destruct Hh.
    - apply grows_refl.
    - by apply (inbox_notes_present e).
    - rewrite Hrun in Hf. by injection Hf as <- <-. }
  pose proof (Forall2_and_impl _ _ _ _ _ H1 H2) as H.
  eapply Forall2_impl; [exact H|].
  intros n d [[Hp Hl] Hq]. split; [done|]. intros Hlow.
  destruct (Hl Hlow) as [Hqf Hdry].
  repeat split; try done.
  - destruct Hqf as [-> | ->]; discriminate.
  - intros Hc. by apply Hq.
Qed.

(** ** Filing into a folder *)

Lemma fileNote_files (e : env) (w : world) (n : note) (o : file_options)
      (c : jsnum) (f fp up : jsstring) :
  dryRun o = false ->
  effectiveConfidence n = Ok c -> num_ltb c (minConfidence o) = false ->
  target_folder w n = Ok (VStr f) ->
  resolveCollision (vault w) (Path.join2 f (Path.basename (path n))) false = Ok fp ->
  buildUpdatedNote e n (suggestions_of n) = Ok up ->
  present (vault w) (path n) ->
  fileNote e w n o
  = (fst (relocate e w n (sessionId o) (js "file") fp up), Ok (filed_detail n fp)).
Proof.
  intros Hd Hc Hlt Hf Hr Hb Hp. unfold fileNote.
  fold (effectiveConfidence n). fold (suggestions_of n).
  rewrite Hc, Hlt, Hd. unfold target_folder in Hf.
  unfold mbind, result_bind in *.
  destruct (getFolderHints _ _) as [h|]; [|done]. injection Hf as Hf.
  rewrite Hf, Hr, Hb.
  pose proof (relocate_succeeds e w n (sessionId o) (js "file") fp up Hp) as Hs.
  unfold relocate in *. by destruct (deleteNote _ _ _).
Qed.

Lemma fileNote_collision_failure (e : env) (w : world) (n : note)
      (o : file_options) (c : jsnum) (f : jsstring) (err : jserror) :
  effectiveConfidence n = Ok c -> num_ltb c (minConfidence o) = false ->
  target_folder w n = Ok (VStr f) ->
  resolveCollision (vault w) (Path.join2 f (Path.basename (path n))) (dryRun o)
  = Throw err ->
  fileNote e w n o = (w, Throw err).
Proof.
  intros Hc Hlt Hf Hr. unfold fileNote.
  fold (effectiveConfidence n). fold (suggestions_of n).
  rewrite Hc, Hlt. unfold target_folder in Hf.
  unfold mbind, result_bind in *.
  destruct (getFolderHints _ _) as [h|]; [|done]. injection Hf as Hf.
  by rewrite Hf, Hr.
Qed.

Lemma resolveCollision_first_free (db : database) (t : jsstring) (k : N) :
  (k <= 99)%N ->
  (forall j, (j < k)%N -> occupied db (candidate t j)) ->
  readNote db (candidate t k) = Ok None ->
  resolveCollision db t false = Ok (candidate t k).
Proof.
  intros Hk Hocc Hfree. unfold resolveCollision.
  pose proof (resolve_loop_free db t (N.to_nat k) 100 1) as H.
  replace (1 - 1 + N.of_nat (N.to_nat k))%N with k in H by lia.
  apply H; [lia..| |done]. intros j _ Hj. apply Hocc. lia.
Qed.

Lemma resolveCollision_exhausted (db : database) (t : jsstring) :
  (forall j, (j <= 99)%N -> occupied db (candidate t j)) ->
  resolveCollision db t false = Throw (too_many t).
Proof.
  intros Hocc. unfold resolveCollision.
  apply (resolve_loop_exhausted db t 99 100 1); [lia..|].
  intros j _ Hj. by apply Hocc.
Qed.

Lemma relocate_lookup_ne (e : env) (w : world) (n : note)
      (sid act t upd id : jsstring) :
  id <> pathToId t -> id <> pathToId (path n) ->
  vault (fst (relocate e w n sid act t upd)) !! id = vault w !! id.
Proof.
  intros H1 H2. unfold relocate.
  destruct (deleteNote _ _ _) as [db2|err] eqn:E; simpl.
  - rewrite ?vault_trackOperation_detached. simpl.
    rewrite (deleteNote_lookup_ne _ _ _ _ _ E) by done.
    by apply writeNote_lookup_ne.
  - by apply writeNote_lookup_ne.
Qed.

Lemma relocate_target (e : env) (w : world) (n : note)
      (sid act t upd : jsstring) :
  pathToId t <> pathToId (path n) ->
  vault (fst (relocate e w n sid act t upd)) !! pathToId t
  = Some (mkDoc t (sanitizeUnicode upd) false false).
Proof.
  intros H. unfold relocate.
  destruct (deleteNote _ _ _) as [db2|err] eqn:E; simpl.
  - rewrite ?vault_trackOperation_detached. simpl.
    rewrite (deleteNote_lookup_ne _ _ _ _ _ E) by done.
    apply writeNote_lookup.
  - apply writeNote_lookup.
Qed.

Lemma relocate_learning (e : env) (w : world) (n : note)
      (sid act t upd : jsstring) :
  learning (fst (relocate e w n sid act t upd)) = learning w.
Proof.
  unfold relocate. destruct (deleteNote _ _ _); simpl; [|done].
  by rewrite ?learning_trackOperation_detached.
Qed.

(** C6. Collision resolution in a real run takes the first free path among
    the target and the target with suffix 1, 2, ..., 99, and raises
    [Too many collisions] when all hundred are taken, which fails the
    note and not the batch. Two notes with the same base name filed one
    after the other into the same folder, where the name and the name with
    suffix 1 are free, get the name and then the name with suffix 1. *)
Theorem collision_resolution (e : env) (o : file_options) :
  (forall db t k,
      (k <= 99)%N ->
      (forall j, (j < k)%N -> occupied db (candidate t j)) ->
      readNote db (candidate t k) = Ok None ->
      resolveCollision db t false = Ok (candidate t k))
  /\ (forall db t,
         (forall j, (j <= 99)%N -> occupied db (candidate t j)) ->
         resolveCollision db t false = Throw (too_many t))
  /\ (forall w r n c f,
         dryRun o = false ->
         effectiveConfidence n = Ok c -> num_ltb c (minConfidence o) = false ->
         target_folder w n = Ok (VStr f) ->
         (forall j, (j <= 99)%N ->
                    occupied (vault w)
                      (candidate (Path.join2 f (Path.basename (path n))) j)) ->
         file_step e o (w, r) n
         = (w, mkResults (r_sessionId r) (S (processed r)) (filed r) (queued r)
                 (skipped r) (S (failed r))
                 (details r
                    ++ [failure n (too_many (Path.join2 f (Path.basename (path n))))])
                 (r_dryRun r) (r_message r)))
  /\ (forall w n1 n2 c1 c2 f b up1 up2,
         dryRun o = false ->
         Path.basename (path n1) = b -> Path.basename (path n2) = b ->
         effectiveConfidence n1 = Ok c1 -> num_ltb c1 (minConfidence o) = false ->
         effectiveConfidence n2 = Ok c2 -> num_ltb c2 (minConfidence o) = false ->
         target_folder w n1 = Ok (VStr f) -> target_folder w n2 = Ok (VStr f) ->
         buildUpdatedNote e n1 (suggestions_of n1) = Ok up1 ->
         buildUpdatedNote e n2 (suggestions_of n2) = Ok up2 ->
         present (vault w) (path n1) -> present (vault w) (path n2) ->
         vault w !! pathToId (Path.join2 f b) = None ->
         vault w !! pathToId (suffixed (Path.join2 f b) 1) = None ->
         pathToId (suffixed (Path.join2 f b) 1) <> pathToId (Path.join2 f b) ->
         exists w1 w2,
           fileNote e w n1 o = (w1, Ok (filed_detail n1 (Path.join2 f b)))
           /\ fileNote e w1 n2 o
              = (w2, Ok (filed_detail n2 (suffixed (Path.join2 f b) 1)))).
Proof.
  split; [apply resolveCollision_first_free|].
  split; [apply resolveCollision_exhausted|].
  split.
  - intros w r n c f Hd Hc Hlt Hf Hocc. unfold file_step.
    rewrite (fileNote_collision_failure e w n o c f
               (too_many (Path.join2 f (Path.basename (path n))))); try done.
    rewrite Hd. by apply resolveCollision_exhausted.
  - intros w n1 n2 c1 c2 f b up1 up2 Hd Hb1 Hb2 Hc1 Hlt1 Hc2 Hlt2 Hf1 Hf2
           Hu1 Hu2 Hp1 Hp2 Hfree0 Hfree1 Hne.
    set (t := Path.join2 f b) in *.
    assert (pathToId t <> pathToId (path n1)) as Hn1.
    { intros Heq. rewrite Heq in Hfree0. destruct Hp1 as [? Hp1]. congruence. }
    assert (pathToId (suffixed t 1) <> pathToId (path n1)) as Hn1'.
    { intros Heq. rewrite Heq in Hfree1. destruct Hp1 as [? Hp1]. congruence. }
    eexists _, _. split.
    + apply (fileNote_files e w n1 o c1 f t up1); try done.
      rewrite Hb1. apply (resolveCollision_first_free _ t 0); [lia| |].
      * intros j Hj. lia.
      * by apply readNote_None.
    + set (w1 := fst (relocate e w n1 (sessionId o) (js "file") t up1)).
      apply (fileNote_files e w1 n2 o c2 f (suffixed t 1) up2); try done.
      * unfold target_folder, w1. rewrite relocate_learning. exact Hf2.
      * rewrite Hb2. apply (resolveCollision_first_free _ t 1); [lia| |].
        -- intros j Hj. replace j with 0%N by lia.
           unfold occupied, candidate, readNote, w1. simpl.
           rewrite relocate_target by done. by eexists.
        -- apply readNote_None. unfold candidate, w1. simpl.
           by rewrite relocate_lookup_ne.
      * unfold w1. by apply relocate_grows.
Qed.

(** ** Sanitizing ASCII text *)

Lemma replaceAll_ascii (pat rep s : jsstring) (c : N) (rest : jsstring) :
  pat = c :: rest -> (127 < c)%N -> ascii_text s -> replaceAll pat rep s = s.
Proof.
  intros -> Hc Hs. unfold replaceAll.
  induction Hs as [|d s Hd Hs IH]; [done|].
  cbn [replaceAll_from startsWith].
  unfold is_ascii_unit in Hd. apply N.leb_le in Hd.
  destruct (c =? d)%N eqn:E; [apply N.eqb_eq in E; lia|].
  simpl. by rewrite IH.
Qed.

Lemma emoji_table_not_ascii :
  Forall (fun pr => exists c rest, fst pr = c :: rest /\ (127 < c)%N) emoji_table.
Proof.
  unfold emoji_table.
  repeat (constructor; [eexists _, _; split; [reflexivity|]; simpl; lia|]).
  constructor.
Qed.

Lemma strip_emoji_ascii (s : jsstring) : ascii_text s -> strip_emoji s = s.
Proof.
  unfold strip_emoji. induction 1 as [|c s Hc Hs IH]; [done|].
  cbn [strip_emoji_from]. destruct s as [|lo s']; [done|].
  unfold is_ascii_unit in Hc. apply N.leb_le in Hc.
  assert (is_high_surrogate c = false) as ->.
  { unfold is_high_surrogate. apply andb_false_iff. left.
    apply N.leb_gt. lia. }
  cbn [andb]. by rewrite IH.
Qed.

Lemma filter_ascii (s : jsstring) : ascii_text s -> List.filter is_ascii_unit s = s.
Proof.
  induction 1 as [|c s Hc Hs IH]; [done|]. simpl. by rewrite Hc, IH.
Qed.

(** Text made of ASCII units alone passes through [sanitizeUnicode]. *)
Lemma sanitizeUnicode_ascii (s : jsstring) :
  ascii_text s -> sanitizeUnicode s = s.
Proof.
  intros Hs. unfold sanitizeUnicode.
  assert (fold_left (fun t pr => replaceAll (fst pr) (snd pr) t) emoji_table s = s)
    as ->.
  { pose proof emoji_table_not_ascii as Ht.
    induction Ht as [|pr table (c & rest & Hpat & Hc) _ IH]; [done|].
    simpl. by rewrite (replaceAll_ascii _ _ _ c rest). }
  rewrite strip_emoji_ascii by done. by apply filter_ascii.
Qed.

(** ** The ledger of a session *)

Lemma own_put_own {A} (k : jsstring) (v : A) (o : list (jsstring * A)) :
  own k (put_own k v o) = Some v.
Proof.
  induction o as [|[k' v'] o IH]; simpl.
  - by rewrite str_eqb_refl.
  - destruct (str_eqb k k') eqn:E; simpl; [by rewrite str_eqb_refl|].
    by rewrite E.
Qed.

Lemma length_put_own {A} (k : jsstring) (v : A) (o : list (jsstring * A)) :
  length (put_own k v o)
  = match own k o with Some _ => length o | None => S (length o) end.
Proof.
  induction o as [|[k' v'] o IH]; simpl; [done|].
  destruct (str_eqb k k') eqn:E; simpl; [done|].
  rewrite IH. by destruct (own k o).
Qed.

(** ** Undoing operations *)

Lemma undoOperation_grows (e : env) (db : database) (op : operation) :
  grows db (fst (undoOperation e db op)).
Proof.
  intros id H. unfold undoOperation.
  destruct (_ || _); [|done].
  destruct (deleteNote _ _ _) as [db2|err] eqn:E.
  - simpl. eapply deleteNote_is_Some; [done|]. by apply writeNote_is_Some.
  - destruct (includes _ _); simpl; by apply writeNote_is_Some.
Qed.

Lemma undoOperation_frame (e : env) (db : database) (op : operation)
      (id : jsstring) :
  pathToId (originalPath op) <> id -> pathToId (targetPath op) <> id ->
  fst (undoOperation e db op) !! id = db !! id.
Proof.
  intros H1 H2. unfold undoOperation.
  destruct (_ || _); [|done].
  destruct (deleteNote _ _ _) as [db2|err] eqn:E.
  - simpl. rewrite (deleteNote_lookup_ne _ _ _ _ _ E) by done.
    by apply writeNote_lookup_ne.
  - destruct (includes _ _); simpl; by apply writeNote_lookup_ne.
Qed.

Lemma undo_each_app (e : env) (db : database) (l1 l2 : list operation)
      (r : undo_results) :
  undo_each e db (l1 ++ l2) r
  = undo_each e (fst (undo_each e db l1 r)) l2 (snd (undo_each e db l1 r)).
Proof.
  revert db r. induction l1 as [|op l1 IH]; intros db r; [done|].
  simpl. destruct (undoOperation e db op) as [db' out]. apply IH.
Qed.

Lemma undo_each_grows (e : env) (ops : list operation) :
  forall db r, grows db (fst (undo_each e db ops r)).
Proof.
  induction ops as [|op ops IH]; intros db r; [apply grows_refl|].
  simpl. pose proof (undoOperation_grows e db op) as H.
  destruct (undoOperation e db op) as [db' out].
  eapply grows_trans; [exact H|]. apply IH.
Qed.

Lemma undo_each_frame (e : env) (ops : list operation) (id : jsstring) :
  Forall (fun op => pathToId (originalPath op) <> id
                    /\ pathToId (targetPath op) <> id) ops ->
  forall db r, fst (undo_each e db ops r) !! id = db !! id.
Proof.
  induction 1 as [|op ops [H1 H2] _ IH]; intros db r; [done|].
  simpl. pose proof (undoOperation_frame e db op id H1 H2) as H.
  destruct (undoOperation e db op) as [db' out]. simpl in H.
  by rewrite IH.
Qed.

(** Undoing a [file] operation whose target is in the store puts the
    original content, sanitized, back at the original path and leaves a
    tombstone at the target. *)
Lemma undoOperation_file (e : env) (db : database) (op : operation) :
  action op = js "file" ->
  present db (targetPath op) ->
  pathToId (targetPath op) <> pathToId (originalPath op) ->
  let db' := fst (undoOperation e db op) in
  db' !! pathToId (originalPath op)
  = Some (mkDoc (originalPath op) (sanitizeUnicode (originalContent op)) false false)
  /\ exists d, db' !! pathToId (targetPath op) = Some (tombstone d).
Proof.
  intros Ha [d Hd] Hne. unfold undoOperation. rewrite Ha. simpl.
  assert (writeNote db (originalPath op) (originalContent op)
            !! pathToId (targetPath op) = Some d) as Hd'.
  { by rewrite writeNote_lookup_ne. }
  rewrite (deleteNote_present _ _ _ _ Hd'). simpl. split.
  - rewrite lookup_insert_ne by done. apply writeNote_lookup.
  - exists d. apply lookup_insert_eq.
Qed.

(** ** The notes of the inbox have distinct ids *)

Lemma NoDup_map_filter {A B} (g : A -> B) (f : A -> bool) (l : list A) :
  NoDup (List.map g l) -> NoDup (List.map g (List.filter f l)).
Proof.
  induction l as [|a l IH]; simpl; [done|].
  intros [Hnotin Hnd]%NoDup_cons. destruct (f a); simpl; [|by apply IH].
  apply NoDup_cons. split; [|by apply IH].
  intros Hin. apply Hnotin.
  apply list_elem_of_In, in_map_iff in Hin as (x & Hx & Hin).
  apply filter_In in Hin as [Hin _].
  apply list_elem_of_In, in_map_iff. by exists x.
Qed.

Lemma listNotes_NoDup (db : database) :
  vault_consistent db -> NoDup (List.map pathToId (listNotes db)).
Proof.
  intros Hc. unfold listNotes. rewrite List.map_map.
  assert (List.map (fun row => pathToId (doc_path (snd row)))
                   (List.filter (fun row => is_note_row (fst row)) (map_to_list db))
          = List.map fst
              (List.filter (fun row => is_note_row (fst row)) (map_to_list db)))
    as ->.
  { apply map_ext_in. intros [id d] Hin. apply filter_In in Hin as [Hin _].
    apply list_elem_of_In, elem_of_map_to_list in Hin. by apply Hc in Hin. }
  apply NoDup_map_filter. apply NoDup_fst_map_to_list.
Qed.

Lemma read_processed_sublist (db : database) (paths : list jsstring)
      (notes : list note) :
  vault_consistent db ->
  read_processed db paths = Ok notes ->
  sublist (List.map (fun n => pathToId (path n)) notes) (List.map pathToId paths).
Proof.
  intros Hc. revert notes.
  induction paths as [|p paths IH]; intros notes; simpl.
  { by intros [= <-]. }
  unfold mbind, result_bind.
  destruct (readNote db p) as [[f|]|err] eqn:Er; [| |done].
  2:{ intros H. apply sublist_cons. by apply IH. }
  destruct (parseFrontmatter (file_content f)) as [[fm body]|err]; [|done].
  destruct (read_processed db paths) as [others|err]; [|done].
  specialize (IH others eq_refl).
  destruct (truthy _); intros [= <-]; [|by apply sublist_cons].
  simpl.
  unfold readNote in Er. destruct (db !! pathToId p) as [d|] eqn:Ed; [|done].
  destruct (doc_encrypted d); [done|]. injection Er as <-. simpl.
  rewrite (Hc _ _ Ed). by apply sublist_skip.
Qed.

Lemma slice_to_prefix {A} (l : list A) (limit : jsnum) :
  exists k, slice_to l limit = take k l.
Proof.
  destruct limit as [|[]|q]; simpl.
  - exists 0%nat. by rewrite take_0.
  - exists 0%nat. by rewrite take_0.
  - exists (length l). by rewrite firstn_all.
  - destruct (_ <? 0)%Z; eauto.
Qed.

Lemma inbox_notes_NoDup (e : env) (db : database) (notes : list note)
      (limit : jsnum) :
  vault_consistent db ->
  getProcessedInboxNotes e db = Ok notes ->
  NoDup (List.map (fun n => pathToId (path n)) (slice_to notes limit)).
Proof.
  intros Hc Hn. unfold getProcessedInboxNotes in Hn.
  apply read_processed_sublist in Hn; [|done].
  destruct (slice_to_prefix notes limit) as [k ->].
  assert (sublist (List.map (fun n => pathToId (path n)) (take k notes))
                  (List.map (fun n => pathToId (path n)) notes)) as Hk.
  { rewrite <- firstn_map. apply sublist_take. }
  eapply sublist_NoDup; [|exact (transitivity Hk Hn)].
  apply NoDup_map_filter. by apply listNotes_NoDup.
Qed.

(** ** More checks on the sample data *)

Lemma writeNote_consistent (db : database) (p c : jsstring) :
  vault_consistent db -> vault_consistent (writeNote db p c).
Proof.
  intros Hc id d. unfold writeNote.
  destruct (decide (id = pathToId p)) as [->|Hne].
  - rewrite lookup_insert_eq. by intros [= <-].
  - rewrite lookup_insert_ne by done. apply Hc.
Qed.

Lemma store_of_consistent (notes : list (jsstring * jsstring)) :
  vault_consistent (store_of notes).
Proof.
  unfold store_of.
  assert (forall db, vault_consistent db ->
                     vault_consistent
                       (fold_left (fun db pc => writeNote db (fst pc) (snd pc))
                                  notes db)) as H.
  { induction notes as [|pc notes IH]; intros db Hdb; [done|].
    simpl. by apply IH, writeNote_consistent. }
  apply H. intros id d. by rewrite lookup_empty.
Qed.

Lemma low_confidence_notes_are_queued_witness :
  exists notes w' r d,
    getProcessedInboxNotes sample_env (vault inbox_world) = Ok notes
    /\ fileNotes sample_env inbox_world no_options = (w', Ok r)
    /\ slice_to notes (effective_limit no_options) !! 0%nat = Some low_parsed
    /\ low_confidence low_parsed (effective_minConfidence no_options)
    /\ details r !! 0%nat = Some d
    /\ d_action d = Queued.
Proof.
  destruct (getProcessedInboxNotes sample_env (vault inbox_world))
    as [notes|] eqn:En; [|by vm_compute in En].
  destruct (fileNotes sample_env inbox_world no_options) as [w1 res] eqn:Er.
  assert (exists r, res = Ok r
                    /\ slice_to notes (effective_limit no_options) !! 0%nat
                       = Some low_parsed
                    /\ exists d, details r !! 0%nat = Some d)
    as (r & -> & Hn & d & Hd).
  { vm_compute in En. injection En as <-.
    vm_compute in Er. injection Er as _ <-.
    eexists. split; [reflexivity|]. split; [reflexivity|].
    eexists. reflexivity. }
  pose proof (low_confidence_notes_are_queued sample_env inbox_world w1
                no_options notes r En Er) as HF.
  destruct (Forall2_lookup_lr _ _ _ _ _ _ HF Hn Hd) as [_ Hlow].
  assert (low_confidence low_parsed (effective_minConfidence no_options)) as Hl.
  { exists (Fin three_tenths). split; vm_compute; reflexivity. }
  destruct (Hlow Hl) as (_ & _ & _ & Hq).
  exists notes, w1, r, d.
  split; [reflexivity|]. split; [reflexivity|]. split; [exact Hn|].
  split; [exact Hl|]. split; [exact Hd|].
  apply Hq. apply store_of_consistent.
Defined.

Lemma collision_resolution_witness :
  exists w1 w2,
    fileNote sample_env names_world first_name
             (file_options_of sample_env no_options)
    = (w1, Ok (filed_detail first_name (js "projects/name.md")))
    /\ fileNote sample_env w1 second_name
                (file_options_of sample_env no_options)
       = (w2, Ok (filed_detail second_name (js "projects/name-1.md"))).
Proof.
  destruct (collision_resolution sample_env
              (file_options_of sample_env no_options))
    as (_ & _ & _ & Hseq).
  destruct (buildUpdatedNote sample_env first_name (suggestions_of first_name))
    as [up1|] eqn:E1; [|by vm_compute in E1].
  destruct (buildUpdatedNote sample_env second_name (suggestions_of second_name))
    as [up2|] eqn:E2; [|by vm_compute in E2].
  apply (Hseq names_world first_name second_name (Fin nine_tenths)
              (Fin nine_tenths) (js "projects") (js "name.md") up1 up2);
    try exact E1; try exact E2; try (vm_compute; reflexivity);
    try (vm_compute; by eexists); vm_compute; discriminate.
Defined.

Lemma fileNotes_contains_note_failures_witness :
  (exists notes w' r,
      getProcessedInboxNotes sample_env (vault folderless_world) = Ok notes
      /\ fileNotes sample_env folderless_world no_options = (w', Ok r)
      /\ List.map d_path (details r)
         = [js "inbox/a-folderless.md"; js "inbox/b-plain.md"]
      /\ List.map d_action (details r) = [Failed; Filed]
      /\ processed r = 2%nat /\ failed r = 1%nat
      /\ processed r = (filed r + queued r + failed r)%nat)
  /\ (exists err,
         snd (fileNote sample_env folderless_world folderless
                       (file_options_of sample_env no_options)) = Throw err
         /\ snd (file_step sample_env (file_options_of sample_env no_options)
                           (folderless_world,
                            empty_results sample_env no_options) folderless)
            = mkResults first_session 1 0 0 0 1
                [mkDetail (js "inbox/a-folderless.md") Failed None VUndef VUndef
                          None false (Some (message err))]
                false None)
  /\ snd (fileNotes sample_env encrypted_world no_options)
     = Throw (Error (js "Filing failed: Note is encrypted - E2EE must be disabled")).
Proof.
  destruct (fileNotes_contains_note_failures sample_env folderless_world
              no_options) as (_ & Hbatch & Hround).
  destruct (fileNotes_contains_note_failures sample_env encrypted_world
              no_options) as (Hraise & _ & _).
  split; [|split].
  - destruct (getProcessedInboxNotes sample_env (vault folderless_world))
      as [notes|] eqn:En; [|by vm_compute in En].
    destruct (Hbatch notes eq_refl) as (w' & r & Hr & Hpaths & Hp & Hf & Hsum).
    exists notes, w', r.
    split; [reflexivity|]. split; [exact Hr|].
    split.
    { rewrite Hpaths. vm_compute in En. injection En as <-. reflexivity. }
    split.
    { vm_compute in Hr. injection Hr as _ <-. reflexivity. }
    split.
    { rewrite Hp. vm_compute in En. injection En as <-. reflexivity. }
    split; [|exact Hsum].
    rewrite Hf. vm_compute in Hr. injection Hr as _ <-. reflexivity.
  - set (err := TypeError (js "The path argument must be of type string")).
    assert (snd (fileNote sample_env folderless_world folderless
                          (file_options_of sample_env no_options)) = Throw err)
      as Hthrow.
    { vm_compute. reflexivity. }
    exists err. split; [exact Hthrow|].
    rewrite (Hround folderless_world (empty_results sample_env no_options)
                    folderless err Hthrow).
    reflexivity.
  - apply Hraise.
    exists (Error (js "Note is encrypted - E2EE must be disabled")).
    split; vm_compute; reflexivity.
Defined.

(** * Further properties of the note store *)

Lemma ascii_sanitizeUnicode (text : jsstring) : ascii_text (sanitizeUnicode text).
Proof.
  unfold sanitizeUnicode, ascii_text. apply Forall_forall.
  intros c Hc%list_elem_of_In. by apply filter_In in Hc as [_ Hc].
Qed.

(** X1. Whatever the text, [sanitizeUnicode] returns ASCII units only, and
    sanitizing once more changes nothing. *)
Theorem sanitizeUnicode_idempotent (text : jsstring) :
  Forall (fun c => (c <= 127)%N) (sanitizeUnicode text)
  /\ sanitizeUnicode (sanitizeUnicode text) = sanitizeUnicode text.
Proof.
  split.
  - eapply Forall_impl; [apply ascii_sanitizeUnicode|].
    intros c Hc. unfold is_ascii_unit in Hc. apply N.leb_le in Hc. lia.
  - apply sanitizeUnicode_ascii, ascii_sanitizeUnicode.
Qed.

Lemma pathToId_lower (p q : jsstring) :
  toLowerCase q = toLowerCase p -> pathToId q = pathToId p.
Proof. unfold pathToId. by intros ->. Qed.

(** X2. For paths of ASCII text, on which the ids of the model are the
    ids of the program: a note written under one spelling of a path is
    read back under any spelling that differs in letter case only, and the
    answer carries the path as written and the sanitized content. Reading
    at a path with another id is not affected by the write. *)
Theorem readNote_after_writeNote (db : database) (p c : jsstring) :
  ascii_text p ->
  (forall q, ascii_text q -> toLowerCase q = toLowerCase p ->
             readNote (writeNote db p c) q
             = Ok (Some (mkNoteFile p (sanitizeUnicode c))))
  /\ (forall q, ascii_text q -> pathToId q <> pathToId p ->
                readNote (writeNote db p c) q = readNote db q).
Proof.
  intros _. split.
  - intros q _ Hq. unfold readNote.
    by rewrite (pathToId_lower _ _ Hq), writeNote_lookup.
  - intros q _ Hq. unfold readNote. by rewrite writeNote_lookup_ne.
Qed.

Lemma readNote_after_writeNote_witness :
  let db := writeNote (store_of [(js "inbox/other.md", js "other")])
                      (js "inbox/Note.md") (js "text") in
  readNote db (js "INBOX/note.MD")
  = Ok (Some (mkNoteFile (js "inbox/Note.md") (js "text")))
  /\ readNote db (js "inbox/other.md")
     = Ok (Some (mkNoteFile (js "inbox/other.md") (js "other"))).
Proof.
  intros db.
  destruct (readNote_after_writeNote
              (store_of [(js "inbox/other.md", js "other")])
              (js "inbox/Note.md") (js "text")) as [Hsame Hother].
  { apply Forall_forall. intros c Hc.
    assert (forallb is_ascii_unit (js "inbox/Note.md") = true) as H by reflexivity.
    rewrite forallb_forall in H. by apply H, list_elem_of_In. }
  split.
  - apply (Hsame (js "INBOX/note.MD")); [|reflexivity].
    apply Forall_forall. intros c Hc.
    assert (forallb is_ascii_unit (js "INBOX/note.MD") = true) as H by reflexivity.
    rewrite forallb_forall in H. by apply H, list_elem_of_In.
  - unfold db. rewrite (Hother (js "inbox/other.md")).
    + vm_compute. reflexivity.
    + apply Forall_forall. intros c Hc.
      assert (forallb is_ascii_unit (js "inbox/other.md") = true) as H
          by reflexivity.
      rewrite forallb_forall in H. by apply H, list_elem_of_In.
    + vm_compute. discriminate.
Defined.

Lemma elem_of_listNotes (db : database) (q : jsstring) :
  q ∈ listNotes db
  <-> exists id d, db !! id = Some d /\ is_note_row id = true /\ doc_path d = q.
Proof.
  unfold listNotes. rewrite list_elem_of_In, in_map_iff. split.
  - intros ([id d] & Hq & Hin). apply filter_In in Hin as [Hin Hrow].
    apply list_elem_of_In, elem_of_map_to_list in Hin. by exists id, d.
  - intros (id & d & Hd & Hrow & Hq). exists (id, d). split; [done|].
    apply filter_In. split; [|done].
    by apply list_elem_of_In, elem_of_map_to_list.
Qed.

(** X3. A delete is a soft delete: the document stays in the database. The
    deleted note is still listed by [listNotes], it is still read, with
    empty content, and no note at another id is touched (for paths of
    ASCII text, whose ids the model computes as the program does). *)
Theorem deleteNote_keeps_the_document (e : env) (db db' : database)
        (p : jsstring) :
  deleteNote e db p = Ok db' ->
  same_listing db db'
  /\ (forall f, readNote db p = Ok (Some f) ->
                readNote db' p = Ok (Some (mkNoteFile (file_path f) [])))
  /\ (forall q, ascii_text p -> ascii_text q -> pathToId q <> pathToId p ->
                readNote db' q = readNote db q).
Proof.
  intros (d & Hd & ->)%deleteNote_Ok. split; [|split].
  - intros q. rewrite !elem_of_listNotes. split.
    + intros (id & d' & Hl & Hrow & Hq).
      destruct (decide (id = pathToId p)) as [->|Hne].
      * rewrite lookup_insert_eq in Hl. injection Hl as <-.
        by exists (pathToId p), d.
      * rewrite lookup_insert_ne in Hl by done. by exists id, d'.
    + intros (id & d' & Hl & Hrow & Hq).
      destruct (decide (id = pathToId p)) as [->|Hne].
      * exists (pathToId p), (tombstone d). rewrite lookup_insert_eq.
        split; [done|]. split; [done|]. simpl. congruence.
      * exists id, d'. by rewrite lookup_insert_ne.
  - intros f. unfold readNote. rewrite Hd, lookup_insert_eq. simpl.
    destruct (doc_encrypted d); [done|]. by intros [= <-].
  - intros q _ _ Hq. unfold readNote. by rewrite lookup_insert_ne.
Qed.

Lemma deleteNote_keeps_the_document_witness :
  let db := store_of [(js "inbox/a.md", js "text")] in
  exists db',
    deleteNote sample_env db (js "inbox/a.md") = Ok db'
    /\ same_listing db db'
    /\ readNote db' (js "inbox/a.md") = Ok (Some (mkNoteFile (js "inbox/a.md") [])).
Proof.
  intros db.
  destruct (deleteNote sample_env db (js "inbox/a.md")) as [db'|err] eqn:E;
    [|vm_compute in E; discriminate].
  exists db'. split; [reflexivity|].
  destruct (deleteNote_keeps_the_document sample_env db db' (js "inbox/a.md") E)
    as (Hl & Hr & _).
  split; [exact Hl|]. apply (Hr (mkNoteFile (js "inbox/a.md") (js "text"))).
  vm_compute. reflexivity.
Defined.

(** * Further properties of filing *)

Lemma span_until_app (c : N) (a b : jsstring) :
  Forall (fun d => d <> c) a -> Path.span_until c (a ++ c :: b) = (a, c :: b).
Proof.
  induction 1 as [|d a Hd _ IH]; simpl.
  - by rewrite N.eqb_refl.
  - apply N.eqb_neq in Hd. by rewrite Hd, IH.
Qed.

(** The base name of a path that ends in a slash-free, non-empty name. *)
Lemma basename_in_folder (dir name : jsstring) :
  name <> [] -> Forall (fun c => c <> Path.slash) name ->
  Path.basename (dir ++ [Path.slash] ++ name) = name.
Proof.
  intros Hne Hname. unfold Path.basename.
  rewrite !rev_app_distr. simpl. rewrite <- app_assoc. simpl.
  assert (Forall (fun c => c <> Path.slash) (rev name)) as Hrev.
  { apply Forall_forall. intros c Hc%list_elem_of_In%in_rev%list_elem_of_In.
    by eapply Forall_forall in Hname. }
  assert (Path.drop_slashes (rev name ++ Path.slash :: rev dir)
          = rev name ++ Path.slash :: rev dir) as ->.
  { destruct (rev name) as [|c r] eqn:E.
    - apply (f_equal (@rev N)) in E. rewrite rev_involutive in E. done.
    - simpl. inversion Hrev as [|? ? Hc _]; subst.
      unfold Path.is_slash. apply N.eqb_neq in Hc. by rewrite Hc. }
  rewrite span_until_app by done. simpl. apply rev_involutive.
Qed.

(** X4. Queueing a note that already sits in the review queue empties it.
    The queue path of such a note is its own path, so the call writes the
    marked note there and then deletes the original at the same path:
    the note is reported as queued, and what is left in the store is the
    deleted document with empty content. *)
Theorem requeued_note_is_emptied (e : env) (w : world) (n : note)
        (o : file_options) (name : jsstring) :
  dryRun o = false ->
  low_confidence n (minConfidence o) ->
  path n = review_queue ++ name ->
  name <> [] -> Forall (fun c => c <> Path.slash) name ->
  (exists d, snd (fileNote e w n o) = Ok d
             /\ d_action d = Queued /\ d_targetPath d = Some (path n))
  /\ vault (fst (fileNote e w n o)) !! pathToId (path n)
     = Some (mkDoc (path n) [] true false)
  /\ readNote (vault (fst (fileNote e w n o))) (path n)
     = Ok (Some (mkNoteFile (path n) [])).
Proof.
  intros Hdry (c & Hc & Hlt) Hpath Hne Hname.
  assert (queue_path n = path n) as Hq.
  { unfold queue_path. rewrite Hpath. f_equal.
    by apply (basename_in_folder (js "inbox/review-queue")). }
  unfold fileNote. fold (effectiveConfidence n). rewrite Hc, Hlt.
  unfold queueForReview. cbv zeta. fold (queue_path n).
  rewrite Hdry, Hq.
  match goal with |- context [writeNote (vault w) (path n) ?u] =>
    set (upd := u) end.
  rewrite (deleteNote_present e _ (path n) _ (writeNote_lookup (vault w) (path n) upd)).
  cbn [fst snd]. rewrite ?vault_trackOperation_detached. cbn [vault with_vault].
  split; [by eexists|].
  assert (<[pathToId (path n):=tombstone (mkDoc (path n) (sanitizeUnicode upd) false false)]>
            (writeNote (vault w) (path n) upd) !! pathToId (path n)
          = Some (mkDoc (path n) [] true false)) as Hl.
  { by rewrite lookup_insert_eq. }
  split; [done|]. unfold readNote. by rewrite Hl.
Qed.

Lemma requeued_note_is_emptied_witness :
  let n := note_of (js "inbox/review-queue/idea.md") low_note in
  let o := mkFileOptions default_minConfidence false first_session in
  let w := world_of [(js "inbox/review-queue/idea.md", low_note)] in
  readNote (vault w) (path n)
  = Ok (Some (mkNoteFile (js "inbox/review-queue/idea.md") low_note))
  /\ readNote (vault (fst (fileNote sample_env w n o))) (path n)
     = Ok (Some (mkNoteFile (path n) [])).
Proof.
  intros n o w. split; [vm_compute; reflexivity|].
  refine (proj2 (proj2 (requeued_note_is_emptied sample_env w n o (js "idea.md")
                          eq_refl _ eq_refl _ _))).
  - exists (Fin three_tenths). split; vm_compute; reflexivity.
  - discriminate.
  - repeat (constructor; [discriminate|]). constructor.
Defined.

(** X5. The preview of a dry run and the real run can name different
    paths. When the target and its suffixed names up to [k - 1] are taken
    and suffix [k] is free, the dry run previews suffix 1, which is taken,
    and the real run files under suffix [k]. *)
Theorem dry_run_previews_first_suffix (db : database) (t : jsstring) (k : N) :
  (2 <= k <= 99)%N ->
  (forall j, (j < k)%N -> occupied db (candidate t j)) ->
  readNote db (candidate t k) = Ok None ->
  resolveCollision db t true = Ok (candidate t 1)
  /\ resolveCollision db t false = Ok (candidate t k)
  /\ candidate t 1 <> candidate t k.
Proof.
  intros Hk Hocc Hfree. split; [|split].
  - unfold resolveCollision.
    destruct (Hocc 0%N ltac:(lia)) as [f Hf]. change (candidate t 0) with t in Hf.
    by rewrite Hf.
  - apply resolveCollision_first_free; [lia|done..].
  - intros Heq. destruct (Hocc 1%N ltac:(lia)) as [f Hf].
    rewrite Heq, Hfree in Hf. discriminate.
Qed.

(** * Sorting and enumeration *)

Lemma insert_sorted_Permutation {A} (cmp : A -> A -> jsnum) (x : A) (l : list A) :
  insert_sorted cmp x l ≡ₚ x :: l.
Proof.
  induction l as [|y l IH]; cbn [insert_sorted]; [done|].
  destruct (num_ltb _ _); [|done]. rewrite IH. apply Permutation_swap.
Qed.

Lemma sort_Permutation {A} (cmp : A -> A -> jsnum) (l : list A) :
  sort cmp l ≡ₚ l.
Proof.
  unfold sort. induction l as [|x l IH]; cbn [foldr]; [done|].
  by rewrite insert_sorted_Permutation, IH.
Qed.

Section Sorted.

Context {A : Type} (cmp : A -> A -> jsnum) (key : A -> Z) (P : A -> Prop).

Hypothesis cmp_key :
  forall x y, P x -> P y ->
              (num_ltb (Fin 0) (cmp x y) = true <-> (key x < key y)%Z).

Let descending := StronglySorted (fun a b => (key b <= key a)%Z).

Lemma insert_sorted_descending (x : A) (l : list A) :
  P x -> Forall P l -> descending l -> descending (insert_sorted cmp x l).
Proof.
  intros Hx Hl Hs. induction Hs as [|y l Hs IH Hy]; cbn [insert_sorted].
  - repeat constructor.
  - apply Forall_cons in Hl as [Hpy Hl].
    destruct (num_ltb (Fin 0) (cmp x y)) eqn:E.
    + apply cmp_key in E; [|done..]. constructor; [by apply IH|].
      rewrite insert_sorted_Permutation. constructor; [lia|done].
    + assert (~ (key x < key y)%Z) as Hge.
      { intros Hlt. apply cmp_key in Hlt; [|done..]. congruence. }
      constructor; [by constructor|].
      constructor; [lia|]. eapply Forall_impl; [exact Hy|].
      simpl. intros z Hz. lia.
Qed.

Lemma sort_descending (l : list A) : Forall P l -> descending (sort cmp l).
Proof.
  unfold sort. induction 1 as [|x l Hx Hl IH]; cbn [foldr]; [constructor|].
  apply insert_sorted_descending; [done| |done].
  eapply Permutation_Forall; [|exact Hl]. symmetry. apply sort_Permutation.
Qed.

End Sorted.

Lemma insert_by_index_Permutation {A} (n : N) (kv : jsstring * A)
      (l : list (N * (jsstring * A))) :
  insert_by_index n kv l ≡ₚ (n, kv) :: l.
Proof.
  induction l as [|[m kv'] l IH]; simpl; [done|].
  destruct (n <? m)%N; [done|]. rewrite IH. apply Permutation_swap.
Qed.

Lemma entries_Permutation {A} (o : list (jsstring * A)) : entries o ≡ₚ o.
Proof.
  unfold entries.
  assert (forall acc,
             List.map snd (fold_left add_indexed o acc)
             ≡ₚ List.map snd acc
                ++ List.filter (fun kv => bool_decide (is_Some (array_index (fst kv)))) o)
    as Hacc.
  { induction o as [|kv o IH]; intros acc; simpl.
    - by rewrite List.app_nil_r.
    - rewrite IH. unfold add_indexed.
      destruct (array_index (fst kv)) as [n|] eqn:E.
      + rewrite bool_decide_eq_true_2 by (by eexists).
        rewrite insert_by_index_Permutation. simpl.
        by rewrite Permutation_middle.
      + rewrite bool_decide_eq_false_2; [done|]. by intros [? ?]. }
  rewrite Hacc. simpl. clear Hacc.
  induction o as [|kv o IH]; simpl; [done|].
  destruct (bool_decide _); simpl.
  - by rewrite IH.
  - by rewrite <- Permutation_middle, IH.
Qed.

Lemma most_recent_first_positive (a b : jsstring * session) :
  num_ltb (Fin 0) (most_recent_first a b) = true
  <-> (startTime (snd a) < startTime (snd b))%Z.
Proof.
  unfold most_recent_first, num_ltb, Qltb. simpl.
  rewrite Z.ltb_lt. lia.
Qed.

Lemma sort_most_recent_first (l : list (jsstring * session)) :
  StronglySorted (fun a b => (startTime (snd b) <= startTime (snd a))%Z)
                 (sort most_recent_first l).
Proof.
  apply (sort_descending most_recent_first (fun kv => startTime (snd kv))
                         (fun _ => True)).
  - intros x y _ _. apply most_recent_first_positive.
  - by apply Forall_forall.
Qed.

(** * Further properties of the ledger *)

(** X6. [saveHistory] writes at most a hundred sessions, all of them
    sessions it was given; a history of a hundred sessions or fewer is
    written as it is, and a session is dropped only if it started no
    later than every session kept. *)
Theorem saveHistory_keeps_the_most_recent (h : sessions) :
  (length (saveHistory h) <= 100)%nat
  /\ (forall kv, kv ∈ saveHistory h -> kv ∈ h)
  /\ ((length h <= 100)%nat -> saveHistory h = h)
  /\ (forall kept dropped,
         kept ∈ saveHistory h -> dropped ∈ h -> dropped ∉ saveHistory h ->
         (startTime (snd dropped) <= startTime (snd kept))%Z).
Proof.
  unfold saveHistory.
  destruct (100 <? length h)%nat eqn:E.
  - set (sorted := sort most_recent_first (entries h)).
    assert (sorted ≡ₚ h) as Hperm.
    { unfold sorted. by rewrite sort_Permutation, entries_Permutation. }
    split; [rewrite length_take; lia|]. split; [|split].
    + intros kv Hkv. rewrite <- Hperm.
      rewrite <- (take_drop 100 sorted). apply elem_of_app. by left.
    + apply Nat.ltb_lt in E. lia.
    + intros kept dropped Hk Hd Hnot.
      rewrite <- Hperm, <- (take_drop 100 sorted) in Hd.
      apply elem_of_app in Hd as [Hd|Hd]; [done|].
      pose proof (sort_most_recent_first (entries h)) as Hs.
      fold sorted in Hs. rewrite <- (take_drop 100 sorted) in Hs.
      apply (StronglySorted_app_1_elem_of _ _ _ _ _ Hs Hk Hd).
  - apply Nat.ltb_ge in E. repeat split; try done.
Qed.

Lemma saveHistory_subset (h : sessions) (kv : jsstring * session) :
  kv ∈ saveHistory h -> kv ∈ h.
Proof.
  unfold saveHistory. destruct (100 <? length h)%nat; [|done].
  intros Hkv%elem_of_take. destruct Hkv as (i & Hkv & _).
  apply list_elem_of_lookup_2 in Hkv.
  by rewrite sort_Permutation, entries_Permutation in Hkv.
Qed.

Lemma saveHistory_small (h : sessions) :
  (length h <= 100)%nat -> saveHistory h = h.
Proof.
  intros H. unfold saveHistory.
  destruct (100 <? length h)%nat eqn:E; [|done]. apply Nat.ltb_lt in E. lia.
Qed.

Lemma undo_each_report (e : env) (ops : list operation) :
  forall db r,
    ur_undone r = count_status Undone (ur_details r) ->
    ur_failed r = count_status UndoFailed (ur_details r) ->
    let r' := snd (undo_each e db ops r) in
    ur_sessionId r' = ur_sessionId r
    /\ ur_undone r' = count_status Undone (ur_details r')
    /\ ur_failed r' = count_status UndoFailed (ur_details r')
    /\ List.map (fun d => (ud_action d, ud_path d)) (ur_details r')
       = List.map (fun d => (ud_action d, ud_path d)) (ur_details r)
           ++ List.map (fun op => (action op, originalPath op)) ops.
Proof.
  induction ops as [|op ops IH]; intros db r Hu Hf; simpl.
  - by rewrite List.app_nil_r.
  - destruct (undoOperation e db op) as [db' [[]|err]].
    + match goal with |- context [undo_each e db' ops ?r1] =>
        destruct (IH db' r1) as (H1 & H2 & H3 & H4) end.
      { simpl. unfold count_status in *. rewrite List.filter_app, length_app.
        simpl. lia. }
      { simpl. unfold count_status in *. rewrite List.filter_app, length_app.
        simpl. lia. }
      rewrite H1, H2, H3, H4. simpl. rewrite List.map_app. simpl.
      by rewrite <- app_assoc.
    + match goal with |- context [undo_each e db' ops ?r1] =>
        destruct (IH db' r1) as (H1 & H2 & H3 & H4) end.
      { simpl. unfold count_status in *. rewrite List.filter_app, length_app.
        simpl. lia. }
      { simpl. unfold count_status in *. rewrite List.filter_app, length_app.
        simpl. lia. }
      rewrite H1, H2, H3, H4. simpl. rewrite List.map_app. simpl.
      by rewrite <- app_assoc.
Qed.

Lemma count_status_total (ds : list undo_detail) :
  (count_status Undone ds + count_status UndoFailed ds = length ds)%nat.
Proof.
  unfold count_status. induction ds as [|d ds IH]; simpl; [done|].
  destruct (ud_status d); simpl; lia.
Qed.

(** X7. [undoLastFiling] attempts every operation of the session, last
    one first, whatever happens to the others: the result has one detail
    per operation, in reverse order, and its two counters count the
    details by status. The session is marked as undone however many of its
    operations failed, and the learning data is not touched. *)
Theorem undoLastFiling_attempts_every_operation (e : env) (w : world)
        (sid : jsstring) (h : sessions) (s : session) :
  loadHistory (history w) = Ok h ->
  get sid h = Own s ->
  exists w' r,
    undoLastFiling e w sid = (w', Ok r)
    /\ ur_sessionId r = sid
    /\ List.map (fun d => (ud_action d, ud_path d)) (ur_details r)
       = List.map (fun op => (action op, originalPath op)) (rev (operations s))
    /\ ur_undone r = count_status Undone (ur_details r)
    /\ ur_failed r = count_status UndoFailed (ur_details r)
    /\ (ur_undone r + ur_failed r = length (operations s))%nat
    /\ history w'
       = Stored (saveHistory
                   (put_own sid (mkSession (startTime s) (operations s) true
                                           (Some (now e))) h))
    /\ learning w' = learning w.
Proof.
  intros Hh Hs. unfold undoLastFiling. rewrite Hh, Hs.
  pose proof (undo_each_report e (rev (operations s)) (vault w)
                (mkUndoResults sid 0 0 []) eq_refl eq_refl) as Hrep.
  destruct (undo_each e (vault w) (rev (operations s)) (mkUndoResults sid 0 0 []))
    as [db r]. simpl in Hrep. destruct Hrep as (H1 & H2 & H3 & H4).
  eexists _, r. split; [reflexivity|]. simpl.
  repeat split; try done.
  rewrite H2, H3, count_status_total.
  rewrite <- (length_map (fun d => (ud_action d, ud_path d))), H4.
  by rewrite length_map, length_rev.
Qed.

Lemma put_own_key {A} (k : jsstring) (v : A) (o : list (jsstring * A))
      (kv : jsstring * A) :
  one_value_per_key o -> kv ∈ put_own k v o -> fst kv = k -> kv = (k, v).
Proof.
  unfold one_value_per_key. induction o as [|[k' v'] o IH]; simpl.
  - intros _ Hin%list_elem_of_singleton. done.
  - intros [Hnotin Hnd]%NoDup_cons Hin Hk.
    destruct (str_eqb k k') eqn:E.
    + apply str_eqb_eq in E as <-.
      apply elem_of_cons in Hin as [->|Hin]; [done|].
      exfalso. apply Hnotin. apply list_elem_of_fmap. by exists kv.
    + apply str_eqb_neq in E.
      apply elem_of_cons in Hin as [->|Hin]; [simpl in Hk; congruence|].
      by apply IH.
Qed.

Lemma getRecentSessions_elem (f : file sessions) (limit : nat) (h : sessions)
      (l : list recent_session) (r : recent_session) :
  loadHistory f = Ok h -> getRecentSessions f limit = Ok l -> r ∈ l ->
  exists kv, kv ∈ h /\ undone (snd kv) = false /\ r = summary kv.
Proof.
  intros Hh. unfold getRecentSessions. rewrite Hh. simpl. intros [= <-] Hr.
  apply list_elem_of_In, in_map_iff in Hr as (kv & <- & Hkv).
  exists kv. split; [|split; [|done]].
  - apply list_elem_of_In, elem_of_take in Hkv as (i & Hkv & _).
    apply list_elem_of_lookup_2 in Hkv. rewrite sort_Permutation in Hkv.
    apply list_elem_of_In, filter_In in Hkv as [Hkv _].
    apply list_elem_of_In in Hkv. by rewrite entries_Permutation in Hkv.
  - apply list_elem_of_In, elem_of_take in Hkv as (i & Hkv & _).
    apply list_elem_of_lookup_2 in Hkv. rewrite sort_Permutation in Hkv.
    apply list_elem_of_In, filter_In in Hkv as [_ Hkv].
    by destruct (undone (snd kv)).
Qed.

Lemma undoLastFiling_Ok (e : env) (w w' : world) (sid : jsstring)
      (h : sessions) (r : undo_results) :
  loadHistory (history w) = Ok h ->
  undoLastFiling e w sid = (w', Ok r) ->
  exists s,
    get sid h = Own s
    /\ history w'
       = Stored (saveHistory
                   (put_own sid (mkSession (startTime s) (operations s) true
                                           (Some (now e))) h)).
Proof.
  intros Hh Hundo. unfold undoLastFiling in Hundo. rewrite Hh in Hundo.
  destruct (get sid h) as [s| |] eqn:Hs; try by inversion Hundo.
  destruct (undo_each _ _ _ _) as [db r1]. injection Hundo as <- <-.
  by exists s.
Qed.

(** In a history with one session per id, a session saved as undone is
    not among the sessions [getRecentSessions] reports. *)
Lemma marked_session_is_not_listed (h : sessions) (sid : jsstring)
      (s : session) (limit : nat) (l : list recent_session) :
  one_value_per_key h -> undone s = true ->
  getRecentSessions (Stored (saveHistory (put_own sid s h))) limit = Ok l ->
  Forall (fun rs => rs_sessionId rs <> sid) l.
Proof.
  intros Hnd Hs Hrecent. apply Forall_forall. intros rs Hrs Hid.
  destruct (getRecentSessions_elem
              (Stored (saveHistory (put_own sid s h))) limit
              (saveHistory (put_own sid s h)) l rs eq_refl Hrecent Hrs)
    as (kv & Hkv & Hopen & ->).
  apply saveHistory_subset in Hkv.
  apply (put_own_key _ _ _ _ Hnd) in Hkv; [|done].
  subst kv. simpl in Hopen. congruence.
Qed.

(** X8. Once a session has been undone, [getRecentSessions] no longer
    offers it, in a history that holds one session per id. *)
Theorem undone_session_is_not_offered (e : env) (w w' : world)
        (sid : jsstring) (h : sessions) (r : undo_results) (limit : nat)
        (l : list recent_session) :
  loadHistory (history w) = Ok h ->
  one_value_per_key h ->
  undoLastFiling e w sid = (w', Ok r) ->
  getRecentSessions (history w') limit = Ok l ->
  Forall (fun rs => rs_sessionId rs <> sid) l.
Proof.
  intros Hh Hnd Hundo Hrecent.
  destruct (undoLastFiling_Ok e w w' sid h r Hh Hundo) as (s & _ & Hw').
  rewrite Hw' in Hrecent.
  eapply (marked_session_is_not_listed h sid _ limit l Hnd); [|exact Hrecent].
  reflexivity.
Qed.

(** The sessions that are not undone, most recent first, cut at
    [limit]: what is cut off started no later than what is kept. *)
Lemma most_recent_open_sessions (h : sessions) (limit : nat) :
  let listed := take limit (sort most_recent_first (open_sessions h)) in
  (length listed <= limit)%nat
  /\ Forall (fun kv => kv ∈ h /\ undone (snd kv) = false) listed
  /\ StronglySorted (fun a b => (startTime (snd b) <= startTime (snd a))%Z) listed
  /\ (forall kv, kv ∈ h -> undone (snd kv) = false ->
                 kv ∈ listed
                 \/ length listed = limit
                    /\ Forall (fun k => (startTime (snd kv) <= startTime (snd k))%Z)
                              listed).
Proof.
  intros listed. set (sorted := sort most_recent_first (open_sessions h)).
  pose proof (sort_most_recent_first (open_sessions h)) as Hs. fold sorted in Hs.
  assert (forall kv, kv ∈ sorted <-> kv ∈ h /\ undone (snd kv) = false) as Hin.
  { intros kv. unfold sorted, open_sessions. rewrite sort_Permutation.
    rewrite list_elem_of_In, filter_In, <- list_elem_of_In.
    rewrite entries_Permutation. by destruct (undone (snd kv)); intuition. }
  split; [|split; [|split]].
  - unfold listed. rewrite length_take. lia.
  - apply Forall_forall. intros kv Hkv. apply Hin.
    fold sorted in listed. rewrite <- (take_drop limit sorted).
    apply elem_of_app. by left.
  - rewrite <- (take_drop limit sorted) in Hs.
    by apply StronglySorted_app_1_l in Hs.
  - intros kv Hkv Hopen.
    assert (kv ∈ sorted) as Hk by by apply Hin.
    rewrite <- (take_drop limit sorted) in Hk.
    apply elem_of_app in Hk as [Hk|Hk]; [by left|right].
    unfold listed. rewrite length_take. fold sorted.
    assert (limit < length sorted)%nat as Hlen.
    { destruct (decide (limit < length sorted)%nat); [done|].
      rewrite drop_ge in Hk by lia. by apply elem_of_nil in Hk. }
    split; [lia|]. apply Forall_forall. intros k Hkin.
    rewrite <- (take_drop limit sorted) in Hs.
    apply (StronglySorted_app_1_elem_of _ _ _ _ _ Hs Hkin Hk).
Qed.

Lemma getRecentSessions_listed (f : file sessions) (h : sessions) (limit : nat) :
  loadHistory f = Ok h ->
  getRecentSessions f limit
  = Ok (List.map summary (take limit (sort most_recent_first (open_sessions h)))).
Proof. intros Hh. unfold getRecentSessions. by rewrite Hh. Qed.

(** X9. [getRecentSessions] reports sessions of the history that are not
    marked as undone, at most [limit] of them, the most recently started
    first; a session that is not undone and not reported started no
    later than every session reported, and then the list is full. *)
Theorem getRecentSessions_offers_the_most_recent (f : file sessions)
        (h : sessions) (limit : nat) :
  loadHistory f = Ok h ->
  exists l,
    getRecentSessions f limit = Ok l
    /\ (length l <= limit)%nat
    /\ Forall (fun r => exists kv, kv ∈ h /\ undone (snd kv) = false
                                   /\ r = summary kv) l
    /\ StronglySorted (fun a b => (rs_startTime b <= rs_startTime a)%Z) l
    /\ (forall kv, kv ∈ h -> undone (snd kv) = false ->
                   summary kv ∈ l
                   \/ length l = limit
                      /\ Forall (fun r => (startTime (snd kv) <= rs_startTime r)%Z) l).
Proof.
  intros Hh. rewrite (getRecentSessions_listed f h limit Hh).
  destruct (most_recent_open_sessions h limit) as (H1 & H2 & H3 & H4).
  set (listed := take limit (sort most_recent_first (open_sessions h))) in *.
  exists (List.map summary listed). split; [done|].
  split; [by rewrite length_map|]. split; [|split].
  - apply Forall_forall. intros r Hr.
    apply list_elem_of_fmap in Hr as (kv & -> & Hkv).
    eapply Forall_forall in H2 as [? ?]; [|done]. by exists kv.
  - clear -H3. induction H3 as [|a t Ht IH Ha]; simpl; constructor; [done|].
    apply Forall_forall. intros r Hr.
    apply list_elem_of_fmap in Hr as (b & -> & Hb).
    eapply Forall_forall in Ha; [|done]. done.
  - intros kv Hkv Hopen. destruct (H4 kv Hkv Hopen) as [Hin|[Hlen Hall]].
    + left. apply list_elem_of_fmap. by exists kv.
    + right. rewrite length_map. split; [done|].
      apply Forall_forall. intros r Hr.
      apply list_elem_of_fmap in Hr as (b & -> & Hb).
      eapply Forall_forall in Hall; [|done]. done.
Qed.

(** X10. Undoing an operation whose target is no longer in the store
    still restores the original note. Whether the operation then counts
    as undone depends on the text of the driver's not-found error alone:
    it does when that text contains [404], and otherwise the not-found
    error is raised. *)
Theorem undoOperation_when_target_is_gone (e : env) (db : database)
        (op : operation) :
  action op = js "file" \/ action op = js "queue" ->
  db !! pathToId (targetPath op) = None ->
  pathToId (targetPath op) <> pathToId (originalPath op) ->
  fst (undoOperation e db op)
  = writeNote db (originalPath op) (originalContent op)
  /\ snd (undoOperation e db op)
     = if includes (not_found_message e) (js "404") then Ok tt
       else Throw (not_found e).
Proof.
  intros Ha Hgone Hne. unfold undoOperation.
  assert (str_eqb (action op) (js "file") || str_eqb (action op) (js "queue")
          = true) as ->.
  { destruct Ha as [-> | ->]; reflexivity. }
  unfold deleteNote. rewrite writeNote_lookup_ne, Hgone by done.
  simpl. by destruct (includes _ _).
Qed.

(** X11. A first operation tracked under a fresh id in a cleared history
    opens a session that [getRecentSessions] reports at once, with the
    clock's time as its start, one operation, and that operation's
    action. *)
Theorem tracked_session_is_offered (e : env) (f : file sessions)
        (sid : jsstring) (op : operation) (limit : nat) :
  inherited sid = false ->
  exists h,
    trackOperation e (clearHistory f) sid op = Ok h
    /\ getRecentSessions (Stored h) (S limit)
       = Ok [mkRecent sid (now e) 1 [action op]]
    /\ getSession (Stored h) sid
       = Ok (Some (sid, Some (mkSession (now e) [op] false None))).
Proof.
  intros Hsid. unfold trackOperation, clearHistory. simpl.
  unfold get. simpl. rewrite Hsid.
  assert (str_eqb sid (js "__proto__") = false) as Hproto.
  { apply str_eqb_neq. intros ->. discriminate. }
  unfold put. rewrite Hproto. simpl. eexists. split; [reflexivity|].
  split.
  - unfold getRecentSessions. simpl. unfold entries, add_indexed. simpl.
    destruct (array_index sid); simpl; by rewrite take_nil.
  - unfold getSession. simpl. unfold get. simpl. by rewrite str_eqb_refl.
Qed.

(** * Further properties of the learner *)

Lemma Qred_integer (z : Z) : Qred (z # 1) = (z # 1)%Q.
Proof.
  unfold Qred.
  pose proof (Z.ggcd_gcd z 1) as Hg.
  pose proof (Z.ggcd_correct_divisors z 1) as Hd.
  destruct (Z.ggcd z 1) as [g [a b]]. simpl in *.
  rewrite Z.gcd_1_r in Hg. subst g. destruct Hd as [Ha Hb].
  replace a with z by lia. replace b with 1%Z by lia. done.
Qed.

Lemma num_add_integers (a b : Z) :
  num_add (Fin (inject_Z a)) (Fin (inject_Z b)) = Fin (inject_Z (a + b)).
Proof.
  unfold num_add, inject_Z, Qplus. cbn [Qnum Qden].
  replace (a * Z.pos 1 + b * Z.pos 1)%Z with (a + b)%Z by lia.
  change (1 * 1)%positive with 1%positive. by rewrite Qred_integer.
Qed.

Lemma by_count_desc_integers (x y : jsstring * jsval) (a b : nat) :
  snd x = count_of a -> snd y = count_of b ->
  num_ltb (Fin 0) (by_count_desc x y) = true <-> (frequency x < frequency y)%Z.
Proof.
  intros Hx Hy. unfold by_count_desc, frequency. rewrite Hx, Hy.
  unfold count_of. cbn [toNumber]. unfold num_sub, num_neg.
  unfold inject_Z at 2. unfold Qopp. cbn [Qnum Qden].
  rewrite Qred_integer. change (- Z.of_nat a # 1)%Q with (inject_Z (- Z.of_nat a)).
  rewrite num_add_integers. unfold num_ltb, Qltb, inject_Z. cbn [Qnum Qden].
  rewrite Z.ltb_lt. lia.
Qed.

Lemma own_put_own_ne {A} (k k' : jsstring) (v : A) (o : list (jsstring * A)) :
  k' <> k -> own k' (put_own k v o) = own k' o.
Proof.
  intros Hne. induction o as [|[k0 v0] o IH]; simpl.
  - apply str_eqb_neq in Hne. by rewrite Hne.
  - destruct (str_eqb k k0) eqn:E; simpl.
    + apply str_eqb_eq in E as <-.
      apply str_eqb_neq in Hne. by rewrite Hne.
    + by rewrite IH.
Qed.

Lemma put_own_one_value_per_key {A} (k : jsstring) (v : A)
      (o : list (jsstring * A)) :
  one_value_per_key o -> one_value_per_key (put_own k v o).
Proof.
  unfold one_value_per_key. induction o as [|[k0 v0] o IH]; simpl.
  - intros _. apply NoDup_singleton.
  - intros [Hnotin Hnd]%NoDup_cons.
    destruct (str_eqb k k0) eqn:E; simpl.
    + apply str_eqb_eq in E as <-. by apply NoDup_cons.
    + apply NoDup_cons. split; [|by apply IH].
      intros Hin. apply list_elem_of_fmap in Hin as ([k1 v1] & Hk & Hin).
      simpl in Hk. subst k1.
      destruct (decide (k0 = k)) as [->|Hne].
      { by rewrite str_eqb_refl in E. }
      apply Hnotin. apply list_elem_of_fmap.
      assert (own k0 (put_own k v o) = own k0 o) as Ho by by apply own_put_own_ne.
      clear -Hin Hne.
      induction o as [|[k2 v2] o IH]; simpl in *.
      * apply list_elem_of_singleton in Hin. congruence.
      * destruct (str_eqb k k2) eqn:E2.
        -- apply elem_of_cons in Hin as [Hin|Hin]; [congruence|].
           exists (k0, v1). split; [done|]. by right.
        -- apply elem_of_cons in Hin as [Hin|Hin].
           ++ injection Hin as <- <-. exists (k0, v1). split; [done|]. by left.
           ++ destruct (IH Hin) as (kv & Hk & Hkv). exists kv. split; [done|].
              by right.
Qed.

Lemma own_elem_of {A} (k : jsstring) (v : A) (o : list (jsstring * A)) :
  one_value_per_key o -> (k, v) ∈ o -> own k o = Some v.
Proof.
  unfold one_value_per_key. induction o as [|[k0 v0] o IH]; simpl.
  - intros _ H. by apply elem_of_nil in H.
  - intros [Hnotin Hnd]%NoDup_cons Hin.
    apply elem_of_cons in Hin as [Hin|Hin].
    + injection Hin as <- <-. by rewrite str_eqb_refl.
    + destruct (str_eqb k k0) eqn:E; [|by apply IH].
      apply str_eqb_eq in E as <-. exfalso. apply Hnotin.
      apply list_elem_of_fmap. by exists (k, v).
Qed.

Lemma occurrences_snoc (w word : jsstring) (seen : list jsstring) :
  occurrences w (seen ++ [word])
  = (occurrences w seen + if str_eqb w word then 1 else 0)%nat.
Proof.
  unfold occurrences. rewrite List.filter_app, length_app. simpl.
  by destruct (str_eqb w word).
Qed.

Lemma inherited_proto (w : jsstring) :
  inherited w = false -> str_eqb w (js "__proto__") = false.
Proof. intros H. apply str_eqb_neq. intros ->. discriminate. Qed.

(** Without a word that names an inherited property, the frequency
    table holds each word once, with the number of its occurrences. *)
Lemma count_words_from (words seen : list jsstring)
      (freq : list (jsstring * jsval)) :
  Forall (fun w => inherited w = false) words ->
  one_value_per_key freq ->
  (forall w, own w freq = match occurrences w seen with
                          | O => None
                          | S k => Some (count_of (S k))
                          end) ->
  let freq' :=
    fold_left (fun freq word => put word (next_count freq word) freq) words freq in
  one_value_per_key freq'
  /\ forall w, own w freq' = match occurrences w (seen ++ words) with
                             | O => None
                             | S k => Some (count_of (S k))
                             end.
Proof.
  intros Hw. revert seen freq.
  induction Hw as [|word words Hword _ IH]; intros seen freq Hnd Hown.
  - simpl. rewrite List.app_nil_r. done.
  - cbn [fold_left]. cbv zeta.
    replace (seen ++ word :: words) with ((seen ++ [word]) ++ words)
      by (by rewrite <- app_assoc).
    apply IH.
    + unfold put. rewrite (inherited_proto _ Hword).
      by apply put_own_one_value_per_key.
    + intros w. unfold put. rewrite (inherited_proto _ Hword).
      rewrite occurrences_snoc.
      destruct (str_eqb w word) eqn:E.
      * apply str_eqb_eq in E as ->. rewrite own_put_own.
        unfold next_count, get. rewrite Hown, Hword.
        destruct (occurrences word seen) as [|k]; [done|].
        replace (S k + 1)%nat with (S (S k)) by lia.
        f_equal. unfold count_of.
        assert (truthy (VNum (Fin (inject_Z (Z.of_nat (S k))))) = true) as ->.
        { unfold truthy, num_truthy, inject_Z. cbn [Qnum].
          apply negb_true_iff, Z.eqb_neq. lia. }
        unfold js_plus, one. change (1 # 1)%Q with (inject_Z 1).
        rewrite num_add_integers. do 3 f_equal. lia.
      * apply str_eqb_neq in E. rewrite own_put_own_ne by done.
        rewrite Hown. by rewrite Nat.add_0_r.
Qed.

Lemma count_words_counts (words : list jsstring) :
  Forall (fun w => inherited w = false) words ->
  one_value_per_key (count_words words)
  /\ forall kv, kv ∈ count_words words ->
                fst kv ∈ words
                /\ snd kv = count_of (occurrences (fst kv) words).
Proof.
  intros Hw.
  destruct (count_words_from words [] [] Hw) as [Hnd Hown].
  { apply NoDup_nil_2. }
  { done. }
  simpl in Hown. split; [done|]. intros [w v] Hin. simpl.
  pose proof (own_elem_of _ _ _ Hnd Hin) as Ho. unfold count_words in Ho.
  rewrite Hown in Ho. split.
  - apply list_elem_of_In. apply (count_words_keys words (w, v)).
    by apply list_elem_of_In.
  - destruct (occurrences w words); [done|]. by injection Ho as <-.
Qed.

Lemma frequency_count_of (kv : jsstring * jsval) (k : nat) :
  snd kv = count_of k -> frequency kv = Z.of_nat k.
Proof. unfold frequency. by intros ->. Qed.

Lemma extractKeywords_distinct (content : jsstring) :
  Forall (fun w => inherited w = false) (clean_words content) ->
  NoDup (extractKeywords content)
  /\ Forall (fun w => inherited w = false) (extractKeywords content).
Proof.
  intros Hw. split.
  - unfold extractKeywords.
    destruct (count_words_counts _ Hw) as [Hnd _].
    set (sorted := sort by_count_desc (entries (count_words (clean_words content)))).
    assert (NoDup (List.map fst sorted)) as Hnd'.
    { unfold one_value_per_key in Hnd.
      eapply NoDup_Permutation_proper; [|exact Hnd].
      apply fmap_Permutation. unfold sorted.
      by rewrite sort_Permutation, entries_Permutation. }
    rewrite <- (take_drop 20 (List.map fst sorted)) in Hnd'.
    by apply NoDup_app in Hnd' as [Hnd' _].
  - apply Forall_forall. intros w Hin%list_elem_of_In%extractKeywords_words.
    eapply Forall_forall in Hw; [done|]. by apply list_elem_of_In.
Qed.

(** X12. For a text none of whose words names a property that objects
    inherit, [extractKeywords] returns distinct words of the text, the
    more frequent first; a word left out occurs no more often than any
    word returned, and then twenty words are returned. *)
Theorem extractKeywords_by_descending_frequency (content : jsstring) :
  let words := clean_words content in
  Forall (fun w => inherited w = false) words ->
  NoDup (extractKeywords content)
  /\ Forall (fun w => w ∈ words) (extractKeywords content)
  /\ StronglySorted (fun a b => (occurrences b words <= occurrences a words)%nat)
                    (extractKeywords content)
  /\ (forall w, w ∈ words ->
                w ∈ extractKeywords content
                \/ length (extractKeywords content) = 20%nat
                   /\ Forall (fun k => (occurrences w words <= occurrences k words)%nat)
                             (extractKeywords content)).
Proof.
  intros words Hw. unfold extractKeywords. fold words.
  destruct (count_words_counts words Hw) as [Hnd Hcount].
  set (sorted := sort by_count_desc (entries (count_words words))).
  assert (sorted ≡ₚ count_words words) as Hperm.
  { unfold sorted. by rewrite sort_Permutation, entries_Permutation. }
  assert (StronglySorted (fun a b => (frequency b <= frequency a)%Z) sorted)
    as Hs.
  { apply (sort_descending by_count_desc frequency
             (fun kv => exists k, snd kv = count_of k)).
    - intros x y [a Ha] [b Hb]. by apply (by_count_desc_integers x y a b).
    - apply Forall_forall. intros kv Hkv. rewrite entries_Permutation in Hkv.
      eexists. by apply Hcount. }
  assert (forall kv, kv ∈ sorted ->
                     frequency kv = Z.of_nat (occurrences (fst kv) words))
    as Hfreq.
  { intros kv Hkv. rewrite Hperm in Hkv.
    apply frequency_count_of. by apply Hcount. }
  rewrite firstn_map.
  assert (forall kv, kv ∈ take 20 sorted -> kv ∈ sorted) as Htake.
  { intros kv Hkv. rewrite <- (take_drop 20 sorted). apply elem_of_app. by left. }
  split; [|split; [|split]].
  - assert (NoDup (List.map fst sorted)) as Hnd'.
    { unfold one_value_per_key in Hnd.
      eapply NoDup_Permutation_proper; [|exact Hnd].
      by apply fmap_Permutation. }
    rewrite <- (take_drop 20 sorted), List.map_app in Hnd'.
    by apply NoDup_app in Hnd' as [Hnd' _].
  - apply Forall_forall. intros w Hin.
    apply list_elem_of_fmap in Hin as (kv & -> & Hkv).
    apply Htake in Hkv. rewrite Hperm in Hkv. by apply Hcount.
  - rewrite <- (take_drop 20 sorted) in Hs.
    apply StronglySorted_app_1_l in Hs.
    pose proof Htake as Ht. clear Htake.
    generalize dependent (take 20 sorted). intros t Hin Ht.
    induction Hin as [|a t Hin IH Ha]; simpl; constructor.
    + apply IH. intros kv Hkv. apply Ht. by right.
    + apply Forall_forall. intros w Hwt.
      apply list_elem_of_fmap in Hwt as (b & -> & Hb).
      eapply Forall_forall in Ha; [|done].
      rewrite (Hfreq a), (Hfreq b) in Ha; [lia| |].
      * apply Ht. by right.
      * apply Ht. by left.
  - intros w Hin.
    assert (exists kv, kv ∈ sorted /\ fst kv = w) as (kv & Hkv & <-).
    { assert (own w (count_words words)
              = match occurrences w words with
                | O => None | S k => Some (count_of (S k)) end) as Ho.
      { destruct (count_words_from words [] [] Hw) as [_ Hown];
          [apply NoDup_nil_2|done|]. apply Hown. }
      assert (exists v, own w (count_words words) = Some v) as [v Hv].
      { rewrite Ho. destruct (occurrences w words) eqn:E; [|by eexists].
        exfalso. unfold occurrences in E.
        apply length_zero_iff_nil in E.
        assert (In w (List.filter (str_eqb w) words)) as Hf.
        { apply filter_In. split; [by apply list_elem_of_In|apply str_eqb_refl]. }
        rewrite E in Hf. done. }
      exists (w, v). split; [|done]. rewrite Hperm.
      clear -Hv. induction (count_words words) as [|[k0 v0] o IH]; [done|].
      simpl in Hv. destruct (str_eqb w k0) eqn:E.
      - apply str_eqb_eq in E as <-. injection Hv as <-. by left.
      - right. by apply IH. }
    rewrite <- (take_drop 20 sorted) in Hkv.
    apply elem_of_app in Hkv as [Hkv|Hkv].
    + left. apply list_elem_of_fmap. by exists kv.
    + right. rewrite length_map, length_take.
      assert (20 < length sorted)%nat as Hlen.
      { destruct (decide (20 < length sorted)%nat); [done|].
        rewrite drop_ge in Hkv by lia. by apply elem_of_nil in Hkv. }
      split; [lia|]. apply Forall_forall. intros k Hk.
      apply list_elem_of_fmap in Hk as (b & -> & Hb).
      pose proof Hs as Hs'. rewrite <- (take_drop 20 sorted) in Hs'.
      pose proof (StronglySorted_app_1_elem_of _ _ _ _ _ Hs' Hb Hkv) as Hle.
      simpl in Hle. rewrite (Hfreq kv), (Hfreq b) in Hle; [lia| |].
      * by apply Htake.
      * rewrite <- (take_drop 20 sorted). apply elem_of_app. by right.
Qed.

Lemma Qltb_lt (a b : Q) : Qltb a b = true <-> (a < b)%Q.
Proof. unfold Qltb, Qlt. apply Z.ltb_lt. Qed.

Lemma num_ltb_trans (a b c : jsnum) :
  num_ltb a b = true -> num_ltb b c = true -> num_ltb a c = true.
Proof.
  destruct a as [|[] |x], b as [|[] |y], c as [|[] |z]; simpl; try done.
  rewrite !Qltb_lt. apply Qlt_trans.
Qed.

Lemma positive_confidence (s : jsnum) :
  num_ltb (Fin 0) s = true ->
  let c := num_min (num_div s (Fin (Qmake 10 1))) one in
  in_unit_interval c = true /\ c <> Fin 0.
Proof.
  destruct s as [|[] |q]; simpl; try done.
  - rewrite Qltb_lt. intros Hq.
    assert (0 < Qred (q / (10 # 1)))%Q as Hc.
    { rewrite Qred_correct. apply Qlt_shift_div_l; [reflexivity|].
      by rewrite Qmult_0_l. }
    set (c := Qred (q / (10 # 1))) in *.
    unfold num_min, one, num_ltb.
    destruct (Qltb (1 # 1) c) eqn:E.
    + split; [reflexivity|discriminate].
    + split.
      * unfold in_unit_interval, num_leb, num_ltb.
        apply andb_true_iff. split; apply negb_true_iff.
        -- apply not_true_is_false. rewrite Qltb_lt. intros H.
           apply (Qlt_irrefl 0). by apply (Qlt_trans _ c).
        -- exact E.
      * intros [= Heq]. rewrite Heq in Hc. by apply Qlt_irrefl in Hc.
Qed.

Lemma In_fold_put {A B} (g : B -> A) (l : list (jsstring * B))
      (acc : list (jsstring * A)) (kv : jsstring * A) :
  In kv (fold_left (fun acc fp => put (fst fp) (g (snd fp)) acc) l acc) ->
  In kv acc \/ exists p, In (fst kv, p) l.
Proof.
  revert acc. induction l as [|[k p] l IH]; intros acc; simpl; [by left|].
  intros [Hin|(p' & Hp)]%IH.
  - unfold put in Hin. destruct (str_eqb k (js "__proto__")); [by left|].
    apply own_put_own_keys in Hin as [<-|Hin]; [|by left].
    right. exists p. by left.
  - right. exists p'. by right.
Qed.

(** X13. The confidence [getFolderHints] reports always lies between 0
    and 1; it is 0 exactly when no folder is suggested, and a suggested
    folder is one of the folders of the learning data, with a score above
    zero. *)
Theorem getFolderHints_confidence_range (f : file patterns)
        (content : jsstring) (h : hints) :
  getFolderHints f content = Ok h ->
  in_unit_interval (confidence h) = true
  /\ (suggestedFolder h = None <-> confidence h = Fin 0)
  /\ (forall folder,
         suggestedFolder h = Some folder ->
         exists data p score,
           loadLearningData f = Ok data /\ (folder, p) ∈ data
           /\ (folder, score) ∈ scores h /\ num_ltb (Fin 0) score = true).
Proof.
  unfold getFolderHints. destruct (loadLearningData f) as [data|err]; [|done].
  simpl. destruct data as [|fp0 data0].
  { intros [= <-]. simpl. split; [reflexivity|]. split; [done|]. done. }
  set (data := fp0 :: data0).
  set (kws := extractKeywords content).
  set (sc := fold_left (fun acc fp => put (fst fp) (folder_score kws (snd fp)) acc)
                       (entries data) []).
  assert (forall es best,
             (forall kv, In kv es -> In kv (entries sc)) ->
             (fst best = None /\ snd best = Fin 0
              \/ exists folder, fst best = Some folder
                                /\ num_ltb (Fin 0) (snd best) = true
                                /\ In (folder, snd best) (entries sc)) ->
             let best' :=
               fold_left (fun best fs =>
                            if num_ltb (snd best) (snd fs)
                            then (Some (fst fs), snd fs) else best) es best in
             fst best' = None /\ snd best' = Fin 0
             \/ exists folder, fst best' = Some folder
                               /\ num_ltb (Fin 0) (snd best') = true
                               /\ In (folder, snd best') (entries sc))
    as Hbest.
  { induction es as [|fs es IH]; intros best Hes Hb; [done|].
    cbn [fold_left]. apply IH.
    { intros kv Hkv. apply Hes. by right. }
    destruct (num_ltb (snd best) (snd fs)) eqn:E; [|done].
    right. exists (fst fs). split; [done|]. cbn [fst snd]. split.
    - destruct Hb as [[_ Hz]|(folder & _ & Hpos & _)].
      + by rewrite Hz in E.
      + by apply (num_ltb_trans _ (snd best)).
    - rewrite <- surjective_pairing. apply Hes. by left. }
  specialize (Hbest (entries sc) (None, Fin 0) (fun _ H => H)
                    (or_introl (conj eq_refl eq_refl))).
  cbv zeta in Hbest.
  destruct (fold_left _ (entries sc) (None, Fin 0)) as [bestFolder bestScore].
  intros [= <-]. cbn [confidence suggestedFolder scores]. cbn [fst snd] in Hbest.
  destruct Hbest as [[-> ->]|(folder & -> & Hpos & Hin)].
  - split; [reflexivity|]. split; [done|]. done.
  - destruct (positive_confidence bestScore Hpos) as [Hc Hnz].
    split; [exact Hc|]. split; [split; [done|]; intros Hz; by apply Hnz in Hz|].
    intros ? [= <-]. apply In_entries in Hin.
    destruct (In_fold_put _ _ _ _ Hin) as [[]|(p & Hp)].
    exists data, p, bestScore. split; [done|]. split; [|split; [|done]].
    + apply In_entries in Hp. by apply list_elem_of_In.
    + by apply list_elem_of_In.
Qed.

(** * Properties of the Telegram commands *)

Example parseInt_decimal : parseInt (js "42") = Fin (inject_Z 42).
Proof. reflexivity. Qed.
Example parseInt_prefix : parseInt (js " -12abc") = Fin (inject_Z (-12)).
Proof. reflexivity. Qed.
Example parseInt_hex : parseInt (js "0x1f") = Fin (inject_Z 31).
Proof. reflexivity. Qed.
Example parseInt_none : parseInt (js "limit") = NaN.
Proof. reflexivity. Qed.

Example parseArgs_pairs :
  parseArgs (js "limit=5 confidence=0.8")
  = [(js "limit", VStr (js "5")); (js "confidence", VStr (js "0.8"))].
Proof. reflexivity. Qed.
Example parseArgs_flag :
  parseArgs (js "DryRun  limit=10=x ")
  = [(js "dryrun", VBool true); (js "limit", VStr (js "10"))].
Proof. reflexivity. Qed.
Example parseArgs_empty : parseArgs (js "") = [].
Proof. reflexivity. Qed.

Lemma parseInt_integer (s : jsstring) :
  parseInt s = NaN \/ exists z, parseInt s = Fin (inject_Z z).
Proof.
  unfold parseInt. destruct (take_sign (trimStart s)) as [negative body].
  destruct (_ || _); destruct (span_radix _ _); eauto.
Qed.

Lemma requested_limit_integer (args : jsobject) :
  exists z, requested_limit args = Fin (inject_Z z).
Proof.
  unfold requested_limit.
  destruct (parseInt_integer (toString (arg args (js "limit"))))
    as [-> | [z ->]]; simpl.
  - by exists 10%Z.
  - destruct (negb (z =? 0)%Z); [by exists z|by exists 10%Z].
Qed.

Lemma fold_file_step_flags (e : env) (o : file_options) (notes : list note) :
  forall st,
    r_dryRun (snd (fold_left (file_step e o) notes st)) = r_dryRun (snd st)
    /\ r_sessionId (snd (fold_left (file_step e o) notes st)) = r_sessionId (snd st).
Proof.
  induction notes as [|n notes IH]; intros [w r]; [done|].
  cbn [fold_left].
  destruct (IH (file_step e o (w, r) n)) as [-> ->].
  unfold file_step. destruct (fileNote e w n o) as [w' [d|err]]; done.
Qed.

Lemma fileNotes_flags (e : env) (w w' : world) (o : options) (r : results) :
  fileNotes e w o = (w', Ok r) ->
  r_dryRun r = default false (opt_dryRun o)
  /\ r_sessionId r = effective_sessionId e o.
Proof.
  unfold fileNotes.
  destruct (getProcessedInboxNotes e (vault w)) as [[|n notes]|err]; [| |done].
  - by intros [= <- <-].
  - pose proof (fold_file_step_flags e (file_options_of e o)
                  (slice_to (n :: notes) (effective_limit o))
                  (w, empty_results e o)) as [H1 H2].
    destruct (fold_left _ _ _) as [w1 r1]. by intros [= <- <-].
Qed.

Lemma fileNotes_dry_world (e : env) (w : world) (o : options) :
  opt_dryRun o = Some true -> fst (fileNotes e w o) = w.
Proof.
  intros Hd.
  destruct (getProcessedInboxNotes e (vault w)) as [notes|err] eqn:En.
  - destruct (fileNotes_Forall2 (fun w' => w' = w) (fun _ => True)
                (fun _ _ => True) e w o notes) as (w' & r & -> & -> & _);
      try done.
    + intros w0 n -> _. split.
      * apply fileNote_dry_world. simpl. by rewrite Hd.
      * by case_match.
    + by apply Forall_forall.
  - unfold fileNotes. by rewrite En.
Qed.

Lemma fileNotes_processed (e : env) (w : world) (o : options) (r : results) :
  snd (fileNotes e w o) = Ok r ->
  exists notes,
    getProcessedInboxNotes e (vault w) = Ok notes
    /\ processed r = length (slice_to notes (effective_limit o)).
Proof.
  intros Hr.
  destruct (getProcessedInboxNotes e (vault w)) as [notes|err] eqn:En.
  - exists notes. split; [done|].
    destruct (fileNotes_Forall2 (fun _ => True) (fun _ => True)
                (fun _ _ => True) e w o notes) as (w' & r' & Hf & _ & Ht & HF);
      try done.
    + intros w0 n _ _. split; [done|]. by case_match.
    + by apply Forall_forall.
    + rewrite Hf in Hr. injection Hr as ->.
      destruct Ht as [-> _]. symmetry. by eapply Forall2_length.
  - unfold fileNotes in Hr. rewrite En in Hr. discriminate.
Qed.

Lemma length_slice_to_integer {A} (l : list A) (z : Z) :
  (0 <= z)%Z -> (Z.of_nat (length (slice_to l (Fin (inject_Z z)))) <= z)%Z.
Proof.
  intros Hz. unfold slice_to, inject_Z. cbn [Qnum Qden].
  rewrite Z.quot_1_r. destruct (z <? 0)%Z eqn:E; [apply Z.ltb_lt in E; lia|].
  rewrite length_take. lia.
Qed.

(** X14. Whatever its arguments, a [/file] command is either rejected
    with nothing changed, or runs one batch whose limit is a whole number
    from 1 to 100 and whose threshold lies between 0 and 1 or is no
    number: the batch then handles no more notes than the limit, and a
    failure of the batch becomes a reply. *)
Theorem handleFileCommand_bounds_the_batch (e : env) (w : world)
        (args : jsstring) :
  (fst (handleFileCommand e w args) = w
   /\ (snd (handleFileCommand e w args) = invalid_limit
       \/ snd (handleFileCommand e w args) = invalid_confidence))
  \/ exists (limit : Z) (threshold : jsnum) (dry : bool),
       (1 <= limit <= 100)%Z
       /\ (threshold = NaN \/ in_unit_interval threshold = true)
       /\ let o := mkOptions (Some (Fin (inject_Z limit))) (Some threshold)
                             (Some dry) None in
          fst (handleFileCommand e w args) = fst (fileNotes e w o)
          /\ match snd (fileNotes e w o) with
             | Ok r =>
                 snd (handleFileCommand e w args) = formatFilingResults r
                 /\ (Z.of_nat (processed r) <= limit)%Z
             | Throw err =>
                 snd (handleFileCommand e w args)
                 = cross_mark ++ js " Filing failed: " ++ message err
             end.
Proof.
  unfold handleFileCommand. cbv zeta.
  destruct (requested_limit_integer (parseArgs args)) as [limit Hl].
  rewrite Hl.
  destruct (num_ltb (Fin (inject_Z limit)) (Fin (Qmake 1 1))
            || num_ltb (Fin (Qmake 100 1)) (Fin (inject_Z limit))) eqn:El.
  { left. split; [done|]. by left. }
  set (threshold := requested_confidence (parseArgs args)).
  destruct (num_ltb threshold (Fin (Qmake 0 1))
            || num_ltb (Fin (Qmake 1 1)) threshold) eqn:Ec.
  { left. split; [done|]. by right. }
  right. exists limit, threshold, (requested_dryRun (parseArgs args)).
  apply orb_false_iff in El as [El1 El2], Ec as [Ec1 Ec2].
  assert (1 <= limit <= 100)%Z as Hrange.
  { unfold num_ltb, Qltb, inject_Z in El1, El2. cbn [Qnum Qden] in El1, El2.
    apply Z.ltb_ge in El1, El2. lia. }
  split; [done|]. split.
  { destruct threshold as [|b|q]; [by left|by destruct b|right].
    unfold in_unit_interval, num_leb. by rewrite Ec1, Ec2. }
  cbv zeta.
  destruct (fileNotes e w _) as [w' [r|err]] eqn:Ef; cbn [fst snd]; [|done].
  split; [done|]. split; [done|].
  assert (snd (fileNotes e w
                 (mkOptions (Some (Fin (inject_Z limit))) (Some threshold)
                            (Some (requested_dryRun (parseArgs args))) None))
          = Ok r) as Hr by by rewrite Ef.
  apply fileNotes_processed in Hr as (notes & _ & ->).
  assert (effective_limit
            (mkOptions (Some (Fin (inject_Z limit))) (Some threshold)
                       (Some (requested_dryRun (parseArgs args))) None)
          = Fin (inject_Z limit)) as ->.
  { unfold effective_limit, num_or, num_truthy, inject_Z. cbn [opt_limit Qnum].
    destruct (limit =? 0)%Z eqn:E0; [apply Z.eqb_eq in E0; lia|done]. }
  apply length_slice_to_integer. lia.
Qed.

Lemma startsWith_app (p s : jsstring) : startsWith (p ++ s) p = true.
Proof.
  induction p as [|c p IH]; [by destruct s|].
  simpl. by rewrite N.eqb_refl, IH.
Qed.

Lemma includes_app (a p b : jsstring) : includes (a ++ p ++ b) p = true.
Proof.
  induction a as [|c a IH].
  - pose proof (startsWith_app p b) as H. simpl.
    destruct (p ++ b); cbn [includes]; by rewrite H.
  - cbn [app includes]. rewrite IH. apply orb_true_r.
Qed.

Lemma join_cons (sep first second : jsstring) (rest : list jsstring) :
  JsString.join sep (first :: second :: rest)
  = first ++ sep ++ JsString.join sep (second :: rest).
Proof. done. Qed.

(** X15. A [/file] command whose [dryrun] argument is set changes
    nothing in the stores. When its other arguments are accepted and the
    inbox can be listed, the reply opens with the dry-run line, followed
    by the results. *)
Theorem handleFileCommand_dry_run (e : env) (w : world) (args : jsstring) :
  requested_dryRun (parseArgs args) = true ->
  fst (handleFileCommand e w args) = w
  /\ (snd (handleFileCommand e w args) = invalid_limit
      \/ snd (handleFileCommand e w args) = invalid_confidence
      \/ (exists err, getProcessedInboxNotes e (vault w) = Throw err)
      \/ exists rest,
           snd (handleFileCommand e w args)
           = magnifier ++ js " **DRY RUN - Preview Mode**" ++ nl ++ nl
               ++ chart ++ js " **Filing Results**" ++ nl ++ rest).
Proof.
  intros Hdry. unfold handleFileCommand. cbv zeta. rewrite Hdry.
  destruct (_ || _); [by split; [|left]|].
  destruct (_ || _); [by split; [|right; left]|].
  match goal with |- context [fileNotes e w ?o] => set (opts := o) end.
  pose proof (fileNotes_dry_world e w opts eq_refl) as Hw.
  destruct (fileNotes e w opts) as [w' [r|err]] eqn:Ef; cbn [fst snd] in *.
  - split; [done|]. do 3 right.
    apply fileNotes_flags in Ef as [Hd Hs]. simpl in Hd, Hs.
    unfold formatFilingResults. rewrite Hd. cbn [negb andb app].
    rewrite List.app_nil_r, !join_cons. eexists.
    rewrite <- !app_assoc. reflexivity.
  - split; [done|]. right. right. left.
    unfold fileNotes in Ef.
    destruct (getProcessedInboxNotes e (vault w)) as [[|n notes]|err0];
      [done| |by exists err0].
    by destruct (fold_left _ _ _).
Qed.

(** X16. When the inbox cannot be listed, a [/file] command whose
    arguments are accepted changes nothing and replies with the error
    message behind a doubled prefix: [fileNotes] has put [Filing failed]
    in front of the message, and the handler does so once more. *)
Theorem handleFileCommand_reports_enumeration_failure (e : env) (w : world)
        (args : jsstring) (err : jserror) :
  getProcessedInboxNotes e (vault w) = Throw err ->
  fst (handleFileCommand e w args) = w
  /\ (snd (handleFileCommand e w args) = invalid_limit
      \/ snd (handleFileCommand e w args) = invalid_confidence
      \/ snd (handleFileCommand e w args)
         = cross_mark ++ js " Filing failed: Filing failed: " ++ message err)
  /\ snd (handleFileCommand e w [])
     = cross_mark ++ js " Filing failed: Filing failed: " ++ message err.
Proof.
  intros Herr. unfold handleFileCommand, fileNotes. cbv zeta.
  cbn [vault]. rewrite Herr. split; [|split].
  - destruct (_ || _); [done|]. by destruct (_ || _).
  - destruct (_ || _); [by left|]. destruct (_ || _); [by right; left|].
    right. right. reflexivity.
  - reflexivity.
Qed.

(** X17. An [/undo] command that names a session the history does not
    hold changes nothing and replies that the session was not found. *)
Theorem handleUndoCommand_unknown_session (e : env) (w : world)
        (args : jsstring) (h : sessions) :
  loadHistory (history w) = Ok h ->
  trim args <> [] ->
  get (trim args) h = Absent ->
  handleUndoCommand e w args
  = (w, cross_mark ++ js " Undo failed: Session " ++ trim args ++ js " not found").
Proof.
  intros Hh Hne Habs. unfold handleUndoCommand.
  destruct (trim args) as [|c sid] eqn:E; [done|].
  unfold undo_reply, undoLastFiling. rewrite Hh, Habs.
  reflexivity.
Qed.

(** X18. An [/undo] command without an argument replies that there is
    nothing to undo when every session of the history is undone, and
    otherwise undoes a session that is not undone and that started no
    earlier than any other such session. After that the session is no
    longer offered, so that a second [/undo] cannot take it again. The
    history holds one session per id. *)
Theorem handleUndoCommand_takes_the_most_recent (e : env) (w : world)
        (args : jsstring) (h : sessions) :
  trim args = [] ->
  loadHistory (history w) = Ok h ->
  one_value_per_key h ->
  ((forall kv, kv ∈ h -> undone (snd kv) = true) ->
   handleUndoCommand e w args = (w, no_sessions))
  /\ (forall kv0, kv0 ∈ h -> undone (snd kv0) = false ->
        exists sid s r,
          (sid, s) ∈ h /\ undone s = false
          /\ (forall kv, kv ∈ h -> undone (snd kv) = false ->
                         (startTime (snd kv) <= startTime s)%Z)
          /\ undoLastFiling e w sid = (fst (handleUndoCommand e w args), Ok r)
          /\ snd (handleUndoCommand e w args) = formatUndoResults r
          /\ forall limit l,
               getRecentSessions
                 (history (fst (handleUndoCommand e w args))) limit = Ok l ->
               Forall (fun rs => rs_sessionId rs <> sid) l).
Proof.
  intros Hblank Hh Hnd. unfold handleUndoCommand. rewrite Hblank.
  rewrite (getRecentSessions_listed _ h 1 Hh).
  destruct (most_recent_open_sessions h 1) as (H1 & H2 & H3 & H4).
  destruct (take 1 (sort most_recent_first (open_sessions h)))
    as [|[sid s] rest] eqn:El.
  - split; [done|]. intros kv0 Hkv0 Hopen.
    destruct (H4 kv0 Hkv0 Hopen) as [Hin|[Hlen _]]; [|done].
    by apply elem_of_nil in Hin.
  - apply Forall_cons in H2 as [[Hin Hopen] _].
    split.
    { intros Hall. apply Hall in Hin. simpl in *. congruence. }
    intros _ _ _.
    assert (get sid h = Own s) as Hget.
    { unfold get. by rewrite (own_elem_of sid s h Hnd Hin). }
    cbn [List.map summary rs_sessionId fst]. unfold undo_reply.
    destruct (undoLastFiling e w sid) as [w' [r|err]] eqn:Eu.
    2:{ unfold undoLastFiling in Eu. rewrite Hh, Hget in Eu.
        by destruct (undo_each _ _ _ _). }
    exists sid, s, r. cbn [fst snd].
    split; [done|]. split; [done|]. split; [|split; [done|split; [done|]]].
    + intros kv Hkv Hko.
      destruct (H4 kv Hkv Hko) as [Hk|[_ Hall]].
      * apply elem_of_cons in Hk as [->|Hk]; [done|].
        simpl in H1. destruct rest; [by apply elem_of_nil in Hk|simpl in H1; lia].
      * by apply Forall_cons in Hall as [Hle _].
    + intros limit l Hl.
      destruct (undoLastFiling_Ok e w w' sid h r Hh Eu) as (s' & _ & Hw').
      rewrite Hw' in Hl.
      eapply (marked_session_is_not_listed h sid _ limit l Hnd); [|exact Hl].
      reflexivity.
Qed.

(** * Notes as chunk documents *)

Lemma slices_concat (chunkSize : nat) :
  (0 < chunkSize)%nat ->
  forall fuel content,
    (length content <= fuel)%nat ->
    concat (Chunked.slices fuel chunkSize content) = content
    /\ Forall (fun c => (0 < length c <= chunkSize)%nat)
              (Chunked.slices fuel chunkSize content).
Proof.
  intros Hpos. induction fuel as [|fuel IH]; intros content Hlen.
  - destruct content; [done|simpl in Hlen; lia].
  - destruct content as [|c content]; [done|].
    cbn [Chunked.slices].
    set (s := c :: content) in *.
    destruct (IH (drop chunkSize s)) as [Hc Hf].
    { rewrite length_drop. unfold s in *. simpl in *. lia. }
    split.
    + cbn [concat]. rewrite Hc. apply take_drop.
    + constructor; [|done]. rewrite length_take. unfold s. simpl. lia.
Qed.

Lemma createChunks_concat (content : jsstring) :
  concat (Chunked.createChunks content Chunked.default_chunk_size) = content.
Proof.
  unfold Chunked.createChunks.
  destruct (slices_concat Chunked.default_chunk_size
              ltac:(unfold Chunked.default_chunk_size; lia)
              (length content) content (le_n _)) as [Hc _].
  destruct (Chunked.slices _ _ _); [|done]. by simpl in Hc.
Qed.

(** X19. For a positive chunk size, the chunks [_createChunks] cuts a
    text into join back to the text; no chunk is longer than the chunk
    size, and there is always at least one chunk, which is empty only
    for the empty text. *)
Theorem createChunks_join (content : jsstring) (chunkSize : nat) :
  (0 < chunkSize)%nat ->
  concat (Chunked.createChunks content chunkSize) = content
  /\ Forall (fun c => (length c <= chunkSize)%nat)
            (Chunked.createChunks content chunkSize)
  /\ Chunked.createChunks content chunkSize <> []
  /\ (content <> [] ->
      Forall (fun c => c <> []) (Chunked.createChunks content chunkSize)).
Proof.
  intros Hpos. unfold Chunked.createChunks.
  destruct (slices_concat chunkSize Hpos (length content) content (le_n _))
    as [Hc Hf].
  destruct (Chunked.slices (length content) chunkSize content) as [|c cs] eqn:E.
  - simpl in Hc. subst content. repeat split; try done.
    repeat constructor. simpl. lia.
  - repeat split; try done.
    + eapply Forall_impl; [exact Hf|]. simpl. intros. lia.
    + intros _. eapply Forall_impl; [exact Hf|]. simpl.
      intros a Ha ->. simpl in Ha. lia.
Qed.

Lemma createChunks_join_witness :
  Chunked.createChunks (js "abcdefg") 3 = [js "abc"; js "def"; js "g"]
  /\ concat (Chunked.createChunks (js "abcdefg") 3) = js "abcdefg".
Proof.
  split; [reflexivity|].
  apply (proj1 (createChunks_join (js "abcdefg") 3 ltac:(lia))).
Defined.

Section ChunkedStore.

Variable digest : jsstring -> jsstring.

Let chunkId := Chunked.createChunkId digest.

Lemma store_chunks_leaves (chunks : list jsstring) :
  forall db,
    (forall d, d ∈ chunks ->
               db !! chunkId d = None \/ db !! chunkId d = Some (Chunked.Leaf d)) ->
    (forall a b, a ∈ chunks -> b ∈ chunks -> digest a = digest b -> a = b) ->
    let db' := fold_left (Chunked.store_chunk digest) chunks db in
    (forall d, d ∈ chunks -> db' !! chunkId d = Some (Chunked.Leaf d))
    /\ (forall id, (forall d, d ∈ chunks -> chunkId d <> id) -> db' !! id = db !! id).
Proof.
  induction chunks as [|c chunks IH]; intros db Hdb Hinj; simpl.
  { split; [|done]. intros d Hd. by apply elem_of_nil in Hd. }
  set (db1 := Chunked.store_chunk digest db c).
  assert (db1 !! chunkId c = Some (Chunked.Leaf c)) as Hc.
  { unfold db1, Chunked.store_chunk. fold chunkId.
    destruct (Hdb c) as [H|H]; [by left|..]; rewrite H; [|done].
    apply lookup_insert_eq. }
  assert (forall id, id <> chunkId c -> db1 !! id = db !! id) as Hother.
  { intros id Hne. unfold db1, Chunked.store_chunk. fold chunkId.
    destruct (db !! chunkId c); [done|]. by rewrite lookup_insert_ne. }
  destruct (IH db1) as [Hl Hf].
  - intros d Hd. destruct (decide (chunkId d = chunkId c)) as [Heq|Hne].
    + right. rewrite Heq, Hc. f_equal. f_equal. symmetry.
      apply Hinj; [by right|by left|].
      unfold chunkId, Chunked.createChunkId in Heq. by simplify_list_eq.
    + rewrite Hother by done. apply Hdb. by right.
  - intros a b Ha Hb. apply Hinj; by right.
  - split.
    + intros d Hd. apply elem_of_cons in Hd as [->|Hd]; [|by apply Hl].
      destruct (decide (c ∈ chunks)) as [Hin|Hnotin]; [by apply Hl|].
      rewrite Hf; [done|]. intros d Hd Heq. apply Hnotin.
      assert (d = c) as <-; [|done].
      apply Hinj; [by right|by left|].
      unfold chunkId, Chunked.createChunkId in Heq. by simplify_list_eq.
    + intros id Hid. rewrite Hf.
      * apply Hother. intros ->. by apply (Hid c); [left|].
      * intros d Hd. apply Hid. by right.
Qed.

Lemma fetch_leaves (db : gmap jsstring Chunked.document) (chunks : list jsstring) :
  (forall d, d ∈ chunks -> db !! chunkId d = Some (Chunked.Leaf d)) ->
  Chunked.fetch db (List.map chunkId chunks)
  = Some (List.map Chunked.Leaf chunks).
Proof.
  induction chunks as [|c chunks IH]; intros H; simpl; [done|].
  rewrite (H c) by by left. simpl. rewrite IH; [done|].
  intros d Hd. apply H. by right.
Qed.

(** X20. Reading a note back from its chunk documents gives the path and
    the sanitized content that were written, which is what the store of
    whole notes answers, provided the ids of the chunks are sound: no two
    chunks of the content share a digest, a document already stored under
    the id of a chunk is that chunk, and no chunk id is the id of the
    note. *)
Theorem chunked_read_after_write (db : gmap jsstring Chunked.document)
        (vdb : database) (p c : jsstring) :
  let chunks := Chunked.createChunks (sanitizeUnicode c)
                                     Chunked.default_chunk_size in
  (forall a b, a ∈ chunks -> b ∈ chunks -> digest a = digest b -> a = b) ->
  (forall d, d ∈ chunks ->
             db !! chunkId d = None \/ db !! chunkId d = Some (Chunked.Leaf d)) ->
  (forall d, d ∈ chunks -> chunkId d <> pathToId p) ->
  Chunked.readNote (Chunked.writeNote digest db p c) p
  = Ok (Some (mkNoteFile p (sanitizeUnicode c)))
  /\ Chunked.readNote (Chunked.writeNote digest db p c) p
     = readNote (writeNote vdb p c) p.
Proof.
  intros chunks Hinj Hdb Hid.
  assert (Chunked.readNote (Chunked.writeNote digest db p c) p
          = Ok (Some (mkNoteFile p (sanitizeUnicode c)))) as Hread.
  { unfold Chunked.readNote, Chunked.writeNote. cbv zeta. fold chunks.
    rewrite lookup_insert_eq.
    destruct (store_chunks_leaves chunks db Hdb Hinj) as [Hl _].
    fold chunkId. rewrite (fetch_leaves _ chunks).
    - rewrite List.map_map. simpl. rewrite List.map_id.
      do 3 f_equal.
      apply (createChunks_concat (sanitizeUnicode c)).
    - intros d Hd. rewrite lookup_insert_ne by (symmetry; by apply Hid).
      by apply Hl. }
  split; [done|]. rewrite Hread. unfold readNote.
  by rewrite writeNote_lookup.
Qed.

End ChunkedStore.

(** * Learning from corrections *)

Example dirname_nested : Correction.dirname (js "projects/ai/test-note.md") = js "projects/ai".
Proof. reflexivity. Qed.
Example dirname_plain : Correction.dirname (js "note.md") = js ".".
Proof. reflexivity. Qed.
Example dirname_root : Correction.dirname (js "/note.md") = js "/".
Proof. reflexivity. Qed.
Example dirname_trailing : Correction.dirname (js "a/b//") = js "a".
Proof. reflexivity. Qed.
Example dirname_double : Correction.dirname (js "a//b") = js "a/".
Proof. reflexivity. Qed.

Lemma length_cap (log : list Correction.correction) :
  (length (Correction.cap log) <= 1000)%nat.
Proof.
  unfold Correction.cap. destruct (1000 <? length log)%nat eqn:E.
  - rewrite length_drop. lia.
  - apply Nat.ltb_ge in E. lia.
Qed.

Lemma cap_suffix (log : list Correction.correction) :
  exists dropped, log = dropped ++ Correction.cap log.
Proof.
  unfold Correction.cap. destruct (1000 <? length log)%nat.
  - exists (take (length log - 1000) log). by rewrite take_drop.
  - by exists [].
Qed.

Lemma last_cap (log : list Correction.correction) (c : Correction.correction) :
  last (Correction.cap (log ++ [c])) = Some c.
Proof.
  unfold Correction.cap. destruct (1000 <? length (log ++ [c]))%nat eqn:E.
  - rewrite length_app, drop_app_le by (simpl; lia). apply last_snoc.
  - apply last_snoc.
Qed.

(** X21. [trackCorrection] records nothing for a move within one folder.
    For a move to another folder, whose name is not that of an inherited
    property, it appends the correction, sanitized and with at most ten
    keywords, to the log, and keeps the last 1000 entries of the log. *)
Theorem trackCorrection_log (e : env) (f : file Correction.learning_data)
        (d : Correction.learning_data)
        (originalPath correctedPath content : jsstring) :
  Correction.loadData f = Ok d ->
  (Correction.dirname originalPath = Correction.dirname correctedPath ->
   Correction.trackCorrection e f originalPath correctedPath content = Ok f)
  /\ (Correction.dirname originalPath <> Correction.dirname correctedPath ->
      inherited (Correction.dirname correctedPath) = false ->
      exists d' entry dropped,
        Correction.trackCorrection e f originalPath correctedPath content
        = Ok (Stored d')
        /\ entry = Correction.sanitize_correction
                     (Correction.mkCorrection (now e)
                        (Correction.dirname originalPath)
                        (Correction.dirname correctedPath)
                        (take 10 (extractKeywords content))
                        (Path.basename correctedPath))
        /\ (length (Correction.c_keywords entry) <= 10)%nat
        /\ List.map Correction.sanitize_correction (Correction.corrections d)
             ++ [entry]
           = dropped ++ Correction.corrections d'
        /\ last (Correction.corrections d') = Some entry
        /\ (length (Correction.corrections d') <= 1000)%nat).
Proof.
  intros Hd. unfold Correction.trackCorrection. rewrite Hd. simpl. split.
  - intros ->. by rewrite str_eqb_refl.
  - intros Hne Hfolder. apply str_eqb_neq in Hne. rewrite Hne.
    unfold Correction.updateFolderPatterns, get. rewrite Hfolder.
    set (entry := Correction.mkCorrection _ _ _ _ _).
    assert (exists ps,
               match own (Correction.dirname correctedPath)
                         (Correction.folderPatterns d) with
               | Some v => Own v
               | None => Absent
               end = ps /\ ps <> Inherited) as (ps & Hps & Hni).
    { eexists. split; [reflexivity|]. by destruct (own _ _). }
    rewrite Hps.
    destruct (cap_suffix (Correction.corrections d ++ [entry])) as [dropped Hdrop].
    destruct ps as [p| |]; [|done|]; cbn [mbind result_bind];
      unfold Correction.saveLearningData;
      cbn [Correction.corrections Correction.folderPatterns];
      eexists _, (Correction.sanitize_correction entry),
              (List.map Correction.sanitize_correction dropped);
      (split; [reflexivity|]); (split; [reflexivity|]);
      cbn [Correction.corrections];
      (split; [simpl; rewrite length_map, length_take; lia|]);
      (split; [rewrite <- (List.map_app Correction.sanitize_correction dropped), <- Hdrop; by rewrite List.map_app|]);
      (split; [change (List.map ?f ?l) with (f <$> l);
               by rewrite fmap_last, last_cap|]);
      rewrite length_map; apply length_cap.
Qed.

Lemma own_None {A} (k : jsstring) (o : list (jsstring * A)) :
  k ∉ List.map fst o -> own k o = None.
Proof.
  induction o as [|[k0 v0] o IH]; simpl; [done|].
  intros Hk. destruct (str_eqb k k0) eqn:E.
  - apply str_eqb_eq in E as ->. exfalso. apply Hk. by left.
  - apply IH. intros Hin. apply Hk. by right.
Qed.

Lemma own_Some_elem_of {A} (k : jsstring) (v : A) (o : list (jsstring * A)) :
  own k o = Some v -> (k, v) ∈ o.
Proof.
  induction o as [|[k0 v0] o IH]; simpl; [done|].
  destruct (str_eqb k k0) eqn:E.
  - apply str_eqb_eq in E as ->. intros [= ->]. by left.
  - intros H. right. by apply IH.
Qed.

Lemma own_Permutation {A} (k : jsstring) (o o' : list (jsstring * A)) :
  one_value_per_key o -> o ≡ₚ o' -> own k o' = own k o.
Proof.
  intros Hnd Hperm.
  assert (one_value_per_key o') as Hnd'.
  { unfold one_value_per_key in *. by rewrite <- Hperm. }
  destruct (own k o) as [v|] eqn:E.
  - apply own_Some_elem_of in E. rewrite Hperm in E. by apply own_elem_of.
  - destruct (own k o') as [v|] eqn:E'; [|done].
    apply own_Some_elem_of in E'. rewrite <- Hperm in E'.
    apply (own_elem_of _ _ _ Hnd) in E'. congruence.
Qed.

(** A table rebuilt key by key holds, under each key, the value the
    rebuilding gives to the value it held. *)
Lemma own_fold_put {A B} (g : jsstring * B -> A) (k : jsstring)
      (l : list (jsstring * B)) :
  one_value_per_key l ->
  Forall (fun kv => str_eqb (fst kv) (js "__proto__") = false) l ->
  forall acc,
    own k (fold_left (fun acc kv => put (fst kv) (g kv) acc) l acc)
    = match own k l with
      | Some v => Some (g (k, v))
      | None => own k acc
      end.
Proof.
  unfold one_value_per_key.
  induction l as [|[k0 v0] l IH]; intros Hnd Hproto acc; [done|].
  apply NoDup_cons in Hnd as [Hnotin Hnd].
  apply Forall_cons in Hproto as [Hp0 Hproto].
  cbn [fold_left fst snd]. rewrite IH by done. clear IH.
  unfold put. simpl in Hp0. rewrite Hp0. cbn [own].
  destruct (str_eqb k k0) eqn:E.
  - apply str_eqb_eq in E as ->. rewrite (own_None k0 l) by done.
    by rewrite own_put_own.
  - destruct (own k l); [done|]. apply own_put_own_ne.
    by apply str_eqb_neq.
Qed.

Lemma occurrences_NoDup (w : jsstring) (ws : list jsstring) :
  NoDup ws -> w ∈ ws -> occurrences w ws = 1%nat.
Proof.
  unfold occurrences. induction 1 as [|a ws Ha Hnd IH]; intros Hin.
  - by apply elem_of_nil in Hin.
  - simpl. destruct (str_eqb w a) eqn:E.
    + apply str_eqb_eq in E as ->. simpl. f_equal.
      clear -Ha. induction ws as [|b ws IH]; [done|]. simpl.
      destruct (str_eqb a b) eqn:E.
      * apply str_eqb_eq in E as ->. exfalso. apply Ha. by left.
      * apply IH. intros H. apply Ha. by right.
    + apply str_eqb_neq in E.
      apply elem_of_cons in Hin as [->|Hin]; [done|]. by apply IH.
Qed.

Lemma entries_single {A} (k : jsstring) (v : A) : entries [(k, v)] = [(k, v)].
Proof.
  unfold entries, add_indexed. simpl.
  by destruct (array_index k).
Qed.

Lemma num_div_one (z : Z) : num_div (Fin (inject_Z z)) one = Fin (inject_Z z).
Proof.
  unfold num_div, one, inject_Z, Qdiv, Qmult, Qinv. cbn [Qnum Qden].
  change (1 =? 0)%Z with false. cbn iota.
  change (1 * 1)%positive with 1%positive.
  rewrite Z.mul_1_r. by rewrite Qred_integer.
Qed.

Lemma folder_score_known (kws : list jsstring) (p : pattern) :
  count p = one ->
  Forall (fun k => get k (keywords p) = Own (count_of 1)) kws ->
  folder_score kws p = Fin (inject_Z (Z.of_nat (length kws))).
Proof.
  intros Hc Hk. unfold folder_score. rewrite Hc.
  change (num_truthy one) with true. cbn iota.
  assert (forall (acc : Z),
             fold_left
               (fun score keyword =>
                  match get keyword (keywords p) with
                  | Own v => if truthy v then js_plus score v else score
                  | Inherited => js_plus score (VStr (inherited_text keyword))
                  | Absent => score
                  end) kws (VNum (Fin (inject_Z acc)))
             = VNum (Fin (inject_Z (acc + Z.of_nat (length kws))))) as Hfold.
  { induction Hk as [|k kws Hk _ IH]; intros acc.
    - simpl. by rewrite Z.add_0_r.
    - cbn [fold_left]. rewrite Hk.
      change (truthy (count_of 1)) with true. cbn iota.
      unfold js_plus, count_of. rewrite num_add_integers, IH.
      do 3 f_equal. simpl length. lia. }
  change (VNum (Fin 0)) with (VNum (Fin (inject_Z 0))).
  rewrite Hfold. cbn [toNumber]. rewrite Z.add_0_l. apply num_div_one.
Qed.

(** X22. What [trackCorrection] learns, [getFolderHints] recalls. After
    one correction recorded in an empty learning file for a note with at
    least one keyword, the hints for the same text suggest the folder the
    note was moved to, with a confidence of one tenth per keyword, 1 at
    most. Neither the folder nor a word of the text names an inherited
    property. *)
Theorem learned_folder_is_suggested (e : env)
        (originalPath correctedPath content : jsstring) :
  let folder := Correction.dirname correctedPath in
  let kws := extractKeywords content in
  Correction.dirname originalPath <> folder ->
  inherited folder = false ->
  Forall (fun w => inherited w = false) (clean_words content) ->
  kws <> [] ->
  exists f',
    Correction.trackCorrection e Missing originalPath correctedPath content
    = Ok f'
    /\ getFolderHints (Correction.patterns_of f') content
       = Ok (mkHints (Some folder)
               (num_min (num_div (Fin (inject_Z (Z.of_nat (length kws))))
                                 (Fin (Qmake 10 1))) one)
               [(folder, Fin (inject_Z (Z.of_nat (length kws))))]).
Proof.
  intros folder kws Hne Hfolder Hwords Hkws.
  destruct (extractKeywords_distinct content Hwords) as [Hnd Hinh].
  fold kws in Hnd, Hinh.
  unfold Correction.trackCorrection. cbn [Correction.loadData mbind result_bind].
  fold folder kws. apply str_eqb_neq in Hne. rewrite Hne.
  unfold Correction.updateFolderPatterns, get.
  cbn [Correction.folderPatterns own]. rewrite Hfolder.
  cbn [put_own mbind result_bind].
  eexists. split; [reflexivity|].
  unfold Correction.saveLearningData, Correction.patterns_of.
  cbn [Correction.folderPatterns].
  unfold Correction.sanitize_patterns. rewrite entries_single.
  cbn [fold_left fst snd]. unfold put at 1.
  rewrite (inherited_proto _ Hfolder). cbn [put_own].
  unfold Correction.bump. cbn [count keywords].
  change (num_add (Fin 0) one) with one.
  fold (count_words kws).
  set (p := mkPattern _ (Correction.sanitize_keywords (count_words kws))).
  assert (folder_score kws p = Fin (inject_Z (Z.of_nat (length kws)))) as Hscore.
  { apply folder_score_known; [reflexivity|].
    destruct (count_words_counts kws Hinh) as [Htbl Hvals].
    assert (forall k, k ∈ kws -> own k (count_words kws) = Some (count_of 1))
      as Hown.
    { intros k Hk.
      destruct (count_words_from kws [] [] Hinh) as [_ Ho];
        [apply NoDup_nil_2|done|].
      unfold count_words. rewrite Ho. simpl.
      by rewrite (occurrences_NoDup k kws Hnd Hk). }
    apply Forall_forall. intros k Hk. unfold get. cbn [keywords p].
    unfold Correction.sanitize_keywords.
    assert (own k (entries (count_words kws)) = Some (count_of 1)) as Hent.
    { rewrite (own_Permutation k (count_words kws) (entries (count_words kws)))
        by (done || by rewrite entries_Permutation).
      by apply Hown. }
    match goal with
    | |- context [fold_left (fun acc kv => put (fst kv) (@?g kv) acc) _ _] =>
        pose proof (own_fold_put g k (entries (count_words kws))) as Hput
    end.
    rewrite Hent in Hput. cbn beta in Hput.
    rewrite Hput; [done| |].
    - unfold one_value_per_key in *. by rewrite entries_Permutation.
    - apply Forall_forall. intros kv Hkv. rewrite entries_Permutation in Hkv.
      apply inherited_proto. apply Hvals in Hkv as [Hkv _].
      by eapply Forall_forall in Hinh. }
  unfold getFolderHints. cbn [loadLearningData mbind result_bind].
  fold kws. rewrite entries_single. cbn [fold_left fst snd].
  unfold put. rewrite (inherited_proto _ Hfolder). cbn [put_own].
  rewrite entries_single. cbn [fold_left fst snd]. rewrite Hscore.
  assert (num_ltb (Fin 0) (Fin (inject_Z (Z.of_nat (length kws)))) = true) as ->.
  { unfold num_ltb, Qltb, inject_Z. cbn [Qnum Qden]. apply Z.ltb_lt.
    destruct kws; [done|simpl; lia]. }
  reflexivity.
Qed.

(** * The front-matter codec *)

Lemma split_on_cons (sep : N) (s : jsstring) :
  exists first others, split_on sep s = first :: others.
Proof.
  induction s as [|c s (first & others & IH)]; simpl; [by eexists _, _|].
  destruct (c =? sep)%N; [by eexists _, _|]. rewrite IH. by eexists _, _.
Qed.

(** Splitting at a separator and joining with it gives the text back. *)
Lemma join_split_on (sep : N) (s : jsstring) :
  JsString.join [sep] (split_on sep s) = s.
Proof.
  induction s as [|c s IH]; [done|]. cbn [split_on].
  destruct (c =? sep)%N eqn:E.
  - apply N.eqb_eq in E as ->.
    destruct (split_on_cons sep s) as (first & others & Hs).
    rewrite Hs in *. cbn [JsString.join]. cbn [JsString.join] in IH.
    by rewrite IH.
  - destruct (split_on_cons sep s) as (first & others & Hs).
    rewrite Hs in *. destruct others; cbn [JsString.join] in *; by rewrite <- IH.
Qed.

Lemma split_on_head (sep : N) (s first : jsstring) (others : list jsstring) :
  split_on sep s = first :: others ->
  s = first \/ exists rest, s = first ++ sep :: rest.
Proof.
  intros Hs. pose proof (join_split_on sep s) as Hj. rewrite Hs in Hj.
  destruct others as [|second others]; [by left|right].
  cbn [JsString.join] in Hj. rewrite <- Hj. by eexists.
Qed.

(** X23. Content that does not open with a line [---] has no front
    matter: [parseFrontmatter] returns an empty object and the content
    itself as the body. So does content that opens with such a line but
    has no closing line. *)
Theorem parseFrontmatter_without_front_matter (content : jsstring) :
  (content <> js "---" -> startsWith content (js "---" ++ nl) = false ->
   parseFrontmatter content = Ok ([], content))
  /\ (forall first others,
         split_on 10 content = first :: others ->
         Forall (fun line => is_closing line = false) others ->
         parseFrontmatter content = Ok ([], content)).
Proof.
  split.
  - intros Hne Hstart. unfold parseFrontmatter.
    destruct (split_on 10 content) as [|first others] eqn:Hs; [done|].
    destruct (str_eqb first (js "---")) eqn:E; [|done].
    apply str_eqb_eq in E as ->. exfalso.
    apply split_on_head in Hs as [->|[rest ->]]; [done|].
    change (js "---" ++ 10%N :: rest) with ((js "---" ++ nl) ++ rest) in Hstart.
    by rewrite startsWith_app in Hstart.
  - intros first others Hs Hopen. unfold parseFrontmatter. rewrite Hs.
    destruct (str_eqb first (js "---")); [|done].
    assert (split_at_closing others = None) as ->; [|done].
    clear Hs. induction Hopen as [|line others Hline _ IH]; [done|].
    simpl. by rewrite Hline, IH.
Qed.

Lemma trimEnd_head (c : N) (s : jsstring) :
  is_ws c = false -> exists rest, trimEnd (c :: s) = c :: rest.
Proof.
  intros Hc. unfold trimEnd. simpl.
  assert (forall r, exists rest, rev (trimStart (r ++ [c])) = c :: rest) as H.
  { induction r as [|d r [rest IH]]; simpl.
    - rewrite Hc. by exists [].
    - destruct (is_ws d); [by exists rest|].
      simpl. rewrite rev_app_distr. simpl. by eexists. }
  apply H.
Qed.

Lemma trim_head (s : jsstring) (q : N) :
  is_ws q = false -> startsWith (trim s) [q] = true ->
  exists rest, trim s = q :: rest.
Proof.
  intros _. destruct (trim s) as [|c rest]; [done|]. cbn [startsWith].
  intros [->%N.eqb_eq _]%andb_true_iff. by eexists.
Qed.

(** X24. A front-matter value that begins with a single quote cannot be
    read: [_parseYamlValue] raises the ReferenceError of its last test,
    whatever follows the quote. *)
Theorem parseYamlValue_single_quote (value : jsstring) :
  startsWith (trim value) (js "'") = true ->
  parseYamlValue value = Throw (Error (js "item is not defined")).
Proof.
  intros Hq. unfold parseYamlValue.
  destruct (trim_head value 39%N eq_refl Hq) as [rest Ht].
  rewrite Ht in *.
  rewrite (proj2 (str_eqb_neq (39%N :: rest) [])) by done.
  rewrite (proj2 (str_eqb_neq (39%N :: rest) (js "true"))) by done.
  rewrite (proj2 (str_eqb_neq (39%N :: rest) (js "false"))) by done.
  assert (is_integer_text (39%N :: rest) = false) as ->.
  { unfold is_integer_text. cbn [forallb]. change (is_digit 39) with false.
    apply andb_false_r. }
  change (is_decimal_text (39%N :: rest)) with false.
  change (startsWith (39%N :: rest) (js "[")) with false.
  change (quoted 34 (39%N :: rest)) with false.
  cbn [orb andb]. change (js "'") with [39%N] in Hq. by rewrite Hq.
Qed.

Lemma parseYamlValue_single_quote_witness :
  parseYamlValue (js " 'quoted text'")
  = Throw (Error (js "item is not defined")).
Proof. apply parseYamlValue_single_quote. reflexivity. Defined.

Lemma read_processed_Throw (db : database) (paths : list jsstring)
      (p : jsstring) :
  p ∈ paths ->
  (exists f err, readNote db p = Ok (Some f)
                 /\ parseFrontmatter (file_content f) = Throw err)
  \/ (exists err, readNote db p = Throw err) ->
  exists err, read_processed db paths = Throw err.
Proof.
  intros Hin Hbad. induction paths as [|q paths IH].
  { by apply elem_of_nil in Hin. }
  simpl. destruct (decide (p = q)) as [<-|Hne].
  - destruct Hbad as [(f & err & -> & Hf)|[err ->]]; simpl.
    + rewrite Hf. by eexists.
    + by eexists.
  - apply elem_of_cons in Hin as [->|Hin]; [done|].
    destruct (IH Hin) as [err Herr]. rewrite Herr.
    destruct (readNote db q) as [[f|]|err0]; simpl; [|by eexists..].
    destruct (parseFrontmatter (file_content f)) as [[fm body]|err0]; simpl;
      by eexists.
Qed.

(** X25. One inbox note that cannot be read stops the whole batch: when
    the front matter of a listed inbox note cannot be parsed, or the note
    is encrypted, [fileNotes] raises and changes nothing, although every
    other note could have been filed. *)
Theorem unreadable_note_blocks_the_batch (e : env) (w : world) (o : options)
        (p : jsstring) :
  p ∈ listNotes (vault w) ->
  startsWith p (inboxPath e) = true ->
  (exists f err, readNote (vault w) p = Ok (Some f)
                 /\ parseFrontmatter (file_content f) = Throw err)
  \/ (exists err, readNote (vault w) p = Throw err) ->
  exists err, fileNotes e w o = (w, Throw (Error (js "Filing failed: " ++ message err))).
Proof.
  intros Hlisted Hinbox Hbad.
  destruct (read_processed_Throw (vault w)
              (List.filter (fun p => startsWith p (inboxPath e))
                           (listNotes (vault w))) p) as [err Herr].
  - apply list_elem_of_In, filter_In. split; [by apply list_elem_of_In|done].
  - done.
  - exists err. unfold fileNotes, getProcessedInboxNotes. by rewrite Herr.
Qed.

(** ** Writing front matter and reading it back *)

Lemma entries_without_index {A} (o : list (jsstring * A)) :
  Forall (fun kv => array_index (fst kv) = None) o -> entries o = o.
Proof.
  intros Ho. unfold entries.
  assert (forall acc, fold_left add_indexed o acc = acc) as ->.
  { induction Ho as [|kv o Hkv _ IH]; intros acc; [done|].
    simpl. unfold add_indexed at 2. by rewrite Hkv, IH. }
  simpl. induction Ho as [|kv o Hkv _ IH]; [done|].
  simpl. rewrite Hkv, IH. by rewrite bool_decide_eq_false_2 by (by intros [? ?]).
Qed.

Lemma put_own_absent {A} (k : jsstring) (v : A) (o : list (jsstring * A)) :
  own k o = None -> put_own k v o = o ++ [(k, v)].
Proof.
  induction o as [|[k0 v0] o IH]; simpl; [done|].
  destruct (str_eqb k k0); [done|]. intros H. by rewrite IH.
Qed.

Lemma own_app_None {A} (k : jsstring) (o o' : list (jsstring * A)) :
  own k o = None -> own k (o ++ o') = own k o'.
Proof.
  induction o as [|[k0 v0] o IH]; simpl; [done|].
  destruct (str_eqb k k0); [done|]. apply IH.
Qed.

(** Assigning fresh keys one after the other appends them in order. *)
Lemma fold_put_fresh {A} (l : list (jsstring * A)) :
  one_value_per_key l ->
  Forall (fun kv => str_eqb (fst kv) (js "__proto__") = false) l ->
  forall acc,
    Forall (fun kv => own (fst kv) acc = None) l ->
    fold_left (fun a kv => put (fst kv) (snd kv) a) l acc = acc ++ l.
Proof.
  unfold one_value_per_key.
  induction l as [|[k v] l IH]; intros Hnd Hproto acc Hfresh; simpl.
  { by rewrite List.app_nil_r. }
  apply NoDup_cons in Hnd as [Hnotin Hnd].
  apply Forall_cons in Hproto as [Hp Hproto].
  apply Forall_cons in Hfresh as [Hk Hfresh]. simpl in *.
  unfold put. rewrite Hp, (put_own_absent _ _ _ Hk), IH; try done.
  - by rewrite <- app_assoc.
  - apply Forall_forall. intros [k' v'] Hin. simpl.
    eapply Forall_forall in Hfresh; [|done]. simpl in Hfresh.
    rewrite own_app_None by done. simpl.
    destruct (str_eqb k' k) eqn:E; [|done].
    apply str_eqb_eq in E as ->. exfalso. apply Hnotin.
    apply list_elem_of_fmap. by exists (k, v').
Qed.

Lemma split_on_line (line rest : jsstring) :
  Forall (fun c => c <> 10%N) line ->
  split_on 10 (line ++ nl ++ rest) = line :: split_on 10 rest.
Proof.
  induction 1 as [|c line Hc _ IH]; [done|].
  cbn [app split_on]. apply N.eqb_neq in Hc. rewrite Hc.
  cbn [app] in IH. by rewrite IH.
Qed.

Lemma split_on_lines (lines : list jsstring) (last_line rest : jsstring) :
  Forall (Forall (fun c => c <> 10%N)) (lines ++ [last_line]) ->
  split_on 10 (JsString.join nl (lines ++ [last_line]) ++ nl ++ rest)
  = lines ++ last_line :: split_on 10 rest.
Proof.
  induction lines as [|line lines IH]; intros Hl.
  - simpl. apply Forall_cons in Hl as [Hl _]. by apply split_on_line.
  - apply Forall_cons in Hl as [Hline Hl]. specialize (IH Hl).
    assert (exists second more, lines ++ [last_line] = second :: more)
      as (second & more & E).
    { destruct lines; simpl; by eexists _, _. }
    cbn [app]. rewrite E in *. rewrite join_cons.
    rewrite <- !List.app_assoc. rewrite split_on_line by done.
    f_equal. exact IH.
Qed.

Lemma span_while_app (f : N -> bool) (a : jsstring) (c : N) (b : jsstring) :
  Forall (fun d => f d = true) a -> f c = false ->
  span_while f (a ++ c :: b) = (a, c :: b).
Proof.
  intros Ha Hc. induction Ha as [|d a Hd _ IH]; simpl.
  - by rewrite Hc.
  - by rewrite Hd, IH.
Qed.

Lemma key_unit_not_ws (c : N) : is_key_unit c = true -> is_ws c = false.
Proof.
  unfold is_key_unit, is_digit, is_ws. intros H.
  repeat (apply orb_true_iff in H as [H|H]);
    repeat match goal with
           | H : (_ && _)%bool = true |- _ => apply andb_true_iff in H as [? ?]
           | H : (_ <=? _)%N = true |- _ => apply N.leb_le in H
           | H : (_ =? _)%N = true |- _ => apply N.eqb_eq in H
           end;
    repeat (apply orb_false_iff; split);
    try (apply andb_false_iff);
    try (apply N.eqb_neq; lia);
    try (left; apply N.leb_gt; lia);
    try (right; apply N.leb_gt; lia).
Qed.

Lemma key_unit_ordinary (c : N) :
  is_key_unit c = true -> c <> 10%N /\ c <> 35%N /\ c <> 58%N.
Proof.
  unfold is_key_unit, is_digit. intros H.
  repeat (apply orb_true_iff in H as [H|H]);
    repeat match goal with
           | H : (_ && _)%bool = true |- _ => apply andb_true_iff in H as [? ?]
           | H : (_ <=? _)%N = true |- _ => apply N.leb_le in H
           | H : (_ =? _)%N = true |- _ => apply N.eqb_eq in H
           end; lia.
Qed.

Lemma plain_key_spec (k : jsstring) :
  plain_key k = true ->
  (exists c rest, k = c :: rest /\ is_key_unit c = true)
  /\ Forall (fun c => is_key_unit c = true) k
  /\ str_eqb k (js "__proto__") = false
  /\ array_index k = None.
Proof.
  unfold plain_key. rewrite !andb_true_iff, !negb_true_iff.
  intros [[[Hne Hunits] Hproto] Hidx].
  assert (Forall (fun c => is_key_unit c = true) k) as Hall.
  { apply Forall_forall. intros c Hc.
    rewrite forallb_forall in Hunits. by apply Hunits, list_elem_of_In. }
  split; [|split; [done|split; [done|]]].
  - destruct k as [|c rest]; [done|]. exists c, rest. split; [done|].
    by apply Forall_cons in Hall as [? _].
  - apply bool_decide_eq_false in Hidx. destruct (array_index k); [|done].
    exfalso. apply Hidx. by eexists.
Qed.

Lemma trimStart_id (s : jsstring) (c : N) (rest : jsstring) :
  s = c :: rest -> is_ws c = false -> trimStart s = s.
Proof. intros -> Hc. simpl. by rewrite Hc. Qed.

Lemma trim_fixed_head (s : jsstring) :
  trim s = s -> s = [] \/ exists c rest, s = c :: rest /\ is_ws c = false.
Proof.
  destruct s as [|c rest]; [by left|]. intros Ht. right. exists c, rest.
  split; [done|]. destruct (is_ws c) eqn:E; [|done]. exfalso.
  unfold trim in Ht. simpl in Ht. rewrite E in Ht.
  assert (forall t, length (trimStart t) <= length t)%nat as Hs.
  { induction t as [|d t IH]; simpl; [done|]. destruct (is_ws d); simpl; lia. }
  assert (forall t, length (trimEnd t) <= length t)%nat as He.
  { intros t. unfold trimEnd. rewrite length_rev.
    etrans; [apply Hs|]. by rewrite length_rev. }
  apply (f_equal length) in Ht. simpl in Ht.
  pose proof (He (trimStart rest)). pose proof (Hs rest). lia.
Qed.

(** What the text of a scalar value is like. *)
Lemma scalar_text (v : jsval) :
  scalar v = true ->
  let text := toString v in
  Forall (fun c => c <> 10%N) text
  /\ existsb is_line_terminator text = false
  /\ snd (span_while is_ws (32%N :: text)) = text
  /\ parseYamlValue text = Ok v.
Proof.
  destruct v as [| |b|n|s|items|fields]; try done.
  - intros _. destruct b; simpl; repeat split; try reflexivity;
      repeat (constructor; [discriminate|]); constructor.
  - cbn [scalar toString]. unfold plain_text.
    rewrite !andb_true_iff, !negb_true_iff.
    intros [[[[[[[[Htrim Hlt] Htrue] Hfalse] Hint] Hdec] Harr] Hquo] Hsq].
    apply str_eqb_eq in Htrim.
    split; [|split; [done|split]].
    + apply Forall_forall. intros c Hc ->.
      assert (existsb is_line_terminator s = true) as Ht; [|congruence].
      apply existsb_exists. exists 10%N. split; [by apply list_elem_of_In|done].
    + cbn [span_while]. change (is_ws 32) with true.
      destruct (trim_fixed_head s Htrim) as [->|(c & rest & -> & Hc)]; [done|].
      simpl. by rewrite Hc.
    + unfold parseYamlValue. rewrite Htrim.
      destruct (str_eqb s []) eqn:E; [by apply str_eqb_eq in E as ->|].
      rewrite Htrue, Hfalse, Hint, Hdec, Harr, Hquo, Hsq. done.
Qed.

Lemma field_line_head (kv : jsstring * jsval) :
  plain_key (fst kv) = true ->
  exists c rest, field_line kv = c :: rest /\ is_key_unit c = true.
Proof.
  intros ((c & rest & Hk & Hc) & _)%plain_key_spec.
  unfold field_line. rewrite Hk. by eexists _, _.
Qed.

Lemma startsWith_prefix (p : jsstring) :
  forall s, startsWith s p = true -> exists r, s = p ++ r.
Proof.
  induction p as [|c p IH]; intros s; [by exists s|].
  destruct s as [|d s]; [done|]. cbn [startsWith].
  intros [->%N.eqb_eq Hs]%andb_true_iff.
  destruct (IH s Hs) as [r ->]. by exists r.
Qed.

Lemma field_line_not_closing (kv : jsstring * jsval) :
  plain_key (fst kv) = true -> is_closing (field_line kv) = false.
Proof.
  intros _. apply not_true_is_false. unfold is_closing.
  intros [Hstart Hws]%andb_true_iff.
  apply startsWith_prefix in Hstart as [r Hr]. rewrite Hr in Hws.
  change (drop 3 (js "---" ++ r)) with r in Hws.
  assert (58%N ∈ field_line kv) as Hcolon.
  { unfold field_line. apply elem_of_app. right. by left. }
  rewrite Hr in Hcolon.
  apply elem_of_app in Hcolon as [Hc|Hc].
  - by repeat (apply elem_of_cons in Hc as [Hc|Hc]; [done|]);
      apply elem_of_nil in Hc.
  - rewrite forallb_forall in Hws.
    by apply list_elem_of_In, Hws in Hc.
Qed.

Lemma getIndentLevel_head (line : jsstring) (c : N) (rest : jsstring) :
  line = c :: rest -> is_ws c = false -> getIndentLevel line = 0%nat.
Proof. intros -> Hc. unfold getIndentLevel. simpl. by rewrite Hc. Qed.

(** A line of a top-level scalar field is read as its key and value. *)
Lemma parseYamlBlock_fields (l : list (jsstring * jsval)) :
  Forall (fun kv => plain_key (fst kv) = true /\ scalar (snd kv) = true) l ->
  forall fuel acc,
    (length l <= fuel)%nat ->
    parseYamlBlock fuel (List.map field_line l) 0 acc
    = Ok (fold_left (fun a kv => put (fst kv) (snd kv) a) l acc, []).
Proof.
  induction 1 as [|[k v] l [Hk Hv] Hl IH]; intros fuel acc Hfuel.
  { by destruct fuel. }
  destruct fuel as [|fuel]; [simpl in Hfuel; lia|].
  cbn [List.map parseYamlBlock].
  destruct (field_line_head (k, v) Hk) as (c & rest & Hline & Hc).
  pose proof (key_unit_not_ws c Hc) as Hws.
  destruct (key_unit_ordinary c Hc) as (_ & Hhash & _).
  rewrite (getIndentLevel_head _ c rest Hline Hws).
  assert (exists rest', trim (field_line (k, v)) = c :: rest') as [rest' Htrim].
  { unfold trim. rewrite (trimStart_id _ c rest Hline Hws), Hline.
    by apply trimEnd_head. }
  rewrite Htrim.
  rewrite (proj2 (str_eqb_neq (c :: rest') [])) by done.
  change (0 <? 0)%nat with false. cbn [andb orb negb].
  assert (startsWith (c :: rest') (js "#") = false) as ->.
  { cbn [startsWith js List.map list_ascii_of_string].
    apply andb_false_iff. left. apply N.eqb_neq.
    intros Heq. apply Hhash. by rewrite <- Heq. }
  destruct (scalar_text v Hv) as (Hnl & Hlt & Hval & Hparse).
  assert (match_field (field_line (k, v)) = Some (k, toString v)) as ->.
  { unfold match_field.
    assert (span_while is_ws (field_line (k, v)) = ([], field_line (k, v))) as ->.
    { rewrite Hline. simpl. by rewrite Hws. }
    destruct (plain_key_spec k Hk) as ((c' & krest & Hkk & _) & Hall & _).
    unfold field_line. cbn [fst snd].
    change (js ": " ++ toString v) with (58%N :: 32%N :: toString v).
    rewrite span_while_app by done. rewrite Hkk. rewrite <- Hkk.
    by rewrite Hval, Hlt. }
  assert (match List.map field_line l with
          | [] => None
          | next :: _ =>
              if str_eqb next [] then None
              else if str_eqb (toString v) []
                      && (0 <? getIndentLevel next)%nat
              then Some (getIndentLevel next) else None
          end = None) as ->.
  { destruct l as [|kv' l']; [done|]. cbn [List.map].
    apply Forall_cons in Hl as [[Hk' _] _].
    destruct (field_line_head kv' Hk') as (c' & r' & Hl' & Hc').
    rewrite (getIndentLevel_head _ c' r' Hl' (key_unit_not_ws c' Hc')), Hl'.
    rewrite (proj2 (str_eqb_neq (c' :: r') [])) by done.
    by rewrite andb_false_r. }
  rewrite Hparse. cbn [mbind result_bind]. apply IH. simpl in Hfuel. lia.
Qed.

Lemma split_at_closing_fields (lines : list jsstring) (rest : list jsstring) :
  Forall (fun line => is_closing line = false) lines ->
  split_at_closing (lines ++ js "---" :: rest) = Some (lines, rest).
Proof.
  induction 1 as [|line lines Hline _ IH]; [done|].
  simpl. by rewrite Hline, IH.
Qed.

(** X26. Front matter of plain keys with boolean and plain string values
    survives being written and read back: [parseFrontmatter] applied to
    what [buildNote] made of the front matter and a body returns that
    front matter and that body. *)
Theorem parseFrontmatter_buildNote (fm : jsobject) (body : jsstring) :
  fm <> [] ->
  one_value_per_key fm ->
  Forall (fun kv => plain_key (fst kv) = true /\ scalar (snd kv) = true) fm ->
  parseFrontmatter (buildNote fm body) = Ok (fm, body).
Proof.
  intros Hne Hnd Hfm.
  assert (entries fm = fm) as Hent.
  { apply entries_without_index. eapply Forall_impl; [exact Hfm|].
    intros kv [Hk _]. by apply plain_key_spec in Hk as (_ & _ & _ & ?). }
  assert (flat_map (fun kv => addYamlField (depth (snd kv)) (fst kv) (snd kv) 0) fm
          = List.map field_line fm) as Hlines.
  { clear Hne Hnd Hent. induction Hfm as [|[k v] fm [_ Hv] _ IH]; [done|].
    cbn [flat_map List.map]. rewrite IH. f_equal.
    destruct v; try done. }
  unfold buildNote. destruct fm as [|kv0 fm0] eqn:Efm; [done|].
  rewrite <- Efm in *. rewrite Hent, Hlines. clear Hent Hlines.
  set (lines := List.map field_line fm).
  assert (Forall (Forall (fun c => c <> 10%N)) ((js "---" :: lines) ++ [js "---"]))
    as Hnl.
  { apply Forall_app. split; [apply Forall_cons; split|].
    - repeat (constructor; [discriminate|]). constructor.
    - apply Forall_forall. intros line Hline.
      apply list_elem_of_fmap in Hline as ([k v] & -> & Hkv).
      eapply Forall_forall in Hfm as [Hk Hv]; [|done]. cbn [fst snd] in *.
      unfold field_line. cbn [fst snd].
      apply Forall_app. split; [|apply Forall_app; split].
      + apply plain_key_spec in Hk as (_ & Hall & _).
        eapply Forall_impl; [exact Hall|]. intros c Hc.
        by apply key_unit_ordinary in Hc as (? & _).
      + repeat (constructor; [discriminate|]). constructor.
      + by apply scalar_text in Hv as (? & _).
    - repeat constructor; discriminate. }
  unfold parseFrontmatter. fold nl.
  change ([js "---"] ++ lines ++ [js "---"])
    with ((js "---" :: lines) ++ [js "---"]).
  rewrite (split_on_lines (js "---" :: lines) (js "---") body Hnl).
  cbn [app]. rewrite str_eqb_refl.
  rewrite split_at_closing_fields.
  2:{ apply Forall_forall. intros line Hline.
      apply list_elem_of_fmap in Hline as (kv & -> & Hkv).
      eapply Forall_forall in Hfm as [Hk _]; [|done].
      by apply field_line_not_closing. }
  unfold lines. rewrite length_map.
  rewrite (parseYamlBlock_fields fm Hfm (length fm) []) by done.
  cbn [mbind result_bind].
  rewrite fold_put_fresh; try done.
  - cbn [app]. f_equal. f_equal. apply (join_split_on 10).
  - eapply Forall_impl; [exact Hfm|]. intros kv [Hk _].
    by apply plain_key_spec in Hk as (_ & _ & ? & _).
  - by apply Forall_forall.
Qed.

(** * Sanitizing the listed symbols *)

Lemma startsWith_nil (s : jsstring) : startsWith s [] = true.
Proof. by destruct s. Qed.

Lemma startsWith_overlap (x : jsstring) :
  forall b p, startsWith (x ++ b) p = true -> overlap x p = true.
Proof.
  unfold overlap. induction x as [|c x IH]; intros b p H.
  - rewrite startsWith_nil. apply orb_true_r.
  - destruct p as [|d p]; [by rewrite startsWith_nil|].
    cbn [app startsWith] in *.
    apply andb_true_iff in H as [Hd H]. rewrite Hd.
    apply N.eqb_eq in Hd as ->. rewrite N.eqb_refl. cbn [andb].
    by apply (IH b).
Qed.

Lemma forallb_fmap {A B} (f : B -> bool) (g : A -> B) (l : list A) :
  forallb f (List.map g l) = forallb (fun a => f (g a)) l.
Proof. induction l as [|a l IH]; simpl; [done|]. by rewrite IH. Qed.

Lemma replaceAll_no_match (pat rep : jsstring) (x : jsstring) :
  forall b,
    no_overlap x pat = true ->
    replaceAll_from pat rep 0 (x ++ b) = x ++ replaceAll_from pat rep 0 b.
Proof.
  unfold no_overlap. induction x as [|c x IH]; intros b H; [done|].
  cbn [length seq forallb] in H. apply andb_true_iff in H as [H0 H].
  cbn [app replaceAll_from].
  assert (startsWith (c :: x ++ b) pat = false) as ->.
  { apply not_true_is_false. intros Hs.
    apply (startsWith_overlap (c :: x) b pat) in Hs.
    cbn [drop] in H0. by rewrite Hs in H0. }
  f_equal. apply IH.
  rewrite <- seq_shift, forallb_fmap in H. exact H.
Qed.

Lemma replaceAll_skip (pat rep y : jsstring) :
  forall b, replaceAll_from pat rep (length y) (y ++ b)
            = replaceAll_from pat rep 0 b.
Proof.
  induction y as [|c y IH]; intros b; [done|]. cbn [length app].
  cbn [replaceAll_from]. apply IH.
Qed.

Lemma replaceAll_match (c : N) (pat rep b : jsstring) :
  replaceAll_from (c :: pat) rep 0 ((c :: pat) ++ b)
  = rep ++ replaceAll_from (c :: pat) rep 0 b.
Proof.
  cbn [app replaceAll_from].
  pose proof (startsWith_app (c :: pat) b) as Hs. cbn [app] in Hs. rewrite Hs.
  f_equal. cbn [length]. rewrite Nat.sub_succ, Nat.sub_0_r.
  apply replaceAll_skip.
Qed.

Lemma replaceAll_ascii_prefix (c : N) (pat rep a s : jsstring) :
  (127 <? c)%N = true -> ascii_text a ->
  replaceAll_from (c :: pat) rep 0 (a ++ s)
  = a ++ replaceAll_from (c :: pat) rep 0 s.
Proof.
  intros Hc Ha. induction Ha as [|d a Hd _ IH]; [done|].
  cbn [app replaceAll_from startsWith].
  unfold is_ascii_unit in Hd. apply N.leb_le in Hd. apply N.ltb_lt in Hc.
  destruct (c =? d)%N eqn:E; [apply N.eqb_eq in E; lia|].
  cbn [andb]. by rewrite IH.
Qed.

Lemma replaceAll_other (c : N) (pat rep a x b : jsstring) :
  (127 <? c)%N = true -> no_overlap x (c :: pat) = true ->
  ascii_text a -> ascii_text b ->
  replaceAll (c :: pat) rep (a ++ x ++ b) = a ++ x ++ b.
Proof.
  intros Hc Hx Ha Hb. unfold replaceAll.
  rewrite replaceAll_ascii_prefix, replaceAll_no_match by done.
  do 2 f_equal. apply (replaceAll_ascii (c :: pat) rep b c pat); [done| |done].
  by apply N.ltb_lt.
Qed.

Lemma replaceAll_listed (c : N) (pat rep a b : jsstring) :
  (127 <? c)%N = true -> ascii_text a -> ascii_text b ->
  replaceAll (c :: pat) rep (a ++ (c :: pat) ++ b) = a ++ rep ++ b.
Proof.
  intros Hc Ha Hb. unfold replaceAll.
  rewrite replaceAll_ascii_prefix, replaceAll_match by done.
  do 2 f_equal. apply (replaceAll_ascii (c :: pat) rep b c pat); [done| |done].
  by apply N.ltb_lt.
Qed.

Lemma ascii_text_app (a b : jsstring) :
  ascii_text a -> ascii_text b -> ascii_text (a ++ b).
Proof. intros Ha Hb. by apply Forall_app. Qed.

Lemma ascii_text_js (s : string) :
  forallb is_ascii_unit (js s) = true -> ascii_text (js s).
Proof.
  intros H. apply Forall_forall. intros c Hc.
  rewrite forallb_forall in H. by apply H, list_elem_of_In.
Qed.

Ltac sanitize_step :=
  first
    [ rewrite replaceAll_listed by (reflexivity || assumption)
    | rewrite replaceAll_other by (reflexivity || assumption)
    | rewrite (replaceAll_ascii _ _ _ _ _ eq_refl)
        by (lia || (repeat apply ascii_text_app; try assumption;
                    by apply ascii_text_js)) ].

(** X27. Each symbol of the replacement list, standing in ASCII text, is
    replaced by its text: [sanitizeUnicode] turns the check mark into
    [[DONE]], the arrow into [->], and so on for the twelve symbols, and
    leaves the text around it as it is. *)
Theorem sanitizeUnicode_replaces_listed_symbols (symbol text a b : jsstring) :
  In (symbol, text) emoji_table ->
  ascii_text a -> ascii_text b ->
  sanitizeUnicode (a ++ symbol ++ b) = a ++ text ++ b.
Proof.
  intros Hin Ha Hb.
  assert (ascii_text text) as Htext.
  { unfold emoji_table in Hin. simpl in Hin.
    repeat (destruct Hin as [[= <- <-]|Hin]; [by apply ascii_text_js|]). done. }
  assert (fold_left (fun t pr => replaceAll (fst pr) (snd pr) t) emoji_table
                    (a ++ symbol ++ b) = a ++ text ++ b) as Hfold.
  { unfold emoji_table in *. cbn [In] in Hin.
    repeat (destruct Hin as [Heq|Hin];
            [injection Heq as <- <-; cbn [fold_left fst snd];
             repeat sanitize_step; reflexivity|]).
    done. }
  unfold sanitizeUnicode. rewrite Hfold.
  assert (ascii_text (a ++ text ++ b)) as Hall.
  { by repeat apply ascii_text_app. }
  rewrite strip_emoji_ascii by done. by apply filter_ascii.
Qed.

(** * The inbox notes a batch takes, and where it files them *)

(** X28. A folder suggested by the learning data overrides the folder of
    the AI suggestions: a note that is filed goes to the path that
    collision resolution returns for the learned folder and the base name
    of the note, whatever folder its suggestions name. *)
Theorem learned_folder_overrides_suggestion (e : env) (w w' : world) (n : note)
        (o : file_options) (h : hints) (folder : jsstring) (d : detail) :
  getFolderHints (learning w) (body n) = Ok h ->
  suggestedFolder h = Some folder ->
  folder <> [] ->
  fileNote e w n o = (w', Ok d) ->
  d_action d = Filed ->
  exists target,
    resolveCollision (vault w)
                     (Path.join2 folder (Path.basename (path n))) (dryRun o)
    = Ok target
    /\ d_targetPath d = Some target.
Proof.
  intros Hh Hf Hne. unfold fileNote. cbv zeta.
  destruct (c ← get_prop _ _; parseConfidence c) as [c|err]; [|by intros [=]].
  destruct (num_ltb c (minConfidence o)).
  { intros Hq%queueForReview_report Ha. destruct Hq as (_ & Hq & _). congruence. }
  rewrite Hh. cbn [mbind result_bind]. rewrite Hf.
  apply str_eqb_neq in Hne. rewrite Hne. cbn [mbind result_bind].
  destruct (resolveCollision _ _ _) as [target|err];
    cbn [mbind result_bind]; [|by intros [=]].
  destruct (buildUpdatedNote _ _ _) as [updated|err];
    cbn [mbind result_bind]; [|by intros [=]].
  destruct (dryRun o).
  - intros [= <- <-] _. by exists target.
  - destruct (deleteNote _ _ _); [|by intros [=]].
    intros [= <- <-] _. by exists target.
Qed.

Lemma learned_folder_overrides_suggestion_witness :
  let w := mkWorld (vault inbox_world) Missing one_folder [] in
  let n := note_of (js "inbox/n.md")
                   (high_note (js "archive") (js "machine learning notes")) in
  let o := mkFileOptions default_minConfidence true first_session in
  prop (suggestions_of n) (js "folder") = VStr (js "archive")
  /\ exists w' d,
       fileNote sample_env w n o = (w', Ok d)
       /\ d_targetPath d = Some (js "projects/ai/n.md").
Proof.
  intros w n o. split; [vm_compute; reflexivity|].
  destruct (getFolderHints (learning w) (body n)) as [h|err] eqn:Eh;
    [|by vm_compute in Eh].
  destruct (fileNote sample_env w n o) as [w' [d|err]] eqn:Ef;
    [|by vm_compute in Ef].
  exists w', d. split; [reflexivity|].
  destruct (learned_folder_overrides_suggestion sample_env w w' n o h
              (js "projects/ai") d Eh) as (target & Hr & Ht).
  - vm_compute in Eh. injection Eh as <-. reflexivity.
  - discriminate.
  - exact Ef.
  - vm_compute in Ef. injection Ef as _ <-. reflexivity.
  - rewrite Ht. f_equal. vm_compute in Hr. by injection Hr as <-.
Defined.

Lemma parseFrontmatter_empty : parseFrontmatter [] = Ok ([], []).
Proof. reflexivity. Qed.

Lemma read_processed_live (db : database) (paths : list jsstring) :
  forall notes,
    read_processed db paths = Ok notes ->
    Forall (fun n =>
              parseFrontmatter (content n) = Ok (frontmatter n, body n)
              /\ truthy (suggestions_of n) = true
              /\ content n <> []
              /\ exists p, p ∈ paths
                           /\ readNote db p
                              = Ok (Some (mkNoteFile (path n) (content n))))
           notes.
Proof.
  induction paths as [|p paths IH]; intros notes; simpl.
  { intros [= <-]. constructor. }
  unfold mbind, result_bind.
  assert (forall others,
             read_processed db paths = Ok others ->
             Forall (fun n =>
                       parseFrontmatter (content n) = Ok (frontmatter n, body n)
                       /\ truthy (suggestions_of n) = true
                       /\ content n <> []
                       /\ exists q, q ∈ p :: paths
                                    /\ readNote db q
                                       = Ok (Some (mkNoteFile (path n) (content n))))
                    others) as Hrest.
  { intros others Ho. eapply Forall_impl; [by apply IH|].
    intros n (H1 & H2 & H3 & q & Hq & Hr). repeat split; try done.
    exists q. split; [by right|done]. }
  destruct (readNote db p) as [[f|]|err] eqn:Er; [|by apply Hrest|done].
  destruct (parseFrontmatter (file_content f)) as [[fm body]|err] eqn:Ep; [|done].
  destruct (read_processed db paths) as [others|err]; [|done].
  specialize (Hrest others eq_refl).
  destruct (truthy _) eqn:Et; intros [= <-]; [|done].
  constructor; [|done]. cbn [content frontmatter Filer.body path].
  split; [done|]. split; [exact Et|]. split.
  - intros Hempty. rewrite Hempty, parseFrontmatter_empty in Ep.
    injection Ep as <- <-. discriminate.
  - exists p. split; [by left|]. by destruct f.
Qed.

(** X29. The notes a batch takes from the inbox are listed notes under
    the inbox path that are read with content and that carry AI
    suggestions in their front matter. A note without suggestions is left
    alone, and so is a note that a soft delete has emptied: the original
    of a note filed or queued is never taken again. *)
Theorem processed_notes_carry_suggestions (e : env) (db : database)
        (notes : list note) :
  getProcessedInboxNotes e db = Ok notes ->
  Forall (fun n =>
            parseFrontmatter (content n) = Ok (frontmatter n, body n)
            /\ truthy (suggestions_of n) = true
            /\ content n <> []
            /\ exists p, p ∈ listNotes db
                         /\ startsWith p (inboxPath e) = true
                         /\ readNote db p
                            = Ok (Some (mkNoteFile (path n) (content n))))
         notes.
Proof.
  intros Hn. apply read_processed_live in Hn.
  eapply Forall_impl; [exact Hn|].
  intros n (H1 & H2 & H3 & p & Hp & Hr). repeat split; try done.
  apply list_elem_of_In, filter_In in Hp as [Hp Hs].
  exists p. split; [by apply list_elem_of_In|done].
Qed.

Lemma processed_notes_carry_suggestions_witness :
  exists notes,
    getProcessedInboxNotes later_env (vault filed_world) = Ok notes
    /\ List.map path notes = [js "inbox/review-queue/low-confidence-test.md"]
    /\ Forall (fun n => content n <> []) notes.
Proof.
  destruct (getProcessedInboxNotes later_env (vault filed_world))
    as [notes|err] eqn:E; [|by vm_compute in E].
  exists notes. split; [reflexivity|].
  pose proof (processed_notes_carry_suggestions later_env (vault filed_world)
                notes E) as H.
  split.
  - vm_compute in E. injection E as <-. reflexivity.
  - eapply Forall_impl; [exact H|]. by intros n (_ & _ & ? & _).
Defined.

(** * Filing, then undoing *)

(** ** The ledger writes of a session, once they have completed *)

Lemma own_absent_elem {A} (k : jsstring) (o : list (jsstring * A)) (v : A) :
  own k o = None -> (k, v) ∉ o.
Proof.
  induction o as [|[k' v'] o IH]; simpl; [by intros _ ?%elem_of_nil|].
  destruct (str_eqb k k') eqn:E; [done|].
  intros Hown [[= -> ->]|Hin]%elem_of_cons.
  - by rewrite str_eqb_refl in E.
  - by apply IH.
Qed.

Lemma own_only_value {A} (k : jsstring) (v : A) (o : list (jsstring * A)) :
  (k, v) ∈ o -> (forall v', (k, v') ∈ o -> v' = v) -> own k o = Some v.
Proof.
  induction o as [|[k' v'] o IH]; simpl; [by intros ?%elem_of_nil|].
  intros Hin Hall. destruct (str_eqb k k') eqn:E.
  - apply str_eqb_eq in E. subst k'. f_equal. apply Hall. by left.
  - apply IH.
    + apply elem_of_cons in Hin as [[= -> ->]|Hin]; [|done].
      by rewrite str_eqb_refl in E.
    + intros v'' Hv. apply Hall. by right.
Qed.

Lemma length_filter_Permutation {A} (f : A -> bool) (l l' : list A) :
  l ≡ₚ l' -> length (List.filter f l) = length (List.filter f l').
Proof.
  induction 1 as [|x l l' _ IH|x y l|l l' l'' _ IH1 _ IH2]; simpl.
  - done.
  - destruct (f x); simpl; by rewrite IH.
  - by destruct (f x), (f y).
  - by rewrite IH1.
Qed.

Lemma filter_all {A} (f : A -> bool) (l : list A) :
  Forall (fun x => f x = true) l -> List.filter f l = l.
Proof.
  induction 1 as [|x l Hx _ IH]; simpl; [done|]. by rewrite Hx, IH.
Qed.

Lemma filter_elem_length {A} (f : A -> bool) (l : list A) (x : A) :
  x ∈ l -> f x = true -> (1 <= length (List.filter f l))%nat.
Proof.
  induction 1 as [x l|x y l _ IH]; simpl; intros Hx.
  - rewrite Hx. simpl. lia.
  - destruct (f y); simpl; [lia|]. by apply IH.
Qed.

(** A session that starts at [t] survives the cut of [saveHistory] when
    fewer than a hundred other sessions started at [t] or later. *)
Lemma saveHistory_keeps_new (h : sessions) (sid : jsstring) (s : session) :
  own sid h = None ->
  room_since (startTime s) h ->
  (length (saveHistory (h ++ [(sid, s)])) <= 100)%nat
  /\ own sid (saveHistory (h ++ [(sid, s)])) = Some s.
Proof.
  intros Hown Hroom. unfold saveHistory.
  destruct (100 <? length (h ++ [(sid, s)]))%nat eqn:Elen.
  2:{ apply Nat.ltb_ge in Elen. split; [done|].
      rewrite own_app_None by done. simpl. by rewrite str_eqb_refl. }
  apply Nat.ltb_lt in Elen.
  set (L := sort most_recent_first (entries (h ++ [(sid, s)]))).
  assert (L ≡ₚ h ++ [(sid, s)]) as HL.
  { unfold L. by rewrite sort_Permutation, entries_Permutation. }
  split; [rewrite length_take; lia|].
  apply own_only_value.
  - assert ((sid, s) ∈ L) as Hin.
    { rewrite HL. apply elem_of_app. right. by left. }
    rewrite <- (take_drop 100 L) in Hin.
    apply elem_of_app in Hin as [Hin|Hin]; [done|]. exfalso.
    pose proof (sort_most_recent_first (entries (h ++ [(sid, s)]))) as Hs.
    fold L in Hs. rewrite <- (take_drop 100 L) in Hs.
    set (recent := fun kv : jsstring * session =>
                     (startTime s <=? startTime (snd kv))%Z) in *.
    assert (Forall (fun kv => recent kv = true) (take 100 L)) as Hall.
    { apply Forall_forall. intros kv Hkv. unfold recent.
      apply Z.leb_le.
      exact (StronglySorted_app_1_elem_of _ _ _ _ _ Hs Hkv Hin). }
    assert (length (List.filter recent L) = S (length (List.filter recent h)))
      as Hcount.
    { rewrite (length_filter_Permutation recent _ _ HL), List.filter_app,
              length_app.
      simpl. unfold recent at 2. simpl. rewrite Z.leb_refl. simpl. lia. }
    rewrite <- (take_drop 100 L), List.filter_app, length_app,
            (filter_all _ _ Hall), length_take in Hcount.
    assert (length L = length (h ++ [(sid, s)])) as HlenL.
    { by rewrite HL. }
    pose proof (filter_elem_length recent (drop 100 L) (sid, s) Hin) as Hone.
    unfold recent at 1 in Hone. simpl in Hone.
    specialize (Hone (Z.leb_refl _)).
    unfold room_since in Hroom. fold recent in Hroom. lia.
  - intros s' Hin. apply subseteq_take in Hin.
    rewrite HL in Hin. apply elem_of_app in Hin as [Hin|Hin].
    + by apply own_absent_elem in Hin.
    + apply list_elem_of_singleton in Hin. congruence.
Qed.

(** The first call for a session that the history does not hold. *)
Lemma trackOperation_opens (es : env) (f : file sessions) (h : sessions)
      (sid : jsstring) (op : operation) :
  loadHistory f = Ok h -> get sid h = Absent -> room_since (now es) h ->
  exists h1,
    trackOperation es f sid op = Ok h1
    /\ (length h1 <= 100)%nat
    /\ own sid h1 = Some (mkSession (now es) [op] false None).
Proof.
  intros Hh Hget Hroom. unfold trackOperation. rewrite Hh.
  cbn [mbind result_bind]. rewrite Hget.
  unfold get in Hget. destruct (own sid h) eqn:Hown; [done|].
  destruct (inherited sid) eqn:Hinh; [done|].
  assert (put sid (mkSession (now es) [op] false None) h
          = h ++ [(sid, mkSession (now es) [op] false None)]) as ->.
  { unfold put. destruct (str_eqb sid (js "__proto__")) eqn:E.
    - apply str_eqb_eq in E. subst sid. discriminate.
    - by apply put_own_absent. }
  eexists. split; [reflexivity|]. by apply saveHistory_keeps_new.
Qed.

(** A later call for a session that the history holds. *)
Lemma trackOperation_extends (es : env) (h : sessions) (s : session)
      (sid : jsstring) (op : operation) :
  own sid h = Some s -> (length h <= 100)%nat ->
  exists h1,
    trackOperation es (Stored h) sid op = Ok h1
    /\ (length h1 <= 100)%nat
    /\ own sid h1
       = Some (mkSession (startTime s) (operations s ++ [op]) (undone s)
                         (undoneAt s)).
Proof.
  intros Hown Hlen. unfold trackOperation, get. simpl. rewrite Hown.
  assert (length (put_own sid (mkSession (startTime s) (operations s ++ [op])
                                         (undone s) (undoneAt s)) h)
          = length h) as Hl.
  { by rewrite length_put_own, Hown. }
  rewrite saveHistory_small by lia.
  eexists. split; [reflexivity|]. split; [lia|]. apply own_put_own.
Qed.

Lemma complete_extends (es : env) (sid : jsstring)
      (calls : list (jsstring * operation)) :
  Forall (fun call => fst call = sid) calls ->
  forall h s,
    own sid h = Some s -> (length h <= 100)%nat ->
    exists h1 s1,
      fold_left (complete es) calls (Stored h, []) = (Stored h1, [])
      /\ own sid h1 = Some s1
      /\ operations s1 = operations s ++ List.map snd calls.
Proof.
  induction 1 as [|[sid' op] calls Hsid _ IH]; intros h s Hown Hlen.
  - exists h, s. by rewrite List.app_nil_r.
  - simpl in Hsid. subst sid'.
    destruct (trackOperation_extends es h s sid op Hown Hlen)
      as (h1 & Ht & Hlen1 & Hown1).
    assert (complete es (Stored h, []) (sid, op) = (Stored h1, [])) as Hc.
    { unfold complete. cbn [fst snd]. by rewrite Ht. }
    cbn [fold_left]. rewrite Hc.
    destruct (IH h1 _ Hown1 Hlen1) as (h2 & s2 & Hf & Hown2 & Hops).
    exists h2, s2. split; [done|]. split; [done|].
    rewrite Hops. simpl. by rewrite <- List.app_assoc.
Qed.

(** The detached calls of one batch, completed in order, leave the
    session of the batch in the ledger with the operations in the order
    the batch handed them over. *)
Lemma settle_session (es : env) (w : world) (h : sessions) (sid : jsstring)
      (op : operation) (ops : list operation) :
  loadHistory (history w) = Ok h -> get sid h = Absent ->
  room_since (now es) h ->
  pending_for sid w -> pending_ops w = op :: ops ->
  exists h1 s,
    settle es w = (mkWorld (vault w) (Stored h1) (learning w) [], [])
    /\ get sid h1 = Own s /\ operations s = op :: ops.
Proof.
  intros Hh Hget Hroom Hfor Hops. unfold settle, pending_for, pending_ops in *.
  destruct (detached w) as [|[sid' op'] calls]; [done|].
  apply Forall_cons in Hfor as [Hsid Hfor]. simpl in Hsid, Hops. subst sid'.
  injection Hops as -> Hops.
  destruct (trackOperation_opens es (history w) h sid op Hh Hget Hroom)
    as (h1 & Ht & Hlen1 & Hown1).
  assert (complete es (history w, []) (sid, op) = (Stored h1, [])) as Hc.
  { unfold complete. cbn [fst snd]. by rewrite Ht. }
  cbn [fold_left]. rewrite Hc.
  destruct (complete_extends es sid calls Hfor h1 _ Hown1 Hlen1)
    as (h2 & s2 & Hf & Hown2 & Hops2).
  rewrite Hf. exists h2, s2. split; [reflexivity|]. unfold get. rewrite Hown2.
  split; [reflexivity|]. rewrite Hops2. simpl. by rewrite Hops.
Qed.

(** ** The detached calls of a batch *)

Lemma relocate_pending (e : env) (w : world) (n : note)
      (sid act t upd : jsstring) :
  pending_for sid w ->
  pending_for sid (fst (relocate e w n sid act t upd))
  /\ pending_ops (fst (relocate e w n sid act t upd))
     = pending_ops w
         ++ match snd (relocate e w n sid act t upd) with
            | None => [mkOperation act (path n) t (now e) (content n) upd]
            | Some _ => []
            end.
Proof.
  intros Hl. unfold relocate, pending_for, pending_ops.
  destruct (deleteNote _ _ _) as [db2|err]; simpl.
  - split; [|by rewrite map_app].
    apply Forall_app. split; [done|]. by repeat constructor.
  - by rewrite List.app_nil_r.
Qed.

Lemma relocate_history (e : env) (w : world) (n : note)
      (sid act t upd : jsstring) :
  history (fst (relocate e w n sid act t upd)) = history w.
Proof. unfold relocate. by destruct (deleteNote _ _ _). Qed.

(** Filing a note leaves the history file as it is: what it records is
    handed to a detached call. *)
Lemma fileNote_history (e : env) (w : world) (n : note) (o : file_options) :
  history (fst (fileNote e w n o)) = history w.
Proof.
  destruct (fileNote_effect e w n o)
    as [res H0 H1|upd w1 res Hd Hc Hw Hr|t upd w1 res Hd Hc Hf Hw Hr].
  - done.
  - subst w1. apply relocate_history.
  - subst w1. apply relocate_history.
Qed.

Lemma fileNotes_history (e : env) (w : world) (o : options) :
  history (fst (fileNotes e w o)) = history w.
Proof.
  unfold fileNotes.
  destruct (getProcessedInboxNotes e (vault w)) as [[|n notes]|err]; [done| |done].
  destruct (fold_file_step_Forall2 (fun w' => history w' = history w)
              (fun _ => True) (fun _ _ => True) e (file_options_of e o)
              (fun w0 n' Hw _ =>
                 conj (eq_trans (fileNote_history e w0 n' (file_options_of e o)) Hw)
                      (match snd (fileNote e w0 n' (file_options_of e o)) as x
                             return match x with Ok _ => True | Throw _ => True end
                       with Ok _ => I | Throw _ => I end))
              (slice_to (n :: notes) (effective_limit o)) w (empty_results e o)
              eq_refl (proj2 (Forall_forall _ _) (fun _ _ => I))
              (tallied_empty e o None)) as (Hh & _).
  by destruct (fold_left _ _ _).
Qed.

Lemma relocate_target_present (e : env) (w : world) (n : note)
      (sid act t upd : jsstring) :
  present (vault (fst (relocate e w n sid act t upd))) t.
Proof.
  unfold relocate, present.
  destruct (deleteNote _ _ _) as [db2|err] eqn:E; simpl.
  - eapply deleteNote_is_Some; [done|]. rewrite writeNote_lookup. by eexists.
  - rewrite writeNote_lookup. by eexists.
Qed.

Lemma op_clear_grows (db db' : database) (O : jsstring) (op : operation) :
  grows db db' -> op_clear db O op -> op_clear db' O op.
Proof.
  intros Hg (H1 & H2 & H3 & H4). repeat split; try done; by apply Hg.
Qed.

Lemma relocate_before_note (e : env) (w : world) (n : note)
      (sid act t upd O : jsstring) (db0 : database) :
  before_note sid O db0 w ->
  present db0 (path n) -> pathToId (path n) <> O -> pathToId t <> O ->
  before_note sid O db0 (fst (relocate e w n sid act t upd)).
Proof.
  intros (Hg & Hl & Hops) Hp Hn Ht.
  pose proof (relocate_grows e w n sid act t upd) as Hg'.
  destruct (relocate_pending e w n sid act t upd Hl) as [Hl' Hops'].
  split; [by eapply grows_trans|]. split; [done|].
  rewrite Hops'. apply Forall_app. split.
  - eapply Forall_impl; [exact Hops|]. intros op. by apply op_clear_grows.
  - destruct (snd (relocate e w n sid act t upd)); [constructor|].
    constructor; [|constructor]. repeat split; simpl; try done.
    + by apply Hg', Hg.
    + apply relocate_target_present.
Qed.

Lemma fileNote_before_note (e : env) (w : world) (n : note) (o : file_options)
      (O : jsstring) (db0 : database) :
  before_note (sessionId o) O db0 w ->
  is_Some (db0 !! O) -> present db0 (path n) ->
  pathToId (path n) <> O -> pathToId (queue_path n) <> O ->
  before_note (sessionId o) O db0 (fst (fileNote e w n o)).
Proof.
  intros Hb HO Hp Hn Hq.
  destruct (fileNote_effect e w n o)
    as [res H0 H1|upd w1 res Hd Hc Hw Hr|t upd w1 res Hd Hc Hf Hw Hr].
  - done.
  - subst w1. by apply relocate_before_note.
  - subst w1. apply relocate_before_note; try done.
    intros <-. destruct Hb as (Hg & _). apply Hg in HO.
    rewrite Hf in HO. by destruct HO.
Qed.

Lemma fileNote_after_note (e : env) (w : world) (n : note) (o : file_options)
      (base : list operation) (db : database) :
  after_note (sessionId o) base db w ->
  after_note (sessionId o) base db (fst (fileNote e w n o)).
Proof.
  intros (Hg & Hl & more & Hops).
  destruct (fileNote_effect e w n o)
    as [res H0 H1|upd w1 res Hd Hc Hw Hr|t upd w1 res Hd Hc Hf Hw Hr].
  - split; [done|]. split; [done|]. by exists more.
  - subst w1.
    destruct (relocate_pending e w n (sessionId o) (js "queue") (queue_path n)
                upd Hl) as [Hl' Hops'].
    split; [eapply grows_trans; [done|apply relocate_grows]|].
    split; [done|]. rewrite Hops', Hops, <- app_assoc. by eexists.
  - subst w1.
    destruct (relocate_pending e w n (sessionId o) (js "file") t upd Hl)
      as [Hl' Hops'].
    split; [eapply grows_trans; [done|apply relocate_grows]|].
    split; [done|]. rewrite Hops', Hops, <- app_assoc. by eexists.
Qed.

Lemma fileNote_filed (e : env) (w : world) (n : note) (o : file_options)
      (d : detail) :
  dryRun o = false ->
  snd (fileNote e w n o) = Ok d -> d_action d = Filed ->
  exists t upd,
    d_targetPath d = Some t
    /\ vault w !! pathToId t = None
    /\ fst (fileNote e w n o) = fst (relocate e w n (sessionId o) (js "file") t upd)
    /\ snd (relocate e w n (sessionId o) (js "file") t upd) = None.
Proof.
  intros Hdry Hres Ha.
  pose proof (fileNote_effect e w n o) as Heff. rewrite Hres in Heff.
  inversion Heff as [res H0 H1|upd w1 res Hd Hc Hw Hr|t upd w1 res Hd Hc Hf Hw Hr];
    subst.
  - destruct (H0 d eq_refl) as (Hd & _). congruence.
  - destruct Hr as (_ & _ & Hq & _). congruence.
  - destruct Hr as (Hs & _ & _ & Ht). by exists t, upd.
Qed.

Lemma read_processed_content (db : database) (paths : list jsstring)
      (notes : list note) :
  vault_consistent db ->
  read_processed db paths = Ok notes ->
  Forall (fun n => db !! pathToId (path n)
                   = Some (mkDoc (path n) (content n)
                                 (default false (doc_deleted <$> db !! pathToId (path n)))
                                 false))
         notes.
Proof.
  intros Hc. revert notes.
  induction paths as [|p paths IH]; intros notes; simpl.
  { intros [= <-]. constructor. }
  unfold mbind, result_bind.
  destruct (readNote db p) as [[f|]|err] eqn:Er; [|by apply IH|done].
  destruct (parseFrontmatter (file_content f)) as [[fm body]|err]; [|done].
  destruct (read_processed db paths) as [others|err]; [|done].
  specialize (IH others eq_refl).
  destruct (truthy _); intros [= <-]; [|done].
  constructor; [|done]. simpl.
  unfold readNote in Er. destruct (db !! pathToId p) as [d|] eqn:Ed; [|done].
  destruct (doc_encrypted d) eqn:Ee; [done|]. injection Er as <-. simpl.
  rewrite (Hc _ _ Ed), Ed. simpl. destruct d; simpl in *. by subst.
Qed.

(** Undoing a ledger that holds the [file] operation [op] after [older]:
    the original of [op] is back and its target is a tombstone, when the
    older operations touch neither. *)
Lemma undo_each_restores (e : env) (db : database)
      (older newer : list operation) (op : operation) (r : undo_results) :
  action op = js "file" ->
  present db (targetPath op) ->
  pathToId (targetPath op) <> pathToId (originalPath op) ->
  Forall (fun o => pathToId (originalPath o) <> pathToId (originalPath op)
                   /\ pathToId (targetPath o) <> pathToId (originalPath op)) older ->
  Forall (fun o => pathToId (originalPath o) <> pathToId (targetPath op)
                   /\ pathToId (targetPath o) <> pathToId (targetPath op)) older ->
  let db' := fst (undo_each e db (rev (older ++ op :: newer)) r) in
  db' !! pathToId (originalPath op)
  = Some (mkDoc (originalPath op) (sanitizeUnicode (originalContent op)) false false)
  /\ exists d, db' !! pathToId (targetPath op) = Some (tombstone d).
Proof.
  intros Ha Hp Hne HO HT. cbv zeta.
  rewrite rev_app_distr. simpl. rewrite <- app_assoc. simpl.
  rewrite undo_each_app.
  set (db1 := fst (undo_each e db (rev newer) r)).
  set (r1 := snd (undo_each e db (rev newer) r)).
  assert (present db1 (targetPath op)) as Hp1.
  { by apply undo_each_grows. }
  cbn [undo_each].
  destruct (undoOperation_file e db1 op Ha Hp1 Hne) as [HO2 [d HT2]].
  destruct (undoOperation e db1 op) as [db2 out]. simpl in HO2, HT2.
  split.
  - rewrite undo_each_frame; [done|]. by apply Forall_rev.
  - exists d. rewrite undo_each_frame; [done|]. by apply Forall_rev.
Qed.

(** C1 (as amended). Take a real run of [fileNotes] on a store whose
    documents sit at the ids of their paths, with no detached call left
    over from before and a readable history that does not hold the
    session yet, and a note that the batch reports as filed, such that no
    note handled before it in the batch had its review-queue path at this
    note's path. The batch hands the operations to detached calls of
    [trackOperation]. Once these have completed, one after another in the
    order they were started, at a time from which on fewer than a hundred
    sessions of the history started, undoing the session succeeds: it puts
    at the original path the original content as [writeNote] sanitizes it,
    which is the original content itself when that is ASCII text, and
    leaves the document at the target path soft-deleted and empty. *)
Theorem filed_note_is_restored_by_undo (e es e' : env) (w w1 : world)
        (o : options) (notes : list note) (r : results) (h : sessions) :
  vault_consistent (vault w) ->
  detached w = [] ->
  loadHistory (history w) = Ok h ->
  room_since (now es) h ->
  get (effective_sessionId e o) h = Absent ->
  default false (opt_dryRun o) = false ->
  getProcessedInboxNotes e (vault w) = Ok notes ->
  fileNotes e w o = (w1, Ok r) ->
  forall i n d,
    slice_to notes (effective_limit o) !! i = Some n ->
    details r !! i = Some d ->
    d_action d = Filed ->
    (forall j n', (j < i)%nat ->
                  slice_to notes (effective_limit o) !! j = Some n' ->
                  pathToId (queue_path n') <> pathToId (path n)) ->
    exists t ws w2 ur,
      d_targetPath d = Some t
      /\ vault w !! pathToId (path n)
         = Some (mkDoc (path n) (content n)
                       (default false (doc_deleted <$> vault w !! pathToId (path n)))
                       false)
      /\ settle es w1 = (ws, [])
      /\ undoLastFiling e' ws (effective_sessionId e o) = (w2, Ok ur)
      /\ vault w2 !! pathToId (path n)
         = Some (mkDoc (path n) (sanitizeUnicode (content n)) false false)
      /\ (ascii_text (content n) ->
          vault w2 !! pathToId (path n)
          = Some (mkDoc (path n) (content n) false false))
      /\ exists dt, vault w2 !! pathToId t = Some dt
                    /\ doc_deleted dt = true /\ doc_content dt = [].
Proof.
  intros Hc Hnone Hh Hroom Hsid Hdry Hnotes Hrun i n d Hi Hd Ha Hqueue.
  set (todo := slice_to notes (effective_limit o)) in *.
  set (sid := effective_sessionId e o) in *.
  set (fo := file_options_of e o).
  set (O := pathToId (path n)).
  (* the notes of the batch *)
  pose proof (inbox_notes_present e _ _ (effective_limit o) Hc Hnotes) as Hpres.
  pose proof (inbox_notes_NoDup e _ _ (effective_limit o) Hc Hnotes) as Hnd.
  fold todo in Hpres, Hnd.
  assert (todo = take i todo ++ n :: drop (S i) todo) as Hsplit.
  { symmetry. by apply take_drop_middle. }
  assert (Forall (fun n' => present (vault w) (path n')
                            /\ pathToId (path n') <> O
                            /\ pathToId (queue_path n') <> O) (take i todo))
    as Hpre.
  { apply Forall_forall. intros n' Hin.
    pose proof Hin as Hin'. apply elem_of_take in Hin' as (j & Hj & Hlt).
    split; [|split].
    - rewrite Forall_forall in Hpres. apply Hpres.
      by eapply list_elem_of_lookup_2.
    - rewrite Hsplit, map_app in Hnd. apply NoDup_app in Hnd as (_ & Hnd & _).
      intros Heq. apply (Hnd (pathToId (path n'))).
      + apply list_elem_of_In, (in_map (fun n0 => pathToId (path n0))).
        by apply list_elem_of_In.
      + simpl. rewrite Heq. apply list_elem_of_here.
    - by apply (Hqueue j). }
  assert (present (vault w) (path n)) as HpresO.
  { rewrite Forall_forall in Hpres. apply Hpres.
    by eapply list_elem_of_lookup_2. }
  (* the history file is not written by the batch *)
  assert (history w1 = history w) as Hhist.
  { pose proof (fileNotes_history e w o) as H. by rewrite Hrun in H. }
  (* the run as a loop *)
  assert (fold_left (file_step e fo) todo (w, empty_results e o) = (w1, r))
    as Hfold.
  { unfold fileNotes in Hrun. rewrite Hnotes in Hrun.
    destruct notes as [|n0 notes0].
    - unfold todo in Hi. by rewrite slice_to_nil in Hi.
    - fold todo fo in Hrun. destruct (fold_left _ _ _) as [w' r'].
      by injection Hrun as <- <-. }
  rewrite Hsplit, fold_left_app in Hfold. cbn [fold_left] in Hfold.
  (* before the note *)
  assert (before_note sid O (vault w) w) as Hb0.
  { split; [apply grows_refl|]. unfold pending_for, pending_ops.
    rewrite Hnone. by split; constructor. }
  destruct (fold_file_step_Forall2 (before_note sid O (vault w))
              (fun n' => present (vault w) (path n')
                         /\ pathToId (path n') <> O
                         /\ pathToId (queue_path n') <> O)
              (fun _ _ => True) e fo
              (fun w0 n' Hb HQ =>
                 conj (fileNote_before_note e w0 n' fo O (vault w) Hb HpresO
                         (proj1 HQ) (proj1 (proj2 HQ)) (proj2 (proj2 HQ)))
                      (match snd (fileNote e w0 n' fo) as x
                             return match x with Ok _ => True | Throw _ => True end
                       with Ok _ => I | Throw _ => I end))
              (take i todo) w (empty_results e o) Hb0 Hpre
              (tallied_empty e o None))
    as (Hbefore & Htally & ds & Hds & HF).
  destruct (fold_left (file_step e fo) (take i todo) (w, empty_results e o))
    as [wa ra] eqn:Ea. simpl in Hbefore, Htally, Hds.
  assert (length ds = i) as Hlen_ds.
  { apply Forall2_length in HF. rewrite <- HF, length_take.
    apply lookup_lt_Some in Hi. lia. }
  (* the note itself *)
  unfold file_step at 2 in Hfold.
  destruct (fileNote e wa n fo) as [wb res] eqn:Eb.
  (* after the note *)
  match type of Hfold with
  | fold_left _ _ (wb, ?rb0) = _ => set (rb := rb0) in *
  end.
  assert (tallied rb) as Htally_b.
  { pose proof (file_step_tallied e fo wa ra n Htally) as Ht.
    unfold file_step in Ht. rewrite Eb in Ht. exact Ht. }
  assert (details rb = ds ++ [match res with Ok d0 => d0 | Throw err => failure n err end])
    as Hdb.
  { unfold rb. destruct res; simpl; by rewrite Hds. }
  set (base := pending_ops wb).
  assert (after_note sid base (vault wb) wb) as Hb1.
  { assert (pending_for sid wb) as Hlb.
    { pose proof (fileNote_effect e wa n fo) as Heff. rewrite Eb in Heff.
      destruct Hbefore as (_ & Hl & _).
      inversion Heff as [res0 H0 H1|upd w2 res0 Hd0 Hc0 Hw0 Hr0
                        |t upd w2 res0 Hd0 Hc0 Hf0 Hw0 Hr0]; simpl in *; subst.
      - done.
      - by apply relocate_pending.
      - by apply relocate_pending. }
    split; [apply grows_refl|]. split; [done|]. exists [].
    by rewrite List.app_nil_r. }
  destruct (fold_file_step_Forall2 (after_note sid base (vault wb))
              (fun _ => True) (fun _ _ => True) e fo
              (fun w0 n' Hb _ =>
                 conj (fileNote_after_note e w0 n' fo base (vault wb) Hb)
                      (match snd (fileNote e w0 n' fo) as x
                             return match x with Ok _ => True | Throw _ => True end
                       with Ok _ => I | Throw _ => I end))
              (drop (S i) todo) wb rb Hb1
              (proj2 (Forall_forall _ _) (fun _ _ => I)) Htally_b)
    as (Hafter & _ & ds' & Hds' & _).
  rewrite Hfold in Hafter, Hds'. simpl in Hafter, Hds'.
  (* the detail of the note *)
  assert (res = Ok d) as ->.
  { rewrite Hds', Hdb, <- app_assoc in Hd.
    rewrite lookup_app_r in Hd by lia.
    replace (i - length ds)%nat with 0%nat in Hd by lia.
    simpl in Hd. injection Hd as Hd. destruct res as [d0|err]; [by subst|].
    subst d. discriminate. }
  destruct (fileNote_filed e wa n fo d) as (t & upd & Ht & Hfresh & Hwb & Hok);
    try done.
  { by rewrite Eb. }
  rewrite Eb in Hwb. cbn [fst] in Hwb.
  (* the operations handed to detached calls *)
  destruct Hbefore as (Hga & Hla & Hopsa).
  destruct (relocate_pending e wa n sid (js "file") t upd Hla) as [_ Hopsb].
  change (sessionId fo) with sid in Hwb, Hok.
  rewrite <- Hwb, Hok in Hopsb. fold base in Hopsb.
  set (op := mkOperation (js "file") (path n) t (now e) (content n) upd) in *.
  destruct Hafter as (Hgb & Hl1 & more & Hops1).
  rewrite Hopsb, <- app_assoc in Hops1. simpl in Hops1.
  (* the ledger once they have completed *)
  assert (exists op0 ops0, pending_ops wa ++ op :: more = op0 :: ops0)
    as (op0 & ops0 & Hcons).
  { destruct (pending_ops wa); simpl; by eexists _, _. }
  rewrite <- Hhist in Hh.
  destruct (settle_session es w1 h sid op0 ops0 Hh Hsid Hroom Hl1)
    as (h1 & s & Hsettle & Hs & Hso).
  { by rewrite Hops1. }
  rewrite <- Hcons in Hso.
  (* the undo *)
  assert (pathToId t <> O) as HtO.
  { intros Heq. apply Hga in HpresO. unfold O in Heq.
    rewrite <- Heq, Hfresh in HpresO. by destruct HpresO. }
  destruct (undo_each_restores e' (vault w1) (pending_ops wa) more op
              (mkUndoResults sid 0 0 [])) as (Horig & dt & Htomb); try done.
  { simpl. apply Hgb. rewrite Hwb. apply relocate_target_present. }
  { eapply Forall_impl; [exact Hopsa|]. by intros o0 (_ & _ & ? & ?). }
  { eapply Forall_impl; [exact Hopsa|].
    intros o0 (H1 & H2 & _ & _). simpl. unfold present in H1, H2.
    split; intros Heq.
    - rewrite Heq, Hfresh in H1. by destruct H1.
    - rewrite Heq, Hfresh in H2. by destruct H2. }
  exists t, (mkWorld (vault w1) (Stored h1) (learning w1) []).
  unfold undoLastFiling. cbn [history loadHistory vault learning detached].
  rewrite Hs, Hso.
  rewrite (surjective_pairing
             (undo_each e' (vault w1) (rev (pending_ops wa ++ op :: more))
                        (mkUndoResults sid 0 0 []))).
  simpl in Horig, Htomb.
  eexists _, _. split; [done|]. split.
  { pose proof (read_processed_content _ _ _ Hc Hnotes) as Hcont.
    rewrite Forall_forall in Hcont. apply (Hcont n).
    apply list_elem_of_In, (In_slice_to _ (effective_limit o)), list_elem_of_In.
    by eapply list_elem_of_lookup_2. }
  split; [exact Hsettle|]. split; [reflexivity|].
  cbn [vault]. subst O. split; [done|]. split.
  - intros Hascii. by rewrite Horig, sanitizeUnicode_ascii.
  - exists (tombstone dt). by rewrite Htomb.
Qed.

Lemma filed_note_is_restored_by_undo_witness :
  exists ws w2 ur,
    settle sample_env (fst (fileNotes sample_env inbox_world no_options))
    = (ws, [])
    /\ undoLastFiling later_env ws first_session = (w2, Ok ur)
    /\ vault inbox_world !! js "inbox/test-note.md"
       = Some (mkDoc (js "inbox/Test-Note.md") sample_note false false)
    /\ vault w2 !! js "inbox/test-note.md"
       = Some (mkDoc (js "inbox/Test-Note.md") sample_note false false)
    /\ exists dt, vault w2 !! js "projects/ai/test-note.md" = Some dt
                  /\ doc_deleted dt = true /\ doc_content dt = [].
Proof.
  destruct (getProcessedInboxNotes sample_env (vault inbox_world))
    as [notes|] eqn:En; [|by vm_compute in En].
  destruct (fileNotes sample_env inbox_world no_options) as [w1 res] eqn:Er.
  assert (exists r, res = Ok r
                    /\ slice_to notes (effective_limit no_options) !! 1%nat
                       = Some test_note
                    /\ exists d, details r !! 1%nat = Some d
                                 /\ d_action d = Filed
                                 /\ d_targetPath d = Some (js "projects/ai/Test-Note.md"))
    as (r & -> & Hn & d & Hd & Ha & Ht).
  { vm_compute in En. injection En as <-.
    vm_compute in Er. injection Er as _ <-.
    eexists. split; [reflexivity|]. split; [reflexivity|].
    eexists. split; [reflexivity|]. split; reflexivity. }
  destruct (filed_note_is_restored_by_undo sample_env sample_env later_env
              inbox_world w1 no_options notes r [] (store_of_consistent _)
              eq_refl eq_refl ltac:(unfold room_since; simpl; lia) eq_refl
              eq_refl En Er 1%nat test_note d Hn Hd Ha)
    as (t & ws & w2 & ur & Ht' & Hbefore & Hsettle & Hundo & Hafter & Hascii
        & dt & Hdt & Hdel & Hemp).
  { intros j n' Hj Hn'. assert (j = 0%nat) as -> by lia.
    vm_compute in En. injection En as <-.
    vm_compute in Hn'. injection Hn' as <-. vm_compute. discriminate. }
  rewrite Ht in Ht'. injection Ht' as <-.
  exists ws, w2, ur. cbn [fst]. split; [exact Hsettle|].
  split; [exact Hundo|]. split; [exact Hbefore|].
  split.
  - apply Hascii. vm_compute. repeat constructor.
  - exists dt. by repeat split.
Defined.

(** The statement of C1 fails in three ways.

    An undo that follows the batch at once is refused. The batch files the
    one note of the inbox and hands its operation to a detached call of
    [trackOperation]; when [fileNotes] returns, that call has not written
    the history file, and [undoLastFiling] does not find the session: the
    original stays empty and the note stays at the target.

    Once the detached call has completed, the undo reports one operation
    undone, and the content back at the original path has lost the
    accented letter.

    Beside a history of a hundred sessions that started later, the session
    of the batch is cut by [saveHistory] as soon as it is written: the
    detached calls complete without an error, and the undo does not find
    the session. *)
Lemma filed_note_is_not_always_restored :
  let filing := fileNotes sample_env accented_world no_options in
  let settled := settle sample_env (fst filing) in
  let undoing := undoLastFiling later_env (fst settled) first_session in
  let crowded := fileNotes sample_env crowded_world no_options in
  ((r ← snd filing; Ok (filed r, List.map d_targetPath (details r)))
   = Ok (1%nat, [Some (js "projects/cafe.md")])
   /\ vault accented_world !! js "inbox/cafe.md"
      = Some (mkDoc (js "inbox/cafe.md") accented_note false false))
  /\ (history (fst filing) = Missing
      /\ List.map fst (detached (fst filing)) = [first_session]
      /\ undoLastFiling later_env (fst filing) first_session
         = (fst filing,
            Throw (Error (js "Session filer-1770000000000-a1b2c3d4 not found")))
      /\ vault (fst filing) !! js "inbox/cafe.md"
         = Some (mkDoc (js "inbox/cafe.md") [] true false))
  /\ (snd settled = []
      /\ (ur ← snd undoing; Ok (ur_undone ur, ur_failed ur)) = Ok (1%nat, 0%nat)
      /\ vault (fst undoing) !! js "inbox/cafe.md"
         = Some (mkDoc (js "inbox/cafe.md")
                       (high_note (js "projects") (js "Caf notes")) false false)
      /\ vault (fst undoing) !! js "projects/cafe.md"
         = Some (mkDoc (js "projects/cafe.md") [] true false)
      /\ high_note (js "projects") (js "Caf notes") <> accented_note)
  /\ (length later_sessions = 100%nat
      /\ get first_session later_sessions = Absent
      /\ (r ← snd crowded; Ok (filed r)) = Ok 1%nat
      /\ snd (settle sample_env (fst crowded)) = []
      /\ snd (undoLastFiling later_env (fst (settle sample_env (fst crowded)))
                             first_session)
         = Throw (Error (js "Session filer-1770000000000-a1b2c3d4 not found"))).
Proof.
  cbv zeta. split; [|split; [|split]].
  - split; vm_compute; reflexivity.
  - split; [vm_compute; reflexivity|]. split; [vm_compute; reflexivity|].
    split; [|vm_compute; reflexivity].
    set (w1 := fst (fileNotes sample_env accented_world no_options)).
    assert (history w1 = Missing) as Hh by (vm_compute; reflexivity).
    unfold undoLastFiling. rewrite Hh. reflexivity.
  - split; [vm_compute; reflexivity|]. split; [vm_compute; reflexivity|].
    split; [vm_compute; reflexivity|]. split; [vm_compute; reflexivity|].
    vm_compute. discriminate.
  - split; [vm_compute; reflexivity|]. split; [vm_compute; reflexivity|].
    split; [vm_compute; reflexivity|]. split; vm_compute; reflexivity.
Qed.

(** * The properties at sample data *)

Lemma dry_run_previews_first_suffix_witness :
  resolveCollision taken_store (js "projects/name.md") true
  = Ok (js "projects/name-1.md")
  /\ resolveCollision taken_store (js "projects/name.md") false
     = Ok (js "projects/name-2.md").
Proof.
  destruct (dry_run_previews_first_suffix taken_store (js "projects/name.md") 2)
    as (H1 & H2 & _).
  - lia.
  - intros j Hj. assert (j = 0 \/ j = 1)%N as [-> | ->] by lia;
      eexists; vm_compute; reflexivity.
  - vm_compute. reflexivity.
  - split; [exact H1|exact H2].
Defined.

Lemma undoLastFiling_attempts_every_operation_witness :
  exists w' r,
    undoLastFiling later_env filed_world first_session = (w', Ok r)
    /\ (ur_undone r + ur_failed r = 2)%nat.
Proof.
  destruct (loadHistory (history filed_world)) as [h|] eqn:Eh;
    [|by vm_compute in Eh].
  destruct (get first_session h) as [s| |] eqn:Es.
  - destruct (undoLastFiling_attempts_every_operation later_env filed_world
                first_session h s Eh Es)
      as (w' & r & Hu & _ & _ & _ & _ & Hsum & _).
    exists w', r. split; [exact Hu|]. rewrite Hsum.
    vm_compute in Eh. injection Eh as <-.
    vm_compute in Es. injection Es as <-. reflexivity.
  - vm_compute in Eh. injection Eh as <-. vm_compute in Es. discriminate.
  - vm_compute in Eh. injection Eh as <-. vm_compute in Es. discriminate.
Defined.

Lemma undone_session_is_not_offered_witness :
  exists w' r,
    undoLastFiling later_env filed_world first_session = (w', Ok r)
    /\ getRecentSessions (history w') 10 = Ok [].
Proof.
  destruct (loadHistory (history filed_world)) as [h|] eqn:Eh;
    [|by vm_compute in Eh].
  destruct (undoLastFiling later_env filed_world first_session)
    as [w' [r|err]] eqn:Eu; [|by vm_compute in Eu].
  destruct (getRecentSessions (history w') 10) as [l|err] eqn:El.
  - pose proof (undone_session_is_not_offered later_env filed_world w'
                  first_session h r 10 l Eh) as Hno.
    exists w', r. split; [reflexivity|].
    assert (one_value_per_key h) as Hnd.
    { vm_compute in Eh. injection Eh as <-. apply NoDup_singleton. }
    specialize (Hno Hnd Eu El).
    vm_compute in Eu. injection Eu as <- _.
    vm_compute in El. injection El as <-. reflexivity.
  - vm_compute in Eu. injection Eu as <- _. vm_compute in El. discriminate.
Defined.

Lemma getRecentSessions_offers_the_most_recent_witness :
  exists l,
    getRecentSessions (history filed_world) 10 = Ok l
    /\ List.map rs_sessionId l = [first_session]
    /\ (length l <= 10)%nat.
Proof.
  destruct (loadHistory (history filed_world)) as [h|] eqn:Eh;
    [|by vm_compute in Eh].
  destruct (getRecentSessions_offers_the_most_recent (history filed_world) h 10 Eh)
    as (l & Hl & Hlen & _).
  exists l. split; [exact Hl|]. split; [|exact Hlen].
  vm_compute in Hl. injection Hl as <-. reflexivity.
Defined.

Lemma undoOperation_when_target_is_gone_witness :
  let db := store_of [(js "inbox/b.md", js "other")] in
  snd (undoOperation sample_env db stale_operation) = Throw (not_found sample_env)
  /\ readNote (fst (undoOperation sample_env db stale_operation)) (js "inbox/a.md")
     = Ok (Some (mkNoteFile (js "inbox/a.md") (js "original"))).
Proof.
  intros db.
  destruct (undoOperation_when_target_is_gone sample_env db stale_operation)
    as [Hdb Hres].
  - by left.
  - vm_compute. reflexivity.
  - vm_compute. discriminate.
  - split; [exact Hres|]. rewrite Hdb. vm_compute. reflexivity.
Defined.

Lemma tracked_session_is_offered_witness :
  exists h,
    trackOperation sample_env (clearHistory Missing) first_session stale_operation
    = Ok h
    /\ getRecentSessions (Stored h) 10
       = Ok [mkRecent first_session (now sample_env) 1 [js "file"]].
Proof.
  destruct (tracked_session_is_offered sample_env Missing first_session
              stale_operation 9 eq_refl) as (h & Ht & Hr & _).
  exists h. split; [exact Ht|exact Hr].
Defined.

Lemma extractKeywords_by_descending_frequency_witness :
  let content :=
    js "This is a note about Machine learning and machine Vision (vision) of machine" in
  extractKeywords content = [js "machine"; js "vision"; js "note"; js "learning"]
  /\ NoDup (extractKeywords content)
  /\ StronglySorted
       (fun a b => (occurrences b (clean_words content)
                    <= occurrences a (clean_words content))%nat)
       (extractKeywords content).
Proof.
  intros content. split; [vm_compute; reflexivity|].
  destruct (extractKeywords_by_descending_frequency content) as (H1 & _ & H3 & _).
  - vm_compute. repeat constructor.
  - split; [exact H1|exact H3].
Defined.

Lemma getFolderHints_confidence_range_witness :
  exists h,
    getFolderHints one_folder (js "machine learning") = Ok h
    /\ suggestedFolder h = Some (js "projects/ai")
    /\ in_unit_interval (confidence h) = true.
Proof.
  destruct (getFolderHints one_folder (js "machine learning")) as [h|err] eqn:E;
    [|by vm_compute in E].
  exists h. split; [reflexivity|].
  destruct (getFolderHints_confidence_range one_folder (js "machine learning") h E)
    as (Hc & _).
  split; [|exact Hc]. vm_compute in E. injection E as <-. reflexivity.
Defined.

Lemma handleFileCommand_dry_run_witness :
  parseArgs (js "limit=5 dryrun")
  = [(js "limit", VStr (js "5")); (js "dryrun", VBool true)]
  /\ fst (handleFileCommand sample_env inbox_world (js "limit=5 dryrun"))
     = inbox_world.
Proof.
  split; [reflexivity|].
  apply (handleFileCommand_dry_run sample_env inbox_world (js "limit=5 dryrun")).
  reflexivity.
Defined.

Lemma handleFileCommand_reports_enumeration_failure_witness :
  handleFileCommand sample_env encrypted_world (js "limit=5")
  = (encrypted_world,
     cross_mark
       ++ js " Filing failed: Filing failed: Note is encrypted - E2EE must be disabled").
Proof.
  destruct (handleFileCommand_reports_enumeration_failure sample_env
              encrypted_world (js "limit=5")
              (Error (js "Note is encrypted - E2EE must be disabled")))
    as (Hw & Hr & _).
  - vm_compute. reflexivity.
  - destruct (handleFileCommand sample_env encrypted_world (js "limit=5"))
      as [w' reply] eqn:E. simpl in Hw. subst w'. f_equal.
    vm_compute in E. injection E as <-. vm_compute. reflexivity.
Defined.

Lemma handleUndoCommand_unknown_session_witness :
  handleUndoCommand sample_env inbox_world (js " invalid-session ")
  = (inbox_world,
     cross_mark ++ js " Undo failed: Session invalid-session not found").
Proof.
  rewrite (handleUndoCommand_unknown_session sample_env inbox_world
             (js " invalid-session ") [] eq_refl).
  - reflexivity.
  - vm_compute. discriminate.
  - vm_compute. reflexivity.
Defined.

Lemma handleUndoCommand_takes_the_most_recent_witness :
  exists r,
    undoLastFiling later_env filed_world first_session
    = (fst (handleUndoCommand later_env filed_world []), Ok r)
    /\ snd (handleUndoCommand later_env filed_world []) = formatUndoResults r.
Proof.
  destruct (loadHistory (history filed_world)) as [h|] eqn:Eh;
    [|by vm_compute in Eh].
  assert (exists s, h = [(first_session, s)] /\ undone s = false) as (s & Hh & Hs).
  { vm_compute in Eh. injection Eh as <-. eexists. split; reflexivity. }
  destruct (handleUndoCommand_takes_the_most_recent later_env filed_world [] h
              eq_refl Eh) as [_ Hsome].
  { rewrite Hh. apply NoDup_singleton. }
  destruct (Hsome (first_session, s)) as (sid & s' & r & Hin & _ & _ & Hu & Hreply & _).
  { rewrite Hh. by left. }
  { exact Hs. }
  rewrite Hh in Hin. apply list_elem_of_singleton in Hin. injection Hin as -> _.
  exists r. split; [exact Hu|exact Hreply].
Defined.

Lemma chunked_read_after_write_witness :
  Chunked.readNote
    (Chunked.writeNote (fun data => data) ∅ (js "inbox/a.md") (js "text"))
    (js "inbox/a.md")
  = Ok (Some (mkNoteFile (js "inbox/a.md") (js "text"))).
Proof.
  refine (proj1 (chunked_read_after_write (fun data => data) ∅ ∅
                   (js "inbox/a.md") (js "text") _ _ _)).
  - intros a b _ _ H. exact H.
  - intros d _. left. apply lookup_empty.
  - intros d Hd.
    assert (Chunked.createChunks (sanitizeUnicode (js "text"))
                                 Chunked.default_chunk_size = [js "text"]) as E.
    { vm_compute. reflexivity. }
    rewrite E in Hd. apply list_elem_of_singleton in Hd as ->.
    vm_compute. discriminate.
Defined.

Lemma trackCorrection_log_witness :
  exists d' entry,
    Correction.trackCorrection sample_env Missing (js "inbox/test-note.md")
      (js "projects/ai/test-note.md") corrected_text = Ok (Stored d')
    /\ last (Correction.corrections d') = Some entry
    /\ Correction.c_correctedFolder entry = js "projects/ai".
Proof.
  destruct (trackCorrection_log sample_env Missing (Correction.mkLearning [] [])
              (js "inbox/test-note.md") (js "projects/ai/test-note.md")
              corrected_text eq_refl) as [_ Hmove].
  destruct Hmove as (d' & entry & dropped & Ht & He & _ & _ & Hlast & _).
  - vm_compute. discriminate.
  - vm_compute. reflexivity.
  - exists d', entry. split; [exact Ht|]. split; [exact Hlast|].
    rewrite He. vm_compute. reflexivity.
Defined.

Lemma learned_folder_is_suggested_witness :
  extractKeywords corrected_text
  = [js "note"; js "machine"; js "learning"; js "artificial"; js "intelligence."]
  /\ exists f',
       Correction.trackCorrection sample_env Missing (js "inbox/test-note.md")
         (js "projects/ai/test-note.md") corrected_text = Ok f'
       /\ (h ← getFolderHints (Correction.patterns_of f') corrected_text;
           Ok (suggestedFolder h, confidence h))
          = Ok (Some (js "projects/ai"), Fin (Qmake 1 2)).
Proof.
  split; [vm_compute; reflexivity|].
  destruct (learned_folder_is_suggested sample_env (js "inbox/test-note.md")
              (js "projects/ai/test-note.md") corrected_text)
    as (f' & Ht & Hh).
  - vm_compute. discriminate.
  - vm_compute. reflexivity.
  - vm_compute. repeat constructor.
  - vm_compute. discriminate.
  - exists f'. split; [exact Ht|]. rewrite Hh. vm_compute. reflexivity.
Defined.

Lemma unreadable_note_blocks_the_batch_witness :
  exists err, fileNotes sample_env quoted_world no_options
              = (quoted_world, Throw (Error (js "Filing failed: " ++ message err))).
Proof.
  apply (unreadable_note_blocks_the_batch sample_env quoted_world no_options
           (js "inbox/quoted.md")).
  - assert (listNotes (vault quoted_world)
            = [js "inbox/Test-Note.md"; js "inbox/quoted.md"]) as ->.
    { vm_compute. reflexivity. }
    right. by left.
  - vm_compute. reflexivity.
  - left. exists (mkNoteFile (js "inbox/quoted.md") quoted_note),
                  (Error (js "item is not defined")).
    split; vm_compute; reflexivity.
Defined.

Lemma parseFrontmatter_buildNote_witness :
  buildNote review_marks (js "# Note")
  = JsString.join nl
      [ js "---"; js "review_needed: true";
        js "queued_at: 2026-02-02T02:40:00.000Z"; js "---"; js "# Note" ]
  /\ parseFrontmatter (buildNote review_marks (js "# Note"))
     = Ok (review_marks, js "# Note").
Proof.
  split; [vm_compute; reflexivity|].
  apply parseFrontmatter_buildNote.
  - discriminate.
  - apply (bool_decide_unpack _). vm_compute. exact I.
  - repeat (constructor; [split; vm_compute; reflexivity|]). constructor.
Defined.

Lemma sanitizeUnicode_replaces_listed_symbols_witness :
  sanitizeUnicode (js "ok " ++ [9989%N] ++ js " end") = js "ok [DONE] end".
Proof.
  apply (sanitizeUnicode_replaces_listed_symbols [9989%N] (js "[DONE]")
           (js "ok ") (js " end")).
  - vm_compute. tauto.
  - by apply ascii_text_js.
  - by apply ascii_text_js.
Defined.
